(** * cdx: session registry wrapper -- shallow embedding of [bin/cdx.js]

    The development follows the source file function by function:
    JavaScript strings and the few [String.prototype] methods the program
    uses, the registry codec ([loadEntries], [writeEntries], [appendEntry],
    [sanitizeLabel]), the directory walk-up ([findCdxFile]), session
    discovery ([getLatestSessionSnapshot], [getLastHistorySessionId],
    [getNewestHistorySessionIdSince]) and the flows ([runCodex],
    [runDefault], [runRemove]). *)

From Stdlib Require Import NArith ZArith QArith List Ascii String Lia.
From stdpp Require Import gmap list.
Import ListNotations.

Set Warnings "-register-all".

Local Open Scope N_scope.
Local Open Scope list_scope.

(** ** JavaScript strings

    A JavaScript string is a sequence of UTF-16 code units.  Files are read
    and written with the ["utf8"] encoding; their content is carried here as
    the decoded text. *)

Abbreviation jsstring := (list N).

Definition TAB : N := 9.
Definition LF : N := 10.
Definition CR : N := 13.
Definition SP : N := 32.

(** String literals of the source, written as Rocq strings (ASCII only). *)
Definition js (s : string) : jsstring :=
  List.map N_of_ascii (list_ascii_of_string s).

(** ECMAScript [WhiteSpace] and [LineTerminator] code points, the set
    stripped by [String.prototype.trim]: TAB, LF, VT, FF, CR, SP, NBSP,
    U+1680, U+2000..U+200A, U+2028, U+2029, U+202F, U+205F, U+3000, U+FEFF. *)
Definition isWhiteSpace (c : N) : bool :=
  ((9 <=? c) && (c <=? 13)) || (c =? 32) || (c =? 160) || (c =? 5760)
  || ((8192 <=? c) && (c <=? 8202)) || (c =? 8232) || (c =? 8233)
  || (c =? 8239) || (c =? 8287) || (c =? 12288) || (c =? 65279).

Fixpoint trimStart (s : jsstring) : jsstring :=
  match s with
  | [] => []
  | c :: r => if isWhiteSpace c then trimStart r else s
  end.

Definition trimEnd (s : jsstring) : jsstring := rev (trimStart (rev s)).

(** [s.trim()] *)
Definition trim (s : jsstring) : jsstring := trimEnd (trimStart s).

(** [s.split(sep)] for a one-character separator; splitting the empty string
    gives one empty piece. *)
Fixpoint split (sep : N) (s : jsstring) : list jsstring :=
  match s with
  | [] => [[]]
  | c :: r =>
      if c =? sep then [] :: split sep r
      else match split sep r with
           | [] => [[c]]
           | w :: ws => (c :: w) :: ws
           end
  end.

(** [lines.join(sep)] *)
Fixpoint join (sep : jsstring) (l : list jsstring) : jsstring :=
  match l with
  | [] => []
  | [x] => x
  | x :: rest => x ++ sep ++ join sep rest
  end.

(** [s.indexOf(c)]; [None] stands for [-1]. *)
Fixpoint indexOf (c : N) (s : jsstring) : option nat :=
  match s with
  | [] => None
  | x :: r => if x =? c then Some O else option_map S (indexOf c r)
  end.

(** Truthiness of a string: [Boolean(s)] is [false] exactly for the empty
    string. *)
Definition nonEmpty (s : jsstring) : bool :=
  match s with [] => false | _ :: _ => true end.

(** [arr.filter(Boolean)] on an array of objects-or-null. *)
Fixpoint filterBoolean {A : Type} (l : list (option A)) : list A :=
  match l with
  | [] => []
  | None :: r => filterBoolean r
  | Some a :: r => a :: filterBoolean r
  end.

(** ** Registry codec *)

Record Entry := mkEntry { uuid : jsstring; label : jsstring }.

(** The callback of the second [map] in [loadEntries] (lines 44-51). *)
Definition parseLine (line : jsstring) : option Entry :=
  match indexOf TAB line with
  | None => None
  | Some tabIndex =>
      let uuid := trim (take tabIndex line) in
      let label := trim (drop (S tabIndex) line) in
      if negb (nonEmpty uuid) || negb (nonEmpty label) then None
      else Some (mkEntry uuid label)
  end.

(** The chain applied to the file content in [loadEntries] (lines 40-52). *)
Definition parseContent (content : jsstring) : list Entry :=
  filterBoolean
    (List.map parseLine
       (List.filter nonEmpty (List.map trim (split LF content)))).

(** The character class [[\t\n\r]] of [sanitizeLabel]. *)
Definition isTabNlCr (c : N) : bool := (c =? TAB) || (c =? LF) || (c =? CR).

(** [s.replace(/[\t\n\r]+/g, " ")]: every maximal run of class characters
    becomes one space.  [inRun] tells that the previous character was part of
    the run being replaced. *)
Fixpoint replaceRuns (inRun : bool) (s : jsstring) : jsstring :=
  match s with
  | [] => []
  | c :: r =>
      if isTabNlCr c then
        if inRun then replaceRuns true r else SP :: replaceRuns true r
      else c :: replaceRuns false r
  end.

Definition sanitizeLabel (label : jsstring) : jsstring :=
  trim (replaceRuns false label).

(** The line written for one entry: [`${e.uuid}\t${e.label}`]. *)
Definition entryLine (e : Entry) : jsstring := uuid e ++ TAB :: label e.

(** The content written by [writeEntries] (line 72). *)
Definition serialize (entries : list Entry) : jsstring :=
  join [LF] (List.map entryLine entries) ++ [LF].

(** ** JavaScript values

    The values that flow out of [JSON.parse] and through the identifier
    variables ([id], [previousHistoryId], [newId]).  A number is carried as a
    rational (every finite double is one). *)

Inductive value :=
| VUndefined
| VNull
| VBool (b : bool)
| VNum (q : Q)
| VStr (s : jsstring)
| VArr (items : list value)
| VObj (props : list (jsstring * value)).

(** [Boolean(v)]: [undefined], [null], [false], [0] and the empty string are
    falsy. *)
Definition truthy (v : value) : bool :=
  match v with
  | VUndefined | VNull => false
  | VBool b => b
  | VNum q => negb (Qeq_bool q 0)
  | VStr s => nonEmpty s
  | VArr _ | VObj _ => true
  end.

Fixpoint lookupProp (key : jsstring) (props : list (jsstring * value)) : value :=
  match props with
  | [] => VUndefined
  | (k, v) :: r => if bool_decide (k = key) then v else lookupProp key r
  end.

(** [v.key] for the property names the program reads ([type], [payload],
    [id], [session_id]): only an object can carry them, so the access on a
    string, number, boolean or array yields [undefined].  The accesses on
    [null] and [undefined] are guarded in the source ([record && ...],
    [?.]). *)
Definition getProp (v : value) (key : jsstring) : value :=
  match v with
  | VObj props => lookupProp key props
  | _ => VUndefined
  end.

(** [a === b].  Objects and arrays compare by identity; the two operands the
    program compares always come from two different calls of [JSON.parse],
    so two objects are never the same one. *)
Definition strictEq (a b : value) : bool :=
  match a, b with
  | VUndefined, VUndefined => true
  | VNull, VNull => true
  | VBool x, VBool y => Bool.eqb x y
  | VNum x, VNum y => Qeq_bool x y
  | VStr x, VStr y => bool_decide (x = y)
  | _, _ => false
  end.

(** ** The file system, the process and their effects *)

(** A directory is a list of segments, innermost first: [/A/B/C] is
    [["C"; "B"; "A"]] and the root is [[]].  [path.join(dir, name)] conses
    the name, [path.dirname] drops the head and leaves the root in place. *)
Abbreviation Path := (list jsstring).

Definition CDX_FILENAME : jsstring := js ".cdx".

Definition pathJoin (dir : Path) (name : jsstring) : Path := name :: dir.

Definition dirname (dir : Path) : Path := tail dir.

(** What a path of the registry area or the history log names.  A file holds
    text: what is read is the string that was written.  So it is for
    well-formed strings (no unpaired surrogate), the only ones [utf8] can
    carry; the statements about a text that may come out of [JSON.parse],
    where an escape can make an unpaired surrogate, ask for a well-formed
    one. *)
Inductive node :=
| File (content : jsstring)
| Directory.

(** What can be thrown: the code of a system error, the
    [ERR_INVALID_ARG_VALUE] of the argument checks of the runtime, or a
    [TypeError] of the language. *)
Inductive errno :=
| ENOENT
| EISDIR
| ENOTDIR
| EACCES
| ERR_INVALID_ARG_VALUE
| TypeError
| EOTHER.

(** The tree under [SESSIONS_DIR], as [readdirSync] with [withFileTypes] and
    [statSync] show it.  [DOther] is an entry that is neither a directory nor
    a regular file; [DDenied] is an entry at which the traversal throws: a
    directory that [readdirSync] cannot list, or a regular file with the
    ending [.jsonl] on which [statSync] fails. *)
Inductive dirent :=
| DFile (name : jsstring) (content : jsstring) (mtimeMs : Q)
| DDir (name : jsstring) (children : list dirent)
| DOther (name : jsstring)
| DDenied (name : jsstring) (e : errno).

(** What is under [SESSIONS_DIR] itself: a directory with its entries, or
    something on which [readdirSync] throws ([ENOTDIR] for a regular file,
    [EACCES] for a directory that may not be read). *)
Inductive listing :=
| Listed (entries : list dirent)
| Unlisted (e : errno).

Record FS := mkFS {
  registry : gmap Path node;
  history : option node;
  sessions : option listing
}.

Inductive target := Registry (p : Path) | History | Sessions.

Inductive command := Codex | PowerShell.

(** The messages the program prints. *)
Inductive message :=
| MsgFound (candidate : Path)
| MsgAppending (filePath : Path)
| MsgRemovingEmpty (filePath : Path)
| MsgWriting (n : nat) (filePath : Path)
| MsgLatestSessionFile (path : jsstring)
| MsgNoSessionId
| MsgNoNewSessionId
| MsgRunning (args : list jsstring)
| MsgPowerShellFallback
| MsgCodexUnavailable
| MsgListNew
| MsgListEntry (index : nat) (e : Entry)
| MsgCdxPath (cdxPath : Path)
| MsgCouldNotDetermine
| MsgNoCdxFile
| MsgNoSessions.

(** What the process did, in order. *)
Inductive event :=
| EvExists (t : target)
| EvRead (t : target)
| EvAppend (p : Path) (data : jsstring)
| EvWrite (p : Path) (data : jsstring)
| EvUnlink (p : Path)
| EvSpawn (cmd : command) (args : list jsstring) (cwd : Path)
| EvLog (m : message)
| EvError (m : message).

Record World := mkWorld { fs : FS; trace : list event }.

(** How a computation ends: it returns, the process exits
    ([process.exit(code)]) or an exception escapes. *)
Inductive outcome (A : Type) :=
| Ok (a : A)
| Exited (code : Z)
| Thrown (e : errno).
Arguments Ok {A} a.
Arguments Exited {A} code.
Arguments Thrown {A} e.

Definition M (A : Type) : Type := World -> outcome A * World.

Definition ret {A} (a : A) : M A := fun w => (Ok a, w).

Definition bind {A B} (m : M A) (k : A -> M B) : M B :=
  fun w =>
    match m w with
    | (Ok a, w') => k a w'
    | (Exited c, w') => (Exited c, w')
    | (Thrown e, w') => (Thrown e, w')
    end.

Declare Scope js_scope.
Delimit Scope js_scope with js.
Notation "x <- m ;; k" := (bind m (fun x => k))
  (at level 100, m at next level, right associativity) : js_scope.
Notation "m ;;; k" := (bind m (fun _ => k))
  (at level 100, right associativity) : js_scope.
Local Open Scope js_scope.

Definition emit (e : event) : M unit :=
  fun w => (Ok tt, mkWorld (fs w) (trace w ++ [e])).

(** [process.exit(code)] *)
Definition exit {A} (code : Z) : M A := fun w => (Exited code, w).

(** [throw] *)
Definition throw {A} (e : errno) : M A := fun w => (Thrown e, w).

Definition consoleLog (m : message) : M unit := emit (EvLog m).
Definition consoleError (m : message) : M unit := emit (EvError m).

Definition logVerbose (m : message) (enabled : bool) : M unit :=
  if enabled then consoleLog m else ret tt.

Definition lookupNode (t : target) (f : FS) : option node :=
  match t with
  | Registry p => registry f !! p
  | History => history f
  | Sessions =>
      (* only asked whether something is there *)
      match sessions f with Some _ => Some Directory | None => None end
  end.

(** [fs.existsSync] *)
Definition existsSync (t : target) : M bool :=
  emit (EvExists t) ;;;
  fun w => (Ok (bool_decide (is_Some (lookupNode t (fs w)))), w).

(** [fs.readFileSync(p, "utf8")] *)
Definition readFileSync (t : target) : M jsstring :=
  emit (EvRead t) ;;;
  fun w =>
    match lookupNode t (fs w) with
    | Some (File content) => (Ok content, w)
    | Some Directory => (Thrown EISDIR, w)
    | None => (Thrown ENOENT, w)
    end.

Definition setRegistry (r : gmap Path node) (w : World) : World :=
  mkWorld (mkFS r (history (fs w)) (sessions (fs w))) (trace w).

(** [fs.appendFileSync(p, data, "utf8")]: creates the file when missing.
    The text is kept as it is given, which is what [utf8] does with
    well-formed text. *)
Definition appendFileSync (p : Path) (data : jsstring) : M unit :=
  emit (EvAppend p data) ;;;
  fun w =>
    match registry (fs w) !! p with
    | Some (File content) =>
        (Ok tt, setRegistry (<[p := File (content ++ data)]> (registry (fs w))) w)
    | Some Directory => (Thrown EISDIR, w)
    | None => (Ok tt, setRegistry (<[p := File data]> (registry (fs w))) w)
    end.

(** [fs.writeFileSync(p, data, "utf8")], for well-formed text as above. *)
Definition writeFileSync (p : Path) (data : jsstring) : M unit :=
  emit (EvWrite p data) ;;;
  fun w =>
    match registry (fs w) !! p with
    | Some Directory => (Thrown EISDIR, w)
    | _ => (Ok tt, setRegistry (<[p := File data]> (registry (fs w))) w)
    end.

(** [fs.unlinkSync(p)] *)
Definition unlinkSync (p : Path) : M unit :=
  emit (EvUnlink p) ;;;
  fun w =>
    match registry (fs w) !! p with
    | Some (File _) => (Ok tt, setRegistry (delete p (registry (fs w))) w)
    | Some Directory => (Thrown EISDIR, w)
    | None => (Thrown ENOENT, w)
    end.

(** The result of [spawnSync]: [error] is set when the process could not be
    started, [status] is the exit code, [None] (JavaScript [null]) when the
    child was ended by a signal. *)
Record SpawnResult := mkSpawnResult { error : option errno; status : option Z }.

(** What the program takes from its host: the [JSON.parse] builtin ([None]
    when it throws), string conversion of a non-string value in a template
    literal, the platform, the sessions root ([path.join(HOME, ".codex",
    "sessions")]) and the external programs, which may change the file
    system in any way. *)
Record Host := mkHost {
  JSON_parse : jsstring -> option value;
  ToString : value -> jsstring;
  win32 : bool;
  SESSIONS_DIR : jsstring;
  spawn : command -> list jsstring -> Path -> FS -> SpawnResult * FS
}.

Inductive Selection :=
| SelNew
| SelResume (entry : Entry).

(** The answers of the user to the [prompts] dialogues: the outcome of the
    session menu of [selectSession] (lines 195-231, [None] when the menu is
    cancelled), the text typed for the label ([None] for [undefined]) and the
    identifier picked in [runRemove] (lines 317-352, [None] when cancelled). *)
Record UI := mkUI {
  chooseSession : list Entry -> option Selection;
  promptLabel : option jsstring;
  chooseRemoval : list Entry -> option jsstring
}.

Record Found := mkFound { dir : Path; filePath : Path }.

(** One element of the [files] array of [getLatestSessionSnapshot].  The
    source keeps [path] and [mtimeMs]; [content] is what
    [readFileSync(path)] returns for that file. *)
Record SessionFile := mkSessionFile {
  sfPath : jsstring;
  sfMtimeMs : Q;
  sfContent : jsstring
}.

Record Snapshot := mkSnapshot { id : value; mtimeMs : Q; path : jsstring }.

Record Options := mkOptions { here : bool; forceNew : bool; verbose : bool }.

(** [findCdxFile] (lines 23-35).  [startDir] is [process.cwd()], already
    absolute, so [path.resolve] leaves it as it is.  The loop ends when
    [path.dirname(dir) === dir], that is at the root. *)
Fixpoint findCdxFile (startDir : Path) (verbose : bool) : M (option Found) :=
  let candidate := pathJoin startDir CDX_FILENAME in
  present <- existsSync (Registry candidate) ;;
  if present then
    logVerbose (MsgFound candidate) verbose ;;;
    ret (Some (mkFound startDir candidate))
  else
    match startDir with
    | [] => ret None
    | _ :: parent => findCdxFile parent verbose
    end.

(** [loadEntries] (lines 37-53); [None] is a [null] or [undefined] path. *)
Definition loadEntries (filePath : option Path) : M (list Entry) :=
  match filePath with
  | None => ret []
  | Some p =>
      present <- existsSync (Registry p) ;;
      if negb present then ret []
      else
        content <- readFileSync (Registry p) ;;
        ret (parseContent content)
  end.

(** [`${v}`], for a value that can be made a string (see [convertible]
    below, which [appendEntry] tests first). *)
Definition toStr (host : Host) (v : value) : jsstring :=
  match v with
  | VStr s => s
  | _ => ToString host v
  end.

Definition hasKey (key : jsstring) (props : list (jsstring * value)) : bool :=
  existsb (fun kv => bool_decide (fst kv = key)) props.

(** Whether [`${v}`] gives a string.  The conversion of an object calls its
    [toString]; an object out of [JSON.parse] that has a key [toString] of
    its own hides the inherited method by a value that cannot be called,
    [valueOf] gives no primitive either, and the conversion throws a
    [TypeError].  An array converts its elements, [null] apart. *)
Fixpoint convertible (v : value) : bool :=
  match v with
  | VObj props => negb (hasKey (js "toString") props)
  | VArr items => forallb convertible items
  | _ => true
  end.

(** [appendEntry] (lines 59-63); the entry is [{ uuid, label }].  The line is
    made first (line 60). *)
Definition appendEntry (host : Host) (filePath : Path) (uuid : value)
    (label : jsstring) (verbose : bool) : M unit :=
  if negb (convertible uuid) then throw TypeError
  else
    let line := toStr host uuid ++ TAB :: label ++ [LF] in
    logVerbose (MsgAppending filePath) verbose ;;;
    appendFileSync filePath line.

(** [writeEntries] (lines 65-74) *)
Definition writeEntries (filePath : Path) (entries : list Entry)
    (verbose : bool) : M unit :=
  match entries with
  | [] =>
      logVerbose (MsgRemovingEmpty filePath) verbose ;;;
      present <- existsSync (Registry filePath) ;;
      if present then unlinkSync filePath else ret tt
  | _ :: _ =>
      logVerbose (MsgWriting (length entries) filePath) verbose ;;;
      writeFileSync filePath (serialize entries)
  end.

(** ** Session discovery *)

(** [name.endsWith(suffix)] *)
Definition endsWith (s suffix : jsstring) : bool :=
  bool_decide (drop (length s - length suffix) s = suffix)
  && (length suffix <=? length s)%nat.

Definition pathSep (host : Host) : N := if win32 host then 92 else 47.

(** [path.join(dir, name)] on path strings, for a directory entry name. *)
Definition joinStr (host : Host) (dir name : jsstring) : jsstring :=
  dir ++ pathSep host :: name.

(** [collectSessionFiles] (lines 76-88), on one entry of a directory:
    [results] with what the entry adds, or the error thrown at an entry
    that cannot be examined. *)
Fixpoint collectSessionFile (host : Host) (dir : jsstring) (entry : dirent)
    (results : list SessionFile) : errno + list SessionFile :=
  match entry with
  | DDir name children =>
      let fullPath := joinStr host dir name in
      (fix each (entries : list dirent) (results : list SessionFile) :=
         match entries with
         | [] => inr results
         | e :: rest =>
             match collectSessionFile host fullPath e results with
             | inr results' => each rest results'
             | inl err => inl err
             end
         end) children results
  | DDenied _ err => inl err
  | DFile name content mtime =>
      if endsWith name (js ".jsonl")
      then inr (results ++ [mkSessionFile (joinStr host dir name) mtime content])
      else inr results
  | DOther _ => inr results
  end.

(** The loop of lines 79-87 over the entries of a directory. *)
Fixpoint collectEntries (host : Host) (dir : jsstring) (entries : list dirent)
    (results : list SessionFile) : errno + list SessionFile :=
  match entries with
  | [] => inr results
  | e :: rest =>
      match collectSessionFile host dir e results with
      | inr results' => collectEntries host dir rest results'
      | inl err => inl err
      end
  end.

(** [fs.readdirSync(SESSIONS_DIR, { withFileTypes: true })] *)
Definition readdirSync : M (list dirent) :=
  emit (EvRead Sessions) ;;;
  fun w =>
    match sessions (fs w) with
    | Some (Listed entries) => (Ok entries, w)
    | Some (Unlisted err) => (Thrown err, w)
    | None => (Thrown ENOENT, w)
    end.

(** [collectSessionFiles(SESSIONS_DIR, results)]: the call on the root, whose
    existence is not known; the directories below it were just listed. *)
Definition collectSessionFiles (host : Host) (results : list SessionFile)
    : M (list SessionFile) :=
  present <- existsSync Sessions ;;
  if negb present then ret results
  else
    entries <- readdirSync ;;
    match collectEntries host (SESSIONS_DIR host) entries results with
    | inr results' => ret results'
    | inl err => throw err
    end.

Definition inRange (lo hi c : N) : bool := (lo <=? c) && (c <=? hi).

(** [[0-9a-f]] under the [i] flag *)
Definition isHex (c : N) : bool :=
  inRange 48 57 c || inRange 97 102 c || inRange 65 70 c.

(** A literal ASCII letter under the [i] flag *)
Definition isLetter (lower : N) (c : N) : bool :=
  (c =? lower) || (c =? lower - 32).

Definition isChar (x : N) (c : N) : bool := c =? x.

(** Matching a string against a sequence of one-character classes. *)
Fixpoint matches (pattern : list (N -> bool)) (s : jsstring) : bool :=
  match pattern, s with
  | [], [] => true
  | p :: ps, c :: cs => p c && matches ps cs
  | _, _ => false
  end.

(** The group [([0-9a-f]{8}-[0-9a-f]{4}-[0-9a-f]{4}-[0-9a-f]{4}-[0-9a-f]{12})] *)
Definition uuidPattern : list (N -> bool) :=
  repeat isHex 8 ++ [isChar 45] ++ repeat isHex 4 ++ [isChar 45]
  ++ repeat isHex 4 ++ [isChar 45] ++ repeat isHex 4 ++ [isChar 45]
  ++ repeat isHex 12.

(** [\.jsonl] under the [i] flag *)
Definition extPattern : list (N -> bool) :=
  [isChar 46; isLetter 106; isLetter 115; isLetter 111; isLetter 110;
   isLetter 108].

(** [extractIdFromFilename] (lines 90-95).  The pattern has a fixed length of
    42 and is anchored at the end, so it can only match the last 42 code
    units. *)
Definition extractIdFromFilename (filePath : jsstring) : option jsstring :=
  let n := length filePath in
  if (n <? 42)%nat then None
  else
    let tail := drop (n - 42) filePath in
    if matches (uuidPattern ++ extPattern) tail then Some (take 36 tail)
    else None.

Definition nullable (o : option jsstring) : value :=
  match o with Some s => VStr s | None => VNull end.

(** [readSessionIdFromFile] (lines 97-109).  Reading the file and parsing its
    first line happen inside the [try]; any failure there leads to the
    file-name fallback. *)
Definition readSessionIdFromFile (host : Host) (file : SessionFile) : M value :=
  emit (EvRead Sessions) ;;;
  let firstLine := hd [] (split LF (sfContent file)) in
  let fallback := nullable (extractIdFromFilename (sfPath file)) in
  match JSON_parse host firstLine with
  | Some record =>
      if truthy record
         && strictEq (getProp record (js "type")) (VStr (js "session_meta"))
         && truthy (match getProp record (js "payload") with
                    | VNull | VUndefined => VUndefined
                    | payload => getProp payload (js "id")
                    end)
      then ret (getProp (getProp record (js "payload")) (js "id"))
      else ret fallback
  | None => ret fallback
  end.

(** [files.sort((a, b) => a.mtimeMs - b.mtimeMs)]: the sort is stable. *)
Fixpoint insertByMtime (x : SessionFile) (sorted : list SessionFile)
    : list SessionFile :=
  match sorted with
  | [] => [x]
  | y :: r =>
      if Qle_bool (sfMtimeMs y) (sfMtimeMs x) then y :: insertByMtime x r
      else x :: sorted
  end.

Definition sortByMtime (files : list SessionFile) : list SessionFile :=
  fold_left (fun sorted x => insertByMtime x sorted) files [].

(** [getLatestSessionSnapshot] (lines 111-120) *)
Definition getLatestSessionSnapshot (host : Host) (verbose : bool)
    : M (option Snapshot) :=
  files <- collectSessionFiles host [] ;;
  match last (sortByMtime files) with
  | None => ret None
  | Some latest =>
      id <- readSessionIdFromFile host latest ;;
      logVerbose (MsgLatestSessionFile (sfPath latest)) verbose ;;;
      ret (Some (mkSnapshot id (sfMtimeMs latest) (sfPath latest)))
  end.

(** The loops of lines 125-132 and 140-149, over the lines from the last to
    the first: [Some sid] when the loop returns [sid], [None] when it runs to
    its end.  [accept] is the extra test of line 143. *)
Fixpoint scanHistory (host : Host) (accept : value -> bool)
    (linesFromEnd : list jsstring) : option value :=
  match linesFromEnd with
  | [] => None
  | line :: earlier =>
      match JSON_parse host line with
      | Some record =>
          if truthy record
             && truthy (getProp record (js "session_id"))
             && accept (getProp record (js "session_id"))
          then Some (getProp record (js "session_id"))
          else scanHistory host accept earlier
      | None => scanHistory host accept earlier
      end
  end.

(** [fs.readFileSync(HISTORY_PATH, "utf8").trim().split("\n")] *)
Definition historyLines (content : jsstring) : list jsstring :=
  split LF (trim content).

(** [getLastHistorySessionId] (lines 122-135) *)
Definition getLastHistorySessionId (host : Host) (verbose : bool) : M value :=
  present <- existsSync History ;;
  if negb present then ret VNull
  else
    content <- readFileSync History ;;
    match scanHistory host (fun _ => true) (rev (historyLines content)) with
    | Some sid => ret sid
    | None => logVerbose MsgNoSessionId verbose ;;; ret VNull
    end.

(** [getNewestHistorySessionIdSince] (lines 137-152) *)
Definition getNewestHistorySessionIdSince (host : Host) (previousId : value)
    (verbose : bool) : M value :=
  present <- existsSync History ;;
  if negb present then ret VNull
  else
    content <- readFileSync History ;;
    match scanHistory host (fun sid => negb (strictEq sid previousId))
            (rev (historyLines content)) with
    | Some sid => ret sid
    | None => logVerbose MsgNoNewSessionId verbose ;;; ret VNull
    end.

(** ** Running the external tool *)

(** [escapePowerShellArg] (lines 18-21) *)
Definition escapePowerShellArg (value : jsstring) : jsstring :=
  match value with
  | [] => js "''"
  | _ => 39 :: flat_map (fun c => if c =? 39 then [39; 39] else [c]) value ++ [39]
  end.

(** The text holds the character U+0000. *)
Definition hasNul (s : jsstring) : bool := existsb (N.eqb 0) s.

(** [spawnSync(cmd, args, { stdio: "inherit", cwd })].  The runtime checks
    the arguments before it starts anything: an argument that holds U+0000
    makes it throw [ERR_INVALID_ARG_VALUE].  (The working directory is
    [process.cwd()] or one of its ancestors and holds none.) *)
Definition spawnSync (host : Host) (cmd : command) (args : list jsstring)
    (cwd : Path) : M SpawnResult :=
  if existsb hasNul args then throw ERR_INVALID_ARG_VALUE
  else
    emit (EvSpawn cmd args cwd) ;;;
    fun w =>
      let (result, f) := spawn host cmd args cwd (fs w) in
      (Ok result, mkWorld f (trace w)).

(** [if (status !== 0) process.exit(status ?? 1)] *)
Definition exitUnlessZero (status : option Z) : M unit :=
  match status with
  | Some 0%Z => ret tt
  | Some code => exit code
  | None => exit 1%Z
  end.

Definition isENOENT (e : errno) : bool :=
  match e with ENOENT => true | _ => false end.

(** [runCodex] (lines 154-180).  The inner block yields [true] when the
    function returns from the PowerShell branch (line 171). *)
Definition runCodex (host : Host) (args : list jsstring) (cwd : Path)
    (verbose : bool) : M unit :=
  logVerbose (MsgRunning args) verbose ;;;
  result <- spawnSync host Codex args cwd ;;
  match error result with
  | Some err =>
      returned <-
        (if isENOENT err && win32 host then
           logVerbose MsgPowerShellFallback verbose ;;;
           let psArgs :=
             [js "-NoProfile"; js "-Command";
              join (js " ") (js "codex" :: List.map escapePowerShellArg args)] in
           psResult <- spawnSync host PowerShell psArgs cwd ;;
           match error psResult with
           | None => exitUnlessZero (status psResult) ;;; ret true
           | Some _ => ret false
           end
         else ret false) ;;
      if (returned : bool) then ret tt
      else consoleError MsgCodexUnavailable ;;; exit 1%Z
  | None => exitUnlessZero (status result)
  end.

(** ** The flows *)

(** [printSessionList] (lines 182-187) and the listing of lines 313-315 *)
Fixpoint logEntries (index : nat) (entries : list Entry) : M unit :=
  match entries with
  | [] => ret tt
  | e :: rest => consoleLog (MsgListEntry index e) ;;; logEntries (S index) rest
  end.

Definition printSessionList (entries : list Entry) : M unit :=
  consoleLog MsgListNew ;;; logEntries 1 entries.

(** [selectSession] (lines 189-232) *)
Definition selectSession (ui : UI) (entries : list Entry) : M (option Selection) :=
  match entries with
  | [] => ret (Some SelNew)
  | _ :: _ => printSessionList entries ;;; ret (chooseSession ui entries)
  end.

(** [a > b] on modification times *)
Definition Qgtb (a b : Q) : bool :=
  match (b ?= a)%Q with Lt => true | _ => false end.

(** The condition of lines 275-281, once [latestSession] is known to exist. *)
Definition isNewSession (latestSession : Snapshot)
    (previousSession : option Snapshot) : bool :=
  truthy (id latestSession)
  && match previousSession with
     | None => true
     | Some previous =>
         negb (bool_decide (path latestSession = path previous))
         || Qgtb (mtimeMs latestSession) (mtimeMs previous)
     end.

(** Reconciliation: lines 274-285 of [runDefault], the value of [newId]. *)
Definition reconcile (host : Host) (previousHistoryId : value)
    (previousSession latestSession : option Snapshot) (verbose : bool)
    : M value :=
  let otherwise :=
    if truthy previousHistoryId
    then getNewestHistorySessionIdSince host previousHistoryId verbose
    else ret VNull in
  match latestSession with
  | Some latest =>
      if isNewSession latest previousSession then ret (id latest) else otherwise
  | None => otherwise
  end.

(** Lines 255-258 of [runDefault]: the working directory, the registry path
    and the entries. *)
Definition resolveRegistry (startDir : Path) (options : Options)
    : M (Path * Path * list Entry) :=
  found <- (if here options then ret None
            else findCdxFile startDir (verbose options)) ;;
  let workDir := match found with Some f => dir f | None => startDir end in
  let cdxPath :=
    match found with
    | Some f => filePath f
    | None => pathJoin startDir CDX_FILENAME
    end in
  entries <- loadEntries (option_map filePath found) ;;
  ret (workDir, cdxPath, entries).

(** Lines 267-291 of [runDefault]: the new-session flow. *)
Definition newSession (host : Host) (ui : UI) (workDir cdxPath : Path)
    (verbose : bool) : M unit :=
  match promptLabel ui with
  | None => ret tt
  | Some labelInput =>
      if negb (nonEmpty labelInput) then ret tt
      else
        let label := sanitizeLabel labelInput in
        previousHistoryId <- getLastHistorySessionId host verbose ;;
        previousSession <- getLatestSessionSnapshot host verbose ;;
        runCodex host [] workDir verbose ;;;
        latestSession <- getLatestSessionSnapshot host verbose ;;
        newId <- reconcile host previousHistoryId previousSession latestSession
                   verbose ;;
        if negb (truthy newId) then consoleError MsgCouldNotDetermine
        else appendEntry host cdxPath newId label verbose
  end.

(** [runDefault] (lines 254-297) *)
Definition runDefault (host : Host) (ui : UI) (startDir : Path)
    (options : Options) : M unit :=
  resolved <- resolveRegistry startDir options ;;
  let '(workDir, cdxPath, entries) := resolved in
  consoleLog (MsgCdxPath cdxPath) ;;;
  selection <- (if forceNew options then ret (Some SelNew)
                else selectSession ui entries) ;;
  match selection with
  | None => ret tt
  | Some SelNew => newSession host ui workDir cdxPath (verbose options)
  | Some (SelResume entry) =>
      runCodex host [js "resume"; uuid entry] workDir (verbose options)
  end.

(** [runRemove] (lines 299-356) *)
Definition runRemove (ui : UI) (startDir : Path) (verbose : bool) : M unit :=
  found <- findCdxFile startDir verbose ;;
  match found with
  | None => consoleLog MsgNoCdxFile
  | Some f =>
      let targetPath := filePath f in
      entries <- loadEntries (Some targetPath) ;;
      match entries with
      | [] => consoleLog MsgNoSessions
      | _ :: _ =>
          consoleLog (MsgCdxPath targetPath) ;;;
          logEntries 1 entries ;;;
          match chooseRemoval ui entries with
          | None => ret tt
          | Some selectedUuid =>
              let remaining :=
                List.filter
                  (fun entry => negb (bool_decide (uuid entry = selectedUuid)))
                  entries in
              writeEntries targetPath remaining verbose
          end
      end
  end.

(** ** Definitions used in the statements *)

(** No leading white space. *)
Definition headOk (s : jsstring) : Prop :=
  match s with [] => True | c :: _ => isWhiteSpace c = false end.

(** A line of the registry text is valid, and stands for the entry [e], when
    the trimmed line has a tab and both the text before its first tab and the
    text after it are non-empty once trimmed. *)
Inductive ValidLine (line : jsstring) (e : Entry) : Prop :=
| ValidLine_intro (before after : jsstring) :
    trim line = before ++ TAB :: after ->
    ~ In TAB before ->
    trim before <> [] ->
    trim after <> [] ->
    e = mkEntry (trim before) (trim after) ->
    ValidLine line e.

(** A malformed line stands for no entry: it has no tab, or its id or its
    label is empty once trimmed. *)
Definition Malformed (line : jsstring) : Prop := forall e, ~ ValidLine line e.

(** The valid subset of a sequence of lines, in their order: the entry of
    each valid line, and nothing for a malformed one. *)
Inductive ValidSubset : list jsstring -> list Entry -> Prop :=
| ValidSubset_nil : ValidSubset [] []
| ValidSubset_valid line e lines entries :
    ValidLine line e ->
    ValidSubset lines entries ->
    ValidSubset (line :: lines) (e :: entries)
| ValidSubset_dropped line lines entries :
    Malformed line ->
    ValidSubset lines entries ->
    ValidSubset (line :: lines) entries.

(** The registry text of a sequence of entries, as the specification
    describes the file: one line per entry, in order, made of the id, one
    tab, the label and a line feed. *)
Fixpoint registryText (entries : list Entry) : jsstring :=
  match entries with
  | [] => []
  | e :: rest => uuid e ++ [TAB] ++ label e ++ [LF] ++ registryText rest
  end.

(** The entries that remain when the ones with the id [selected] are
    removed, in their order. *)
Fixpoint remainingAfter (selected : jsstring) (entries : list Entry)
    : list Entry :=
  match entries with
  | [] => []
  | e :: rest =>
      if decide (uuid e = selected) then remainingAfter selected rest
      else e :: remainingAfter selected rest
  end.

Definition tabNewlineFree (s : jsstring) : Prop := ~ In TAB s /\ ~ In LF s.

(** The entries of the round-trip property as the claim words it: ids and
    labels free of tabs and newlines. *)
Definition plainEntry (e : Entry) : Prop :=
  tabNewlineFree (uuid e) /\ tabNewlineFree (label e).

(** A string that [trim] leaves as it is and that is not empty. *)
Definition trimmedNonEmpty (s : jsstring) : Prop := s <> [] /\ trim s = s.

(** The entries that do round-trip: plain, with a non-empty id and label that
    carry no leading or trailing white space. *)
Definition storableEntry (e : Entry) : Prop :=
  plainEntry e /\ trimmedNonEmpty (uuid e) /\ trimmedNonEmpty (label e).

(** What [logVerbose] prints. *)
Definition verboseLog (m : message) (verbose : bool) : list event :=
  if verbose then [EvLog m] else [].

(** The directory [d] holds a registry file. *)
Definition hasRegistry (f : FS) (d : Path) : Prop :=
  is_Some (registry f !! pathJoin d CDX_FILENAME).

Instance hasRegistry_dec f d : Decision (hasRegistry f d).
Proof. unfold hasRegistry. apply _. Defined.

(** The directory reached from [d] by [k] moves to the parent. *)
Definition ancestor (k : nat) (d : Path) : Path := Nat.iter k dirname d.

(** The existence test of the registry file of the [k]-th ancestor. *)
Definition checkOf (d : Path) (k : nat) : event :=
  EvExists (Registry (pathJoin (ancestor k d) CDX_FILENAME)).

(** The path names no file: it is [null] or [undefined], or nothing exists
    under it. *)
Definition missingFile (filePath : option Path) (f : FS) : Prop :=
  match filePath with
  | None => True
  | Some p => registry f !! p = None
  end.

(** The listing printed by [logEntries]. *)
Fixpoint entryListing (index : nat) (entries : list Entry) : list event :=
  match entries with
  | [] => []
  | e :: rest => EvLog (MsgListEntry index e) :: entryListing (S index) rest
  end.

(** The events that change the registry. *)
Definition isMutation (e : event) : bool :=
  match e with
  | EvAppend _ _ | EvWrite _ _ | EvUnlink _ => true
  | _ => false
  end.

Definition mutations (t : list event) : list event := List.filter isMutation t.

(** A step that leaves the file system as it is and writes nothing. *)
Definition quiet (w w' : World) : Prop :=
  fs w' = fs w /\ mutations (trace w') = mutations (trace w).

(** A step that writes nothing itself (the file system may change under it,
    through the external tool). *)
Definition silent (w w' : World) : Prop :=
  mutations (trace w') = mutations (trace w).

(** Every run of [m] relates the world before to the world after by [R]. *)
Definition preserves {A} (R : World -> World -> Prop) (m : M A) : Prop :=
  forall w, R w (snd (m w)).

(** The session id a line of the history log carries, if any. *)
Definition carriedSessionId (host : Host) (line : jsstring) : option value :=
  match JSON_parse host line with
  | Some record =>
      if truthy record && truthy (getProp record (js "session_id"))
      then Some (getProp record (js "session_id"))
      else None
  | None => None
  end.

(** The history scan in the words of the specification: going through the
    lines from the end backward, the first session id met that differs from
    [previousId]. *)
Definition firstNewHistoryIdSince (host : Host) (previousId : value)
    (lines : list jsstring) : option value :=
  List.find (fun sid => negb (strictEq sid previousId))
    (filterBoolean (List.map (carriedSessionId host) (rev lines))).

(** The primary signal: the snapshot taken after the run has an id and is new
    with respect to the snapshot taken before, if there was one. *)
Definition primarySignal (previousSession : option Snapshot) (after : Snapshot)
    : Prop :=
  id after <> VNull /\
  match previousSession with
  | None => True
  | Some previous =>
      path after <> path previous \/ (mtimeMs previous < mtimeMs after)%Q
  end.

(** The primary signal is inconclusive: no snapshot after the run, or one
    without id, or one with the path of the previous snapshot and a time that
    is not strictly greater. *)
Definition inconclusive (previousSession latestSession : option Snapshot)
    : Prop :=
  match latestSession with
  | None => True
  | Some after =>
      id after = VNull \/
      match previousSession with
      | None => False
      | Some previous =>
          path after = path previous /\
          ~ (mtimeMs previous < mtimeMs after)%Q
      end
  end.

(** [status ?? 1] *)
Definition exitCode (status : option Z) : Z :=
  match status with Some code => code | None => 1%Z end.

(** A stand-in for [JSON.parse] in the examples: a line [S<id>] is a history
    record with that [session_id], a line [M<id>] is a session-metadata
    record with that [payload.id], any other line is malformed. *)
Definition sampleParse (line : jsstring) : option value :=
  match line with
  | 83 :: sid => Some (VObj [(js "session_id", VStr sid)])
  | 77 :: sid =>
      Some (VObj [(js "type", VStr (js "session_meta"));
                  (js "payload", VObj [(js "id", VStr sid)])])
  | _ => None
  end.

(** A host for the examples: the external tool ends with [status] and leaves
    the file system as [after] says. *)
Definition sampleHost (status : option Z) (after : FS -> FS) : Host :=
  mkHost sampleParse (fun _ => js "?") false (js "/home/u/.codex/sessions")
    (fun _ _ _ f => (mkSpawnResult None status, after f)).

(** The sessions tree of the examples before the run: one session file. *)
Definition sampleSessionsBefore : listing :=
  Listed [DDir (js "2025") [DFile (js "rollout-old.jsonl") (js "Mold-1") 10%Q]].

(** After the run: a second, newer file whose first line is a metadata
    record with the id [abc-123]. *)
Definition sampleSessionsAfter : listing :=
  Listed
    [DDir (js "2025")
       [DFile (js "rollout-old.jsonl") (js "Mold-1") 10%Q;
        DFile (js "rollout-new.jsonl") (js "Mabc-123" ++ LF :: js "more") 20%Q]].

(** The history log of the examples before and after the run. *)
Definition sampleHistoryBefore : jsstring :=
  join [LF] [js "Sh0"; js "Sh1"] ++ [LF].

Definition sampleHistoryAfter : jsstring :=
  join [LF] [js "Sh0"; js "Sh1"; js "Sh2"; js "not a record"; js "Sh1"] ++ [LF].

Definition sampleOldSnapshot : Snapshot :=
  mkSnapshot (VStr (js "old-1")) 10%Q
    (js "/home/u/.codex/sessions/2025/rollout-old.jsonl").

Definition sampleNewSnapshot : Snapshot :=
  mkSnapshot (VStr (js "abc-123")) 20%Q
    (js "/home/u/.codex/sessions/2025/rollout-new.jsonl").

(** ** The remaining commands: [runInit], [runAdd] and [main] *)

(** The lines that [runInit], [runAdd] and [main] print and that [message]
    has no constructor for: the help text of [printHelp], the version line of
    [printVersion] (read from the [package.json] of the installation), the
    usage of [printAddHelp], and the two lines of [runInit].  A function
    that prints some of them returns them, in the order printed. *)
Inductive notice :=
| NoteUsage
| NoteVersion
| NoteAddUsage
| NoteAlreadyExists
| NoteCreated (cdxPath : Path).

(** [runInit] (lines 365-373) *)
Definition runInit (startDir : Path) (verbose : bool) : M (list notice) :=
  let cdxPath := pathJoin startDir CDX_FILENAME in
  present <- existsSync (Registry cdxPath) ;;
  if present then ret [NoteAlreadyExists]
  else
    writeFileSync cdxPath [] ;;;
    ret (if verbose then [NoteCreated cdxPath] else []).

(** Truthiness of [args[i]] and of the answer to a text prompt: [undefined]
    and the empty string are falsy. *)
Definition given (text : option jsstring) : bool :=
  match text with
  | Some (_ :: _) => true
  | _ => false
  end.

(** [runAdd] (lines 375-397).  [args] is the whole argument list, [add]
    first; [uuidInput] is the answer to [promptUuid], asked for only when
    [args[1]] is falsy, as [promptLabel] is only when [args[2]] is. *)
Definition runAdd (host : Host) (ui : UI) (uuidInput : option jsstring)
    (startDir : Path) (args : list jsstring) (verbose : bool)
    : M (list notice) :=
  if (3 <? length args)%nat
     || ((length args =? 2)%nat && bool_decide (args !! 1%nat = Some []))
  then ret [NoteAddUsage]
  else
    found <- findCdxFile startDir verbose ;;
    let cdxPath :=
      match found with
      | Some f => filePath f
      | None => pathJoin startDir CDX_FILENAME
      end in
    let uuid := if given (args !! 1%nat) then args !! 1%nat else uuidInput in
    if negb (given uuid) then ret []
    else
      let label :=
        if given (args !! 2%nat) then args !! 2%nat else promptLabel ui in
      if negb (given label) then ret []
      else
        appendEntry host cdxPath (VStr (trim (default [] uuid)))
          (sanitizeLabel (default [] label)) verbose ;;;
        ret [].

(** [args.includes(word)] *)
Definition includes (args : list jsstring) (word : string) : bool :=
  existsb (fun a => bool_decide (a = js word)) args.

(** [subcommand === word] *)
Definition isWord (subcommand : option jsstring) (word : string) : bool :=
  bool_decide (subcommand = Some (js word)).

(** [main] (lines 436-484); [args] is [process.argv.slice(2)] and [startDir]
    is [process.cwd()]. *)
Definition main (host : Host) (ui : UI) (uuidInput : option jsstring)
    (startDir : Path) (args : list jsstring) : M (list notice) :=
  let subcommand := args !! 0%nat in
  let here := includes args "here" in
  let wantsHelp :=
    includes args "-h" || includes args "--help" || includes args "help" in
  let wantsVersion := includes args "-V" || includes args "--version" in
  let verbose := includes args "-v" || includes args "--verbose" in
  if wantsHelp then ret [NoteUsage]
  else if wantsVersion then ret [NoteVersion]
  else if isWord subcommand "rm" then
    runRemove ui startDir verbose ;;; ret []
  else if isWord subcommand "add" then
    runAdd host ui uuidInput startDir args verbose
  else if isWord subcommand "init" then
    runInit startDir verbose
  else if isWord subcommand "new" || (here && includes args "new") then
    runDefault host ui startDir (mkOptions here true verbose) ;;; ret []
  else if isWord subcommand "here" || here then
    runDefault host ui startDir (mkOptions true false verbose) ;;; ret []
  else
    runDefault host ui startDir (mkOptions false false verbose) ;;; ret [].

(** ** Further definitions used in the statements *)

(** The entries that [loadEntries] can return: an id without tab, no line
    feed in either field, both fields non-empty and without leading or
    trailing white space. *)
Definition loadableEntry (e : Entry) : Prop :=
  ~ In TAB (uuid e) /\ ~ In LF (uuid e) /\ ~ In LF (label e) /\
  trimmedNonEmpty (uuid e) /\ trimmedNonEmpty (label e).

(** A registry text to which a line can be appended: empty, or ended by a
    line feed. *)
Definition endsWithNewline (content : jsstring) : Prop :=
  content = [] \/ exists c, content = c ++ [LF].

(** A label that [sanitizeLabel] has nothing to do on: no tab, line feed or
    carriage return, no leading or trailing white space. *)
Definition cleanLabel (s : jsstring) : Prop :=
  (forall c, In c s -> isTabNlCr c = false) /\ trim s = s.

(** The entries of the registry file under [p]; none when there is no file. *)
Definition entriesAt (f : FS) (p : Path) : list Entry :=
  match registry f !! p with
  | Some (File content) => parseContent content
  | _ => []
  end.

(** A line can be appended under [p]: nothing is there, or a file whose text
    is empty or ends with a line feed. *)
Definition appendable (f : FS) (p : Path) : Prop :=
  match registry f !! p with
  | Some (File content) => endsWithNewline content
  | Some Directory => False
  | None => True
  end.

(** [entries.filter((entry) => entry.uuid !== selectedUuid)] *)
Definition without (selectedUuid : jsstring) (entries : list Entry) : list Entry :=
  List.filter (fun entry => negb (bool_decide (uuid entry = selectedUuid))) entries.

(** [runRemove] has nothing to remove: no registry up to the root, or a
    registry without any valid entry, or a user who picks nothing. *)
Definition nothingToRemove (ui : UI) (startDir : Path) (verbose : bool)
    (w : World) : Prop :=
  fst (findCdxFile startDir verbose w) = Ok None \/
  exists found content,
    fst (findCdxFile startDir verbose w) = Ok (Some found) /\
    registry (fs w) !! filePath found = Some (File content) /\
    (parseContent content = [] \/
     chooseRemoval ui (parseContent content) = None).

(** The nearest directory, from [d] up to the root, that holds a registry
    file, with the path of that file. *)
Fixpoint nearestRegistry (f : FS) (d : Path) : option Found :=
  if decide (hasRegistry f d) then Some (mkFound d (pathJoin d CDX_FILENAME))
  else
    match d with
    | [] => None
    | _ :: parent => nearestRegistry f parent
    end.

(** The registry path a command works on: the file of the nearest registry,
    or the path in the starting directory when there is none. *)
Definition registryPath (f : FS) (startDir : Path) : Path :=
  match nearestRegistry f startDir with
  | Some found => filePath found
  | None => pathJoin startDir CDX_FILENAME
  end.

(** The text under a path, empty when there is no file. *)
Definition textAt (f : FS) (p : Path) : jsstring :=
  match registry f !! p with
  | Some (File content) => content
  | _ => []
  end.

(** The condition of line 376: [runAdd] prints its usage. *)
Definition addUsageError (args : list jsstring) : Prop :=
  (3 < length args)%nat \/ (length args = 2%nat /\ args !! 1%nat = Some []).

(** The uuid and the label [runAdd] works with: the argument when it is
    truthy, otherwise the answer to the prompt. *)
Definition addUuid (uuidInput : option jsstring) (args : list jsstring)
    : option jsstring :=
  if given (args !! 1%nat) then args !! 1%nat else uuidInput.

Definition addLabel (ui : UI) (args : list jsstring) : option jsstring :=
  if given (args !! 2%nat) then args !! 2%nat else promptLabel ui.

(** Registry files only grow from [f] to [f']: a file of [f] is still a file
    in [f'] and its text of [f] is the beginning of its text in [f']. *)
Definition grows (f f' : FS) : Prop :=
  forall p content,
    registry f !! p = Some (File content) ->
    exists more, registry f' !! p = Some (File (content ++ more)).

Definition growsW (w w' : World) : Prop := grows (fs w) (fs w').

(** The external programs leave the registry files at least as they are. *)
Definition toolKeepsRegistry (host : Host) : Prop :=
  forall cmd args cwd f, grows f (snd (spawn host cmd args cwd f)).

(** The arguments passed to [powershell.exe] by [runCodex] (lines 160-164). *)
Definition powerShellArgs (args : list jsstring) : list jsstring :=
  [js "-NoProfile"; js "-Command";
   join (js " ") (js "codex" :: List.map escapePowerShellArg args)].

(** From [w] to [w'] the registry was changed at most once, by appending
    under [p] one line made of a truthy identifier, a tab, [label] and a
    line feed. *)
Definition appendsAtMost (host : Host) (p : Path) (label : jsstring)
    (w w' : World) : Prop :=
  silent w w' \/
  exists newId,
    truthy newId = true /\
    mutations (trace w')
    = mutations (trace w)
      ++ [EvAppend p (toStr host newId ++ TAB :: label ++ [LF])].

(** The registry path of [runDefault] (line 257). *)
Definition defaultRegistryPath (options : Options) (f : FS) (startDir : Path)
    : Path :=
  if here options then pathJoin startDir CDX_FILENAME
  else registryPath f startDir.

(** The directory [runDefault] runs the tool in (line 256). *)
Definition defaultWorkDir (options : Options) (f : FS) (startDir : Path)
    : Path :=
  if here options then startDir
  else match nearestRegistry f startDir with
       | Some found => dir found
       | None => startDir
       end.

(** The replacement of line 20: every apostrophe is doubled. *)
Abbreviation doubled :=
  (flat_map (fun c : N => if c =? 39 then [39; 39] else [c])).

(** The characters PowerShell takes for a single quote: the apostrophe
    U+0027 and the typographic quotes U+2018, U+2019, U+201A and U+201B. *)
Definition isSingleQuote (c : N) : bool :=
  (c =? 39) || ((8216 <=? c) && (c <=? 8219)).

(** The typographic ones, which [escapePowerShellArg] does not double. *)
Definition isTypographicQuote (c : N) : bool := (8216 <=? c) && (c <=? 8219).

(** Reading a text back as one single-quoted PowerShell string: the string
    begins at a single quote and ends at the next single quote that is not
    followed by another one; two single quotes in a row stand for the second
    of them.  [None] when the text is not exactly one such string. *)
Fixpoint unquoteBody (s : jsstring) : option jsstring :=
  match s with
  | [] => None
  | c :: r =>
      if isSingleQuote c then
        match r with
        | [] => Some []
        | c' :: r' =>
            if isSingleQuote c' then option_map (cons c') (unquoteBody r')
            else None
        end
      else option_map (cons c) (unquoteBody r)
  end.

Definition unquote (s : jsstring) : option jsstring :=
  match s with
  | c :: body => if isSingleQuote c then unquoteBody body else None
  | [] => None
  end.

(** The session files under one entry of the directory [dir], in the order
    of the tree: the entry itself when it is a regular file whose name ends
    with [.jsonl], the session files under its entries when it is a
    directory. *)
Fixpoint filesUnder (host : Host) (dir : jsstring) (entry : dirent)
    : list SessionFile :=
  match entry with
  | DFile name content mtime =>
      if endsWith name (js ".jsonl")
      then [mkSessionFile (joinStr host dir name) mtime content]
      else []
  | DDir name children =>
      flat_map (filesUnder host (joinStr host dir name)) children
  | DOther _ | DDenied _ _ => []
  end.

(** The session files of the sessions tree, in the order of the tree; none
    when there is no sessions directory. *)
Definition sessionFiles (host : Host) (f : FS) : list SessionFile :=
  match sessions f with
  | Some (Listed entries) => flat_map (filesUnder host (SESSIONS_DIR host)) entries
  | _ => []
  end.

(** The traversal throws at no entry under this one. *)
Fixpoint walkableEntry (entry : dirent) : bool :=
  match entry with
  | DDir _ children => forallb walkableEntry children
  | DDenied _ _ => false
  | DFile _ _ _ | DOther _ => true
  end.

(** The sessions tree can be walked: there is no sessions directory, or it
    can be listed and the traversal throws at no entry below it. *)
Definition walkable (f : FS) : Prop :=
  match sessions f with
  | None => True
  | Some (Listed entries) => forallb walkableEntry entries = true
  | Some (Unlisted _) => False
  end.

(** The entry [entry] of the directory [dir] holds the session file [sf]: it
    is a regular file whose name ends with [.jsonl], or a directory one of
    whose entries holds it. *)
Inductive Holds (host : Host) : jsstring -> dirent -> SessionFile -> Prop :=
| Holds_file dir name content mtime :
    endsWith name (js ".jsonl") = true ->
    Holds host dir (DFile name content mtime)
      (mkSessionFile (joinStr host dir name) mtime content)
| Holds_dir dir name children child sf :
    In child children ->
    Holds host (joinStr host dir name) child sf ->
    Holds host dir (DDir name children) sf.

(** The snapshot [s] is the one of the most recently modified file of
    [files]; of several files with that time, the one met last. *)
Definition latestAmong (files : list SessionFile) (s : Snapshot) : Prop :=
  exists pre f post,
    files = pre ++ f :: post /\
    path s = sfPath f /\ mtimeMs s = sfMtimeMs f /\
    (forall g, In g pre -> (sfMtimeMs g <= sfMtimeMs f)%Q) /\
    (forall g, In g post -> (sfMtimeMs g < sfMtimeMs f)%Q).

(** Keeping the later of two files, the second on equal times. *)
Definition pickLater (best : option SessionFile) (x : SessionFile)
    : option SessionFile :=
  match best with
  | None => Some x
  | Some b => if Qle_bool (sfMtimeMs b) (sfMtimeMs x) then Some x else Some b
  end.

(** A list of session files is dominated by its last element: no file of the
    list is later than it. *)
Definition dominated (l : list SessionFile) : Prop :=
  forall z, last l = Some z ->
  forall y, In y l -> (sfMtimeMs y <= sfMtimeMs z)%Q.

(** The session ids the lines of a history text carry, the last line first. *)
Definition idsFromEnd (host : Host) (content : jsstring) : list value :=
  filterBoolean (List.map (carriedSessionId host) (rev (historyLines content))).

(** Induction on a directory entry, with the hypothesis for every entry of a
    directory. *)
Fixpoint dirent_nested_ind (P : dirent -> Prop)
    (Hfile : forall name content mtime, P (DFile name content mtime))
    (Hdir : forall name children, Forall P children -> P (DDir name children))
    (Hother : forall name, P (DOther name))
    (Hdenied : forall name e, P (DDenied name e))
    (entry : dirent) : P entry :=
  match entry with
  | DFile name content mtime => Hfile name content mtime
  | DDir name children =>
      Hdir name children
        ((fix each (l : list dirent) : Forall P l :=
            match l with
            | [] => @List.Forall_nil dirent P
            | x :: r =>
                @List.Forall_cons dirent P x r
                  (dirent_nested_ind P Hfile Hdir Hother Hdenied x) (each r)
            end) children)
  | DOther name => Hother name
  | DDenied name e => Hdenied name e
  end.

(** ** The validation of the prompts and the choice by number *)

(** What a [validate] callback answers: [true], or the message shown to the
    user, who is then asked again. *)
Inductive validation :=
| Accepted
| LabelIsRequired
| EnterANumber
| OutOfRange.

(** The [validate] callback of [promptLabel] (line 239):
    [value && value.trim() ? true : "Label is required"]. *)
Definition validateLabel (value : jsstring) : validation :=
  if nonEmpty value && nonEmpty (trim value) then Accepted
  else LabelIsRequired.

(** The class [\d] of a regular expression without the unicode flag. *)
Definition isDigit (c : N) : bool := inRange 48 57 c.

(** [/^\d+$/.test(s)] *)
Definition isNumber (s : jsstring) : bool := nonEmpty s && forallb isDigit s.

(** The longest prefix of decimal digits. *)
Fixpoint takeDigits (s : jsstring) : jsstring :=
  match s with
  | [] => []
  | c :: r => if isDigit c then c :: takeDigits r else []
  end.

(** The integer that a sequence of decimal digits denotes. *)
Definition digitsValue (s : jsstring) : Z :=
  fold_left (fun n c => (10 * n + Z.of_N (c - 48))%Z) s 0%Z.

(** [Number.parseInt(s, 10)]: leading white space is skipped, then a sign,
    then the longest prefix of digits is read; [None] stands for [NaN], the
    result when there is no digit.  The value is kept exact, where
    JavaScript rounds it to a double: the rounding leaves every integer
    below 2^53 as it is and no integer above below it, so the comparisons
    with a number of entries come out the same.  Minus zero is zero. *)
Definition parseInt (s : jsstring) : option Z :=
  let s := trimStart s in
  let '(sign, rest) :=
    match s with
    | 45 :: r => ((-1)%Z, r)
    | 43 :: r => (1%Z, r)
    | _ => (1%Z, s)
    end in
  let digits := takeDigits rest in
  if nonEmpty digits then Some (sign * digitsValue digits)%Z else None.

(** [entries[index]] for an integer index: [undefined] ([None]) outside the
    array. *)
Definition at_index {A : Type} (l : list A) (index : Z) : option A :=
  if (index <? 0)%Z then None else l !! Z.to_nat index.

(** The [validate] callback of the number prompt of [selectSession]
    (lines 200-206).  A comparison with [NaN] is false. *)
Definition validateSelection (entries : list Entry) (value : jsstring)
    : validation :=
  if negb (nonEmpty value) || negb (nonEmpty (trim value)) then Accepted
  else if negb (isNumber (trim value)) then EnterANumber
  else
    match parseInt (trim value) with
    | Some index =>
        if (index <? 0)%Z || (Z.of_nat (length entries) <? index)%Z
        then OutOfRange else Accepted
    | None => Accepted
    end.

(** What [selectSession] does with the answer to the number prompt
    (lines 209-213): it goes on with the list prompt ([break]), or returns
    the new-session selection, or the selection that resumes
    [entries[index - 1]], which is [undefined] ([None]) outside the array. *)
Inductive NumberPick :=
| ListSelection
| PickNew
| PickResume (entry : option Entry).

Definition selectByNumber (entries : list Entry) (value : option jsstring)
    : NumberPick :=
  match value with
  | None => ListSelection
  | Some [] => ListSelection
  | Some ((_ :: _) as text) =>
      match parseInt (trim text) with
      | None => ListSelection
      | Some index =>
          if (index =? 0)%Z then PickNew
          else PickResume (at_index entries (index - 1))
      end
  end.

(** The [validate] callback of the number prompt of [runRemove]
    (lines 321-327): as above, with 1 as the lowest number. *)
Definition validateRemoval (entries : list Entry) (value : jsstring)
    : validation :=
  if negb (nonEmpty value) || negb (nonEmpty (trim value)) then Accepted
  else if negb (isNumber (trim value)) then EnterANumber
  else
    match parseInt (trim value) with
    | Some index =>
        if (index <? 1)%Z || (Z.of_nat (length entries) <? index)%Z
        then OutOfRange else Accepted
    | None => Accepted
    end.

(** What [runRemove] does with the answer to the number prompt
    (lines 330-335): [selectedUuid] stays [null] ([Some None]), or becomes
    [entries[index - 1].uuid]; reading [uuid] of [undefined] throws a
    [TypeError] ([None]). *)
Definition removeByNumber (entries : list Entry) (value : option jsstring)
    : option (option jsstring) :=
  match value with
  | None => Some None
  | Some [] => Some None
  | Some ((_ :: _) as text) =>
      match parseInt (trim text) with
      | None => Some None
      | Some index =>
          match at_index entries (index - 1) with
          | Some entry => Some (Some (uuid entry))
          | None => None
          end
      end
  end.

(** All characters of the text are white space. *)
Definition blank (s : jsstring) : Prop := forallb isWhiteSpace s = true.

(** An id that [loadEntries] reads back as it is: no tab, no line feed, not
    empty and without leading or trailing white space. *)
Definition loadableId (s : jsstring) : Prop :=
  ~ In TAB s /\ ~ In LF s /\ trimmedNonEmpty s.

(** ** Well-formed text *)

Definition isHighSurrogate (c : N) : bool := inRange 55296 56319 c.
Definition isLowSurrogate (c : N) : bool := inRange 56320 57343 c.

(** [s.isWellFormed()]: every surrogate of the text is one of a pair, a high
    one followed by a low one.  Such a text is written to a file and read
    back unchanged; an unpaired surrogate is written as U+FFFD. *)
Fixpoint isWellFormed (s : jsstring) : bool :=
  match s with
  | [] => true
  | c :: r =>
      if isHighSurrogate c then
        match r with
        | d :: r' => isLowSurrogate d && isWellFormed r'
        | [] => false
        end
      else negb (isLowSurrogate c) && isWellFormed r
  end.

Definition wellFormed (s : jsstring) : Prop := isWellFormed s = true.

(** [s.toWellFormed()], what comes back when the text is written to a file
    as [utf8] and read again: every unpaired surrogate has become U+FFFD. *)
Fixpoint toWellFormed (s : jsstring) : jsstring :=
  match s with
  | [] => []
  | c :: r =>
      if isHighSurrogate c then
        match r with
        | d :: r' =>
            if isLowSurrogate d then c :: d :: toWellFormed r'
            else 65533 :: toWellFormed r
        | [] => [65533]
        end
      else if isLowSurrogate c then 65533 :: toWellFormed r
      else c :: toWellFormed r
  end.

(** No argument holds the character U+0000. *)
Definition nulFree (args : list jsstring) : Prop := existsb hasNul args = false.

(** * Properties *)

(** ** Strings *)

Lemma trimStart_fix s : headOk s -> trimStart s = s.
Proof. destruct s as [|c r]; simpl; [done|]. by intros ->. Qed.

Lemma trimStart_headOk s : headOk (trimStart s).
Proof.
  induction s as [|c r IH]; simpl; [done|].
  destruct (isWhiteSpace c) eqn:E; [done|]. simpl. exact E.
Qed.

Lemma trimStart_decomp s :
  exists p, s = p ++ trimStart s /\ Forall (fun c => isWhiteSpace c = true) p.
Proof.
  induction s as [|c r (p & Hp & Hws)]; simpl.
  - by exists [].
  - destruct (isWhiteSpace c) eqn:E.
    + exists (c :: p). split; [simpl; congruence | by constructor].
    + by exists [].
Qed.

Lemma trimEnd_decomp s :
  exists q, s = trimEnd s ++ q /\ Forall (fun c => isWhiteSpace c = true) q.
Proof.
  destruct (trimStart_decomp (rev s)) as (p & Hp & Hws).
  exists (rev p). split.
  - unfold trimEnd. rewrite <- rev_app_distr, <- Hp. by rewrite rev_involutive.
  - apply Forall_forall. intros c Hc. rewrite Forall_forall in Hws.
    apply Hws. by apply list_elem_of_In, in_rev, list_elem_of_In.
Qed.

Lemma trimEnd_fix s : headOk (rev s) -> trimEnd s = s.
Proof.
  intros H. unfold trimEnd. rewrite trimStart_fix by done. apply rev_involutive.
Qed.

Lemma trimEnd_lastOk s : headOk (rev (trimEnd s)).
Proof. unfold trimEnd. rewrite rev_involutive. apply trimStart_headOk. Qed.

Lemma trimEnd_headOk s : headOk s -> headOk (trimEnd s).
Proof.
  intros H. destruct (trimEnd_decomp s) as (q & Hq & _).
  destruct (trimEnd s) as [|c r] eqn:E; [done|].
  rewrite Hq in H. exact H.
Qed.

Lemma trim_headOk s : headOk (trim s).
Proof. apply trimEnd_headOk, trimStart_headOk. Qed.

Lemma trim_lastOk s : headOk (rev (trim s)).
Proof. apply trimEnd_lastOk. Qed.

Lemma trim_fix s : headOk s -> headOk (rev s) -> trim s = s.
Proof.
  intros H1 H2. unfold trim. rewrite trimStart_fix by done. by apply trimEnd_fix.
Qed.

Lemma trim_idempotent s : trim (trim s) = trim s.
Proof. apply trim_fix; [apply trim_headOk | apply trim_lastOk]. Qed.

Lemma trim_decomp s :
  exists p q, s = p ++ trim s ++ q.
Proof.
  destruct (trimStart_decomp s) as (p & Hp & _).
  destruct (trimEnd_decomp (trimStart s)) as (q & Hq & _).
  exists p, q. unfold trim. by rewrite <- Hq.
Qed.

Lemma trim_In c s : In c (trim s) -> In c s.
Proof.
  intros H. destruct (trim_decomp s) as (p & q & E). rewrite E.
  apply in_or_app. right. apply in_or_app. by left.
Qed.

Lemma trim_fixed_ends s : trim s = s -> headOk s /\ headOk (rev s).
Proof. intros <-. split; [apply trim_headOk | apply trim_lastOk]. Qed.

(** *** [replaceRuns] *)

Lemma replaceRuns_clean b s c :
  In c (replaceRuns b s) -> isTabNlCr c = false.
Proof.
  revert b. induction s as [|x r IH]; intros b; simpl; [done|].
  destruct (isTabNlCr x) eqn:E.
  - destruct b; simpl; [apply IH|]. intros [<-|H]; [done | by eapply IH].
  - simpl. intros [<-|H]; [done | by eapply IH].
Qed.

Lemma replaceRuns_id b s :
  (forall c, In c s -> isTabNlCr c = false) -> replaceRuns b s = s.
Proof.
  revert b. induction s as [|x r IH]; intros b H; simpl; [done|].
  rewrite (H x) by (by left). f_equal. apply IH. intros c Hc. apply H. by right.
Qed.

(** ** The registry codec *)

(** C9. Sanitizing a label that is already sanitized changes nothing:
    [sanitizeLabel (sanitizeLabel s) = sanitizeLabel s] for every string [s]. *)
Theorem sanitizeLabel_idempotent (s : jsstring) :
  sanitizeLabel (sanitizeLabel s) = sanitizeLabel s.
Proof.
  unfold sanitizeLabel.
  rewrite (replaceRuns_id false (trim (replaceRuns false s))).
  - apply trim_idempotent.
  - intros c Hc. apply trim_In in Hc. by eapply replaceRuns_clean.
Qed.

Lemma split_app sep x r :
  ~ In sep x -> split sep (x ++ sep :: r) = x :: split sep r.
Proof.
  induction x as [|c x IH]; intros H; simpl.
  - by rewrite N.eqb_refl.
  - destruct (N.eqb_spec c sep) as [->|Hne]; [exfalso; apply H; by left|].
    rewrite IH; [done|]. intros Hin. apply H. by right.
Qed.

Lemma split_no_sep sep x : ~ In sep x -> split sep x = [x].
Proof.
  induction x as [|c x IH]; intros H; simpl; [done|].
  destruct (N.eqb_spec c sep) as [->|Hne]; [exfalso; apply H; by left|].
  rewrite IH; [done|]. intros Hin. apply H. by right.
Qed.

Lemma split_join lines :
  Forall (fun l => ~ In LF l) lines -> lines <> [] ->
  split LF (join [LF] lines) = lines.
Proof.
  induction 1 as [|x r Hx Hr IH]; intros Hne; [done|].
  destruct r as [|y r]; simpl.
  - by apply split_no_sep.
  - rewrite split_app by done. f_equal. by apply IH.
Qed.

Lemma split_join_terminated lines :
  Forall (fun l => ~ In LF l) lines -> lines <> [] ->
  split LF (join [LF] lines ++ [LF]) = lines ++ [[]].
Proof.
  induction 1 as [|x r Hx Hr IH]; intros Hne; [done|].
  destruct r as [|y r].
  - simpl. by rewrite split_app.
  - change (join [LF] (x :: y :: r)) with (x ++ LF :: join [LF] (y :: r)).
    rewrite <- app_assoc. simpl. rewrite split_app by done.
    f_equal. by apply IH.
Qed.

Lemma indexOf_app c u l : ~ In c u -> indexOf c (u ++ c :: l) = Some (length u).
Proof.
  induction u as [|x u IH]; intros H; simpl.
  - by rewrite N.eqb_refl.
  - destruct (N.eqb_spec x c) as [->|Hne]; [exfalso; apply H; by left|].
    rewrite IH; [done|]. intros Hin. apply H. by right.
Qed.

Lemma indexOf_Some c s i :
  indexOf c s = Some i ->
  s = take i s ++ c :: drop (S i) s /\ ~ In c (take i s).
Proof.
  revert i. induction s as [|x s IH]; intros i; simpl; [done|].
  destruct (N.eqb_spec x c) as [->|Hne].
  - intros [= <-]. simpl. split; [by rewrite drop_0 | tauto].
  - destruct (indexOf c s) as [j|] eqn:E; simpl; [|done].
    intros [= <-]. destruct (IH j eq_refl) as [H1 H2]. simpl. split.
    + f_equal. exact H1.
    + intros [?|?]; [done | by apply H2].
Qed.

Lemma indexOf_None c s : indexOf c s = None -> ~ In c s.
Proof.
  induction s as [|x s IH]; simpl; [tauto|].
  destruct (N.eqb_spec x c) as [->|Hne]; [done|].
  destruct (indexOf c s); simpl; [done|].
  intros _ [?|?]; [done | by apply IH].
Qed.

Lemma nonEmpty_true s : nonEmpty s = true <-> s <> [].
Proof. by destruct s. Qed.

Lemma take_app_exact {A} (u : list A) l : take (length u) (u ++ l) = u.
Proof. induction u as [|x u IH]; simpl; [by destruct l | by rewrite IH]. Qed.

Lemma drop_app_next {A} (u : list A) c l :
  drop (S (length u)) (u ++ c :: l) = l.
Proof. induction u as [|x u IH]; simpl; [done | exact IH]. Qed.

(** [parseLine] on a line cut at its first tab. *)
Lemma parseLine_app before after :
  ~ In TAB before ->
  parseLine (before ++ TAB :: after) =
    if negb (nonEmpty (trim before)) || negb (nonEmpty (trim after)) then None
    else Some (mkEntry (trim before) (trim after)).
Proof.
  intros H. unfold parseLine. rewrite indexOf_app by done.
  by rewrite take_app_exact, drop_app_next.
Qed.

(** The entry a trimmed line stands for is the one [parseLine] computes. *)
Lemma parseLine_valid line e :
  parseLine (trim line) = Some e <-> ValidLine line e.
Proof.
  split.
  - unfold parseLine. destruct (indexOf TAB (trim line)) as [i|] eqn:E; [|done].
    destruct (indexOf_Some _ _ _ E) as [Hsplit Hno].
    destruct (nonEmpty (trim (take i (trim line)))) eqn:E1; [|done].
    destruct (nonEmpty (trim (drop (S i) (trim line)))) eqn:E2; [|done].
    simpl. intros [= <-].
    eapply ValidLine_intro; [exact Hsplit | exact Hno | | | done];
      by apply nonEmpty_true.
  - intros [before after Hline Hno Hb Ha ->].
    rewrite Hline, parseLine_app by done.
    apply nonEmpty_true in Hb, Ha. by rewrite Hb, Ha.
Qed.

Lemma parseLine_malformed line :
  parseLine (trim line) = None <-> Malformed line.
Proof.
  split.
  - intros H e Hv. apply parseLine_valid in Hv. congruence.
  - intros H. destruct (parseLine (trim line)) as [e|] eqn:E; [|done].
    exfalso. apply (H e). by apply parseLine_valid.
Qed.

(** The two [filter]s and two [map]s of [loadEntries] keep, for each line,
    what [parseLine] makes of the trimmed line. *)
Lemma parse_lines lines :
  filterBoolean (List.map parseLine (List.filter nonEmpty (List.map trim lines)))
  = filterBoolean (List.map (fun l => parseLine (trim l)) lines).
Proof.
  induction lines as [|l r IH]; simpl; [done|].
  destruct (trim l) as [|c t] eqn:E; simpl.
  - exact IH.
  - by rewrite IH.
Qed.

Ltac notin := intros Hin; simpl in Hin; intuition discriminate.

Lemma parseContent_lines lines :
  Forall (fun l => ~ In LF l) lines ->
  parseContent (join [LF] lines)
  = filterBoolean (List.map (fun l => parseLine (trim l)) lines).
Proof.
  intros Hlf. unfold parseContent. destruct lines as [|l r]; [done|].
  rewrite split_join by done. apply parse_lines.
Qed.

Lemma ValidSubset_parsed lines :
  ValidSubset lines
    (filterBoolean (List.map (fun l => parseLine (trim l)) lines)).
Proof.
  induction lines as [|l r IH]; simpl; [constructor|].
  destruct (parseLine (trim l)) as [e|] eqn:E.
  - constructor; [by apply parseLine_valid | exact IH].
  - constructor; [by apply parseLine_malformed | exact IH].
Qed.

Lemma ValidSubset_unique lines entries :
  ValidSubset lines entries ->
  entries = filterBoolean (List.map (fun l => parseLine (trim l)) lines).
Proof.
  induction 1 as [|line e lines entries Hv _ IH|line lines entries Hm _ IH];
    simpl; [done| |].
  - apply parseLine_valid in Hv. rewrite Hv. by f_equal.
  - apply parseLine_malformed in Hm. by rewrite Hm.
Qed.

(** C5. For every text made of lines (none of which holds a line feed),
    valid or malformed in any mix, what parsing returns is the valid subset
    of the lines and nothing else: the entry of each valid line, in the
    order of the lines, every malformed line, an empty line among them,
    being dropped.  [parseContent] is a total function: no input makes it
    fail. *)
Theorem parse_keeps_exactly_valid_lines (lines : list jsstring)
    (entries : list Entry) :
  Forall (fun l => ~ In LF l) lines ->
  (parseContent (join [LF] lines) = entries <-> ValidSubset lines entries).
Proof.
  intros Hlf. rewrite (parseContent_lines lines Hlf). split.
  - intros <-. apply ValidSubset_parsed.
  - intros H. symmetry. by apply ValidSubset_unique.
Qed.

(** A text of six lines, two of them valid: the valid subset is the two
    entries, and it is what parsing returns. *)
Lemma parse_keeps_exactly_valid_lines_witness :
  let lines :=
    [js "u1" ++ TAB :: js "dev"; js "no tab here"; TAB :: js "no id";
     js "no label" ++ [TAB]; []; js " u2 " ++ TAB :: js " review "] in
  let entries := [mkEntry (js "u1") (js "dev"); mkEntry (js "u2") (js "review")] in
  parseContent (join [LF] lines) = entries /\ ValidSubset lines entries.
Proof.
  intros lines entries.
  assert (Hlf : Forall (fun l => ~ In LF l) lines)
    by (repeat constructor; notin).
  split; [reflexivity|].
  exact (proj1 (parse_keeps_exactly_valid_lines lines entries Hlf) eq_refl).
Defined.

Example parse_mixed_text :
  parseContent
    (join [LF]
       [js "u1" ++ TAB :: js "dev"; js "no tab here"; TAB :: js "no id";
        js "no label" ++ [TAB]; []; js " u2 " ++ TAB :: js " review "])
  = [mkEntry (js "u1") (js "dev"); mkEntry (js "u2") (js "review")].
Proof. reflexivity. Qed.

(** The line is trimmed before it is cut: leading tabs are white space, so
    the first tab of the trimmed line is the one that separates. *)
Example parse_trims_line_first :
  parseContent (TAB :: TAB :: js "x" ++ TAB :: js "y")
  = [mkEntry (js "x") (js "y")].
Proof. reflexivity. Qed.

(** A stored entry is written as a line that parses back to it. *)
Lemma parseLine_entryLine e :
  storableEntry e -> parseLine (trim (entryLine e)) = Some e.
Proof.
  intros ([[Hut _] _] & [Hu Htu] & [Hl Htl]). destruct e as [u l]. simpl in *.
  destruct (trim_fixed_ends _ Htu) as [Hu1 Hu2].
  destruct (trim_fixed_ends _ Htl) as [Hl1 Hl2].
  unfold entryLine. simpl.
  rewrite (trim_fix (u ++ TAB :: l)).
  - rewrite parseLine_app by done. rewrite Htu, Htl.
    apply nonEmpty_true in Hu, Hl. by rewrite Hu, Hl.
  - by destruct u.
  - rewrite rev_app_distr. simpl. rewrite <- app_assoc.
    destruct (rev l) as [|c r] eqn:E; [|done].
    apply (f_equal (@rev N)) in E. rewrite rev_involutive in E. done.
Qed.

Lemma entryLine_no_LF e : plainEntry e -> ~ In LF (entryLine e).
Proof.
  intros [[_ Hu] [_ Hl]] Hin. unfold entryLine in Hin.
  apply in_app_or in Hin as [?|[?|?]]; [done | discriminate | done].
Qed.

Lemma parse_entry_lines entries :
  Forall storableEntry entries ->
  filterBoolean
    (List.map (fun l => parseLine (trim l)) (List.map entryLine entries ++ [[]]))
  = entries.
Proof.
  induction 1 as [|x l Hx Hl IH]; simpl; [done|].
  rewrite parseLine_entryLine by done. by rewrite IH.
Qed.

Lemma parse_serialize entries :
  Forall storableEntry entries -> parseContent (serialize entries) = entries.
Proof.
  intros H. unfold parseContent, serialize.
  destruct entries as [|e r]; [done|].
  rewrite split_join_terminated.
  - rewrite parse_lines. by apply parse_entry_lines.
  - apply Forall_forall. intros l Hl. apply list_elem_of_In, in_map_iff in Hl.
    destruct Hl as (x & <- & Hx). apply entryLine_no_LF.
    rewrite Forall_forall in H. apply list_elem_of_In in Hx. by apply H.
  - done.
Qed.

(** ** Running the effectful code *)

Ltac unfold_m :=
  cbv beta iota zeta delta
    [bind ret emit exit consoleLog consoleError
     logVerbose existsSync readFileSync appendFileSync writeFileSync
     unlinkSync readdirSync setRegistry lookupNode];
  cbn [fs trace registry history sessions].

Ltac mrun :=
  repeat (progress
            (unfold_m;
             repeat match goal with
                    | H : ?x = _ |- context [?x] => rewrite H
                    end;
             cbn [fs trace registry history sessions negb bool_decide
                  decide_rel is_Some_dec option_eq_None_dec]));
  rewrite <- ?app_assoc; cbn [app].

Lemma logVerbose_run m b w :
  logVerbose m b w = (Ok tt, mkWorld (fs w) (trace w ++ verboseLog m b)).
Proof. destruct b, w; unfold_m; simpl; [done | by rewrite app_nil_r]. Qed.

Lemma logEntries_run index entries w :
  logEntries index entries w
  = (Ok tt, mkWorld (fs w) (trace w ++ entryListing index entries)).
Proof.
  revert index w. induction entries as [|e r IH]; intros index w; simpl.
  - destruct w. unfold_m. simpl. by rewrite app_nil_r.
  - unfold bind, consoleLog, emit. rewrite IH. simpl. by rewrite <- app_assoc.
Qed.

Lemma loadEntries_missing p w :
  registry (fs w) !! p = None ->
  loadEntries (Some p) w
  = (Ok [], mkWorld (fs w) (trace w ++ [EvExists (Registry p)])).
Proof. intros E. unfold loadEntries. by mrun. Qed.

Lemma loadEntries_file p content w :
  registry (fs w) !! p = Some (File content) ->
  loadEntries (Some p) w
  = (Ok (parseContent content),
     mkWorld (fs w) (trace w ++ [EvExists (Registry p); EvRead (Registry p)])).
Proof. intros E. unfold loadEntries. by mrun. Qed.

Lemma loadEntries_directory p w :
  registry (fs w) !! p = Some Directory ->
  loadEntries (Some p) w
  = (Thrown EISDIR,
     mkWorld (fs w) (trace w ++ [EvExists (Registry p); EvRead (Registry p)])).
Proof. intros E. unfold loadEntries. by mrun. Qed.

Lemma writeEntries_empty_file p c v w :
  registry (fs w) !! p = Some (File c) ->
  writeEntries p [] v w
  = (Ok tt,
     mkWorld (mkFS (delete p (registry (fs w))) (history (fs w)) (sessions (fs w)))
       (trace w ++ verboseLog (MsgRemovingEmpty p) v
          ++ [EvExists (Registry p); EvUnlink p])).
Proof.
  intros E. unfold writeEntries. unfold bind at 1. rewrite logVerbose_run.
  by mrun.
Qed.

Lemma writeEntries_empty_missing p v w :
  registry (fs w) !! p = None ->
  writeEntries p [] v w
  = (Ok tt,
     mkWorld (fs w)
       (trace w ++ verboseLog (MsgRemovingEmpty p) v ++ [EvExists (Registry p)])).
Proof.
  intros E. unfold writeEntries. unfold bind at 1. rewrite logVerbose_run.
  by mrun.
Qed.

Lemma writeEntries_nonempty p e es v w :
  registry (fs w) !! p <> Some Directory ->
  writeEntries p (e :: es) v w
  = (Ok tt,
     mkWorld (mkFS (<[p := File (serialize (e :: es))]> (registry (fs w)))
                (history (fs w)) (sessions (fs w)))
       (trace w ++ verboseLog (MsgWriting (length (e :: es)) p) v
          ++ [EvWrite p (serialize (e :: es))])).
Proof.
  intros E. unfold writeEntries. unfold bind at 1. rewrite logVerbose_run.
  destruct (registry (fs w) !! p) as [[c|]|] eqn:E'; try done; by mrun.
Qed.

(** C4 (amended). For every sequence of entries whose ids and labels are free
    of tabs and newlines, are not empty and carry no leading or trailing
    white space, parsing the serialization gives the same sequence back, in
    the same order; and so does loading the file [writeEntries] leaves
    behind, the empty sequence included (the file is then removed and loads
    as no entry). *)
Theorem serialize_parse_roundtrip (entries : list Entry) :
  Forall storableEntry entries ->
  parseContent (serialize entries) = entries /\
  forall (p : Path) (verbose : bool) (w : World),
    registry (fs w) !! p <> Some Directory ->
    exists w1 w2,
      writeEntries p entries verbose w = (Ok tt, w1) /\
      loadEntries (Some p) w1 = (Ok entries, w2).
Proof.
  intros H. split; [by apply parse_serialize|].
  intros p v w Hp. destruct entries as [|e r].
  - destruct (registry (fs w) !! p) as [[c|]|] eqn:E; [|done|].
    + rewrite (writeEntries_empty_file _ c) by done.
      eexists _, _. split; [done|]. apply loadEntries_missing.
      simpl. apply lookup_delete_eq.
    + rewrite writeEntries_empty_missing by done.
      eexists _, _. split; [done|]. by apply loadEntries_missing.
  - rewrite writeEntries_nonempty by done.
    eexists _, _. split; [done|].
    rewrite (loadEntries_file _ (serialize (e :: r)))
      by (simpl; apply lookup_insert_eq).
    by rewrite parse_serialize.
Qed.

Lemma serialize_parse_roundtrip_witness :
  parseContent
    (serialize [mkEntry (js "u1") (js "dev"); mkEntry (js "u2") (js "code review")])
  = [mkEntry (js "u1") (js "dev"); mkEntry (js "u2") (js "code review")].
Proof.
  apply (serialize_parse_roundtrip
           [mkEntry (js "u1") (js "dev"); mkEntry (js "u2") (js "code review")]).
  repeat constructor; try notin; discriminate.
Defined.

(** C4, as stated, fails.  An entry whose id, or whose label, starts with a
    space holds no tab, no line feed and no carriage return, and is read back
    without the space; an entry with an empty label is written as a line
    that ends with the tab and is not read back at all. *)
Lemma roundtrip_counterexample :
  (Forall plainEntry [mkEntry (js " u1") (js "dev")] /\
   ~ In CR (js " u1") /\ ~ In CR (js "dev") /\
   parseContent (serialize [mkEntry (js " u1") (js "dev")])
   = [mkEntry (js "u1") (js "dev")] /\
   parseContent (serialize [mkEntry (js " u1") (js "dev")])
   <> [mkEntry (js " u1") (js "dev")])
  /\
  (Forall plainEntry [mkEntry (js "u1") (js " dev")] /\
   parseContent (serialize [mkEntry (js "u1") (js " dev")])
   = [mkEntry (js "u1") (js "dev")] /\
   parseContent (serialize [mkEntry (js "u1") (js " dev")])
   <> [mkEntry (js "u1") (js " dev")])
  /\
  (Forall plainEntry [mkEntry (js "u1") []] /\
   parseContent (serialize [mkEntry (js "u1") []]) = [] /\
   parseContent (serialize [mkEntry (js "u1") []]) <> [mkEntry (js "u1") []]).
Proof.
  split; [|split].
  - split; [repeat constructor; notin|].
    split; [notin|]. split; [notin|]. split; [reflexivity | discriminate].
  - split; [repeat constructor; notin|]. split; [reflexivity | discriminate].
  - split; [repeat constructor; notin|]. split; [reflexivity | discriminate].
Qed.

(** C10. Loading from a [null] or [undefined] path, or from a path under
    which nothing exists, returns the empty sequence and raises nothing; the
    file system is left as it was, and the caller gets what loading a
    registry file without any entry gives. *)
Theorem loadEntries_missing_is_empty (filePath : option Path) (w : World) :
  missingFile filePath (fs w) ->
  exists w',
    loadEntries filePath w = (Ok [], w') /\
    fs w' = fs w /\
    forall p : Path,
      fst (loadEntries filePath w)
      = fst (loadEntries (Some p) (setRegistry (<[p := File []]> (registry (fs w))) w)).
Proof.
  intros H.
  assert (Hempty : forall p,
    fst (loadEntries (Some p) (setRegistry (<[p := File []]> (registry (fs w))) w))
    = Ok []).
  { intros p. rewrite (loadEntries_file _ []); [done|].
    simpl. apply lookup_insert_eq. }
  destruct filePath as [p|]; simpl in H.
  - rewrite loadEntries_missing by done. eexists. split; [done|].
    split; [done|]. intros q. by rewrite Hempty.
  - exists w. split; [done|]. split; [done|]. intros q. by rewrite Hempty.
Qed.

Lemma loadEntries_missing_is_empty_witness :
  exists w',
    loadEntries (Some (pathJoin [js "A"] CDX_FILENAME)) (mkWorld (mkFS ∅ None None) [])
    = (Ok [], w') /\
    fs w' = mkFS ∅ None None /\
    forall p : Path,
      fst (loadEntries (Some (pathJoin [js "A"] CDX_FILENAME))
             (mkWorld (mkFS ∅ None None) []))
      = fst (loadEntries (Some p)
               (setRegistry (<[p := File []]> ∅) (mkWorld (mkFS ∅ None None) []))).
Proof.
  apply (loadEntries_missing_is_empty
           (Some (pathJoin [js "A"] CDX_FILENAME))
           (mkWorld (mkFS ∅ None None) [])).
  reflexivity.
Defined.

(** ** The directory resolver *)

(** The root is the only directory that is its own parent: the test
    [parent === dir] of the loop holds there and nowhere else. *)
Lemma dirname_fixpoint d : dirname d = d <-> d = [].
Proof.
  split; [|by intros ->]. destruct d as [|x r]; [done|]. simpl. intros H.
  apply (f_equal length) in H. simpl in H. lia.
Qed.

Lemma ancestor_cons k x parent : ancestor (S k) (x :: parent) = ancestor k parent.
Proof. unfold ancestor. by rewrite Nat.iter_succ_r. Qed.

Lemma ancestor_root k : ancestor k [] = [].
Proof.
  induction k as [|k IH]; [done|]. unfold ancestor in *. simpl. by rewrite IH.
Qed.

Lemma checks_cons x parent n :
  List.map (checkOf (x :: parent)) (seq 1 n)
  = List.map (checkOf parent) (seq 0 n).
Proof.
  rewrite <- seq_shift, map_map. apply map_ext. intros k.
  unfold checkOf. by rewrite ancestor_cons.
Qed.

Lemma findCdxFile_here d v w :
  hasRegistry (fs w) d ->
  findCdxFile d v w
  = (Ok (Some (mkFound d (pathJoin d CDX_FILENAME))),
     mkWorld (fs w)
       (trace w ++ [checkOf d 0]
          ++ verboseLog (MsgFound (pathJoin d CDX_FILENAME)) v)).
Proof.
  intros [n E]. unfold hasRegistry, checkOf, ancestor in *.
  destruct v, d; simpl in *; by mrun.
Qed.

Lemma findCdxFile_up x parent v w :
  ~ hasRegistry (fs w) (x :: parent) ->
  findCdxFile (x :: parent) v w
  = findCdxFile parent v
      (mkWorld (fs w) (trace w ++ [checkOf (x :: parent) 0])).
Proof.
  intros H. unfold hasRegistry in H. apply eq_None_not_Some in H.
  simpl. by mrun.
Qed.

Lemma findCdxFile_root v w :
  ~ hasRegistry (fs w) [] ->
  findCdxFile [] v w
  = (Ok None, mkWorld (fs w) (trace w ++ [checkOf [] 0])).
Proof.
  intros H. unfold hasRegistry in H. apply eq_None_not_Some in H.
  simpl. by mrun.
Qed.

(** C7. From every starting directory the search tests the directory itself
    and then its ancestors, one parent at a time and in that order.  It
    returns the nearest directory that holds a registry file, with the path
    of that file; when no directory up to the root holds one (the root is
    where the parent of a directory is the directory itself) it returns
    not-found.  The file system is not changed. *)
Theorem findCdxFile_nearest (startDir : Path) (verbose : bool) (w : World) :
  exists (result : option Found) (w' : World),
    findCdxFile startDir verbose w = (Ok result, w') /\
    fs w' = fs w /\
    match result with
    | Some found =>
        exists k : nat,
          (k <= length startDir)%nat /\
          dir found = ancestor k startDir /\
          filePath found = pathJoin (dir found) CDX_FILENAME /\
          hasRegistry (fs w) (dir found) /\
          (forall j, (j < k)%nat -> ~ hasRegistry (fs w) (ancestor j startDir)) /\
          trace w' = trace w ++ List.map (checkOf startDir) (seq 0 (S k))
                       ++ verboseLog (MsgFound (filePath found)) verbose
    | None =>
        (forall j, ~ hasRegistry (fs w) (ancestor j startDir)) /\
        dirname (ancestor (length startDir) startDir)
        = ancestor (length startDir) startDir /\
        trace w' = trace w
                     ++ List.map (checkOf startDir) (seq 0 (S (length startDir)))
    end.
Proof.
  revert w. induction startDir as [|x parent IH]; intros w.
  - destruct (decide (hasRegistry (fs w) [])) as [H|H].
    + rewrite findCdxFile_here by done. eexists _, _. split; [done|].
      split; [done|]. exists O. simpl. repeat split; try done. lia.
    + rewrite findCdxFile_root by done. eexists _, _. split; [done|].
      split; [done|]. repeat split; try done.
      intros j. by rewrite ancestor_root.
  - destruct (decide (hasRegistry (fs w) (x :: parent))) as [H|H].
    + rewrite findCdxFile_here by done. eexists _, _. split; [done|].
      split; [done|]. exists O. simpl. repeat split; try done; lia.
    + rewrite findCdxFile_up by done.
      destruct (IH (mkWorld (fs w) (trace w ++ [checkOf (x :: parent) 0])))
        as (result & w' & Hrun & Hfs & Hres).
      exists result, w'. split; [done|]. split; [done|].
      destruct result as [found|].
      * destruct Hres as (k & Hk & Hdir & Hpath & Hhas & Hnear & Htrace).
        exists (S k). rewrite ancestor_cons. cbn [fs trace length] in *.
        repeat split; try done; [lia | |].
        -- intros [|j] Hj; [done|]. rewrite ancestor_cons. apply Hnear. lia.
        -- rewrite Htrace, <- app_assoc.
           change (seq 0 (S (S k))) with (0%nat :: seq 1 (S k)).
           by rewrite map_cons, checks_cons.
      * destruct Hres as (Hnone & Hroot & Htrace). cbn [fs trace length] in *.
        repeat split.
        -- intros [|j]; [done|]. rewrite ancestor_cons. apply Hnone.
        -- by rewrite ancestor_cons.
        -- rewrite Htrace, <- app_assoc.
           change (seq 0 (S (S (length parent))))
             with (0%nat :: seq 1 (S (length parent))).
           by rewrite map_cons, checks_cons.
Qed.

(** The scenario of the specification: directories [A/B/C], a registry at
    [A] only.  The search from [C] finds the file of [A]. *)
Example walk_up_from_C :
  let A := [js "A"] in
  let C := [js "C"; js "B"; js "A"] in
  let entriesOfA := js "u1" ++ TAB :: js "dev" ++ [LF] in
  let w := mkWorld (mkFS {[ pathJoin A CDX_FILENAME := File entriesOfA ]} None None) [] in
  fst (findCdxFile C false w) = Ok (Some (mkFound A (pathJoin A CDX_FILENAME))).
Proof. vm_compute. reflexivity. Qed.

(** ** Steps that write nothing *)

Lemma quiet_refl w : quiet w w.
Proof. by split. Qed.

Lemma quiet_trans w1 w2 w3 : quiet w1 w2 -> quiet w2 w3 -> quiet w1 w3.
Proof. intros [? ?] [? ?]. split; congruence. Qed.

Lemma silent_trans w1 w2 w3 : silent w1 w2 -> silent w2 w3 -> silent w1 w3.
Proof. unfold silent. congruence. Qed.

Lemma quiet_silent w w' : quiet w w' -> silent w w'.
Proof. by intros [_ ?]. Qed.

Lemma preserves_run {A} R (m : M A) w r w' :
  preserves R m -> m w = (r, w') -> R w w'.
Proof. intros H E. specialize (H w). by rewrite E in H. Qed.

Lemma preserves_ret {A} (a : A) : preserves quiet (ret a).
Proof. intros w. apply quiet_refl. Qed.

Lemma preserves_exit {A} c : preserves quiet (@exit A c).
Proof. intros w. apply quiet_refl. Qed.

Lemma preserves_emit e : isMutation e = false -> preserves quiet (emit e).
Proof.
  intros H w. split; [done|]. simpl. unfold mutations.
  rewrite List.filter_app. simpl. rewrite H. apply app_nil_r.
Qed.

Lemma preserves_bind {A B} (R : World -> World -> Prop) (m : M A) (k : A -> M B) :
  (forall w1 w2 w3, R w1 w2 -> R w2 w3 -> R w1 w3) ->
  preserves R m -> (forall a, preserves R (k a)) -> preserves R (bind m k).
Proof.
  intros Htrans Hm Hk w. unfold bind. specialize (Hm w).
  destruct (m w) as [[a|c|e] w1]; simpl in *; try done.
  eapply Htrans; [exact Hm | apply Hk].
Qed.

Lemma preserves_quiet_bind {A B} (m : M A) (k : A -> M B) :
  preserves quiet m -> (forall a, preserves quiet (k a)) ->
  preserves quiet (bind m k).
Proof. apply preserves_bind, quiet_trans. Qed.

Lemma preserves_silent_bind {A B} (m : M A) (k : A -> M B) :
  preserves silent m -> (forall a, preserves silent (k a)) ->
  preserves silent (bind m k).
Proof. apply preserves_bind, silent_trans. Qed.

Lemma preserves_quiet_silent {A} (m : M A) :
  preserves quiet m -> preserves silent m.
Proof. intros H w. apply quiet_silent, H. Qed.

Lemma preserves_logVerbose m b : preserves quiet (logVerbose m b).
Proof. destruct b; [by apply preserves_emit | apply preserves_ret]. Qed.

Lemma preserves_consoleLog m : preserves quiet (consoleLog m).
Proof. by apply preserves_emit. Qed.

Lemma preserves_consoleError m : preserves quiet (consoleError m).
Proof. by apply preserves_emit. Qed.

Lemma preserves_existsSync t : preserves quiet (existsSync t).
Proof.
  apply preserves_quiet_bind; [by apply preserves_emit|].
  intros _ w. apply quiet_refl.
Qed.

Lemma preserves_readFileSync t : preserves quiet (readFileSync t).
Proof.
  apply preserves_quiet_bind; [by apply preserves_emit|].
  intros _ w. destruct (lookupNode t (fs w)) as [[c|]|]; apply quiet_refl.
Qed.

Lemma preserves_readdirSync : preserves quiet readdirSync.
Proof.
  apply preserves_quiet_bind; [by apply preserves_emit|].
  intros _ w. destruct (sessions (fs w)) as [[entries|err]|]; apply quiet_refl.
Qed.

Lemma preserves_throw {A} e : preserves quiet (@throw A e).
Proof. intros w. apply quiet_refl. Qed.

Create HintDb quiet.
#[local] Hint Resolve preserves_ret preserves_exit preserves_throw
  preserves_logVerbose
  preserves_consoleLog preserves_consoleError preserves_existsSync
  preserves_readFileSync preserves_readdirSync : quiet.

(** Goes through a computation built from binds, conditionals and matches. *)
Ltac quiet_steps :=
  repeat first
    [ progress eauto with quiet
    | apply preserves_quiet_bind; [|intros ?]
    | match goal with
      | |- preserves _ (if ?b then _ else _) => destruct b
      | |- preserves _ (match ?x with _ => _ end) => destruct x
      end ].

Lemma preserves_collectSessionFiles host results :
  preserves quiet (collectSessionFiles host results).
Proof. unfold collectSessionFiles. quiet_steps. Qed.

Lemma preserves_readSessionIdFromFile host file :
  preserves quiet (readSessionIdFromFile host file).
Proof.
  unfold readSessionIdFromFile.
  apply preserves_quiet_bind; [by apply preserves_emit|]. intros _.
  quiet_steps.
Qed.

#[local] Hint Resolve preserves_collectSessionFiles
  preserves_readSessionIdFromFile : quiet.

Lemma preserves_getLatestSessionSnapshot host verbose :
  preserves quiet (getLatestSessionSnapshot host verbose).
Proof. unfold getLatestSessionSnapshot. quiet_steps. Qed.

Lemma preserves_getLastHistorySessionId host verbose :
  preserves quiet (getLastHistorySessionId host verbose).
Proof. unfold getLastHistorySessionId. quiet_steps. Qed.

Lemma preserves_getNewestHistorySessionIdSince host previousId verbose :
  preserves quiet (getNewestHistorySessionIdSince host previousId verbose).
Proof. unfold getNewestHistorySessionIdSince. quiet_steps. Qed.

#[local] Hint Resolve preserves_getLatestSessionSnapshot
  preserves_getLastHistorySessionId
  preserves_getNewestHistorySessionIdSince : quiet.

Lemma preserves_reconcile host previousHistoryId previousSession latestSession
    verbose :
  preserves quiet
    (reconcile host previousHistoryId previousSession latestSession verbose).
Proof. unfold reconcile. quiet_steps. Qed.

Lemma preserves_spawnSync host cmd args cwd :
  preserves silent (spawnSync host cmd args cwd).
Proof.
  intros w. unfold spawnSync.
  destruct (existsb hasNul args); [done|].
  unfold bind, emit. cbn [fs trace].
  destruct (spawn host cmd args cwd (fs w)) as [r f]. unfold silent. simpl.
  unfold mutations. rewrite List.filter_app. simpl. apply app_nil_r.
Qed.

Lemma preserves_exitUnlessZero status : preserves quiet (exitUnlessZero status).
Proof. destruct status as [[| |]|]; simpl; eauto with quiet. Qed.

#[local] Hint Resolve preserves_exitUnlessZero : quiet.

Ltac silent_steps :=
  repeat first
    [ apply preserves_spawnSync
    | apply preserves_quiet_silent; progress eauto with quiet
    | apply preserves_silent_bind; [|intros ?]
    | match goal with
      | |- preserves _ (if ?b then _ else _) => destruct b
      | |- preserves _ (match ?x with _ => _ end) => destruct x
      end ].

Lemma preserves_runCodex host args cwd verbose :
  preserves silent (runCodex host args cwd verbose).
Proof. unfold runCodex. silent_steps. Qed.

(** ** Where identifiers come from *)

Lemma extractIdFromFilename_nonEmpty p s :
  extractIdFromFilename p = Some s -> nonEmpty s = true.
Proof.
  unfold extractIdFromFilename.
  destruct (length p <? 42)%nat; [done|].
  destruct (drop (length p - 42) p) as [|c r]; [done|].
  destruct (matches _ _); [|done]. by intros [= <-].
Qed.

Lemma readSessionIdFromFile_id host file w v w' :
  readSessionIdFromFile host file w = (Ok v, w') ->
  v = VNull \/ truthy v = true.
Proof.
  unfold readSessionIdFromFile, bind, emit, ret.
  assert (Hfallback : forall o, nullable o = v ->
            (forall s, o = Some s -> nonEmpty s = true) ->
            v = VNull \/ truthy v = true).
  { intros [s|] <- Hs; [right; by apply Hs | by left]. }
  destruct (JSON_parse host _) as [record|].
  - destruct (truthy record && _ && truthy _) eqn:E.
    + intros [= <- _]. right.
      apply andb_prop in E as [_ E].
      destruct (getProp record (js "payload")); try done.
    + intros [= H _]. eapply Hfallback; [exact H|].
      intros s. apply extractIdFromFilename_nonEmpty.
  - intros [= H _]. eapply Hfallback; [exact H|].
    intros s. apply extractIdFromFilename_nonEmpty.
Qed.

(** A snapshot carries [null] or a truthy identifier. *)
Lemma getLatestSessionSnapshot_id host verbose w s w' :
  getLatestSessionSnapshot host verbose w = (Ok (Some s), w') ->
  id s = VNull \/ truthy (id s) = true.
Proof.
  unfold getLatestSessionSnapshot, bind.
  destruct (collectSessionFiles host [] w) as [[files|c|e] w1]; [|done..].
  destruct (last (sortByMtime files)) as [latest|]; [|done].
  destruct (readSessionIdFromFile host latest w1) as [[v|c|e] w2] eqn:E;
    [|done..].
  rewrite logVerbose_run. unfold ret. intros [= <- _].
  by eapply readSessionIdFromFile_id.
Qed.

Lemma scanHistory_find host accept lines :
  scanHistory host accept lines
  = List.find accept (filterBoolean (List.map (carriedSessionId host) lines)).
Proof.
  induction lines as [|l r IH]; simpl; [done|].
  unfold carriedSessionId at 1.
  destruct (JSON_parse host l) as [record|]; [|exact IH].
  destruct (truthy record && truthy (getProp record (js "session_id"))); simpl.
  - by destruct (accept _).
  - exact IH.
Qed.

Lemma scanHistory_truthy host accept lines sid :
  scanHistory host accept lines = Some sid -> truthy sid = true.
Proof.
  induction lines as [|l r IH]; simpl; [done|].
  destruct (JSON_parse host l) as [record|]; [|exact IH].
  destruct (truthy record && truthy _ && accept _) eqn:E; [|exact IH].
  intros [= <-]. apply andb_prop in E as [E _]. by apply andb_prop in E as [_ E].
Qed.

(** The history identifier taken before the run is [null] or truthy. *)
Lemma getLastHistorySessionId_id host verbose w v w' :
  getLastHistorySessionId host verbose w = (Ok v, w') ->
  v = VNull \/ truthy v = true.
Proof.
  unfold getLastHistorySessionId, bind.
  destruct (existsSync History w) as [[[|]|c|e] w1]; simpl; [| |done..].
  - destruct (readFileSync History w1) as [[content|c|e] w2]; [|done..].
    destruct (scanHistory _ _ _) as [sid|] eqn:E.
    + intros [= <- _]. right. by eapply scanHistory_truthy.
    + rewrite logVerbose_run. intros [= <- _]. by left.
  - intros [= <- _]. by left.
Qed.

Lemma getNewestHistorySessionIdSince_run host previousId verbose w :
  match history (fs w) with
  | None =>
      fst (getNewestHistorySessionIdSince host previousId verbose w) = Ok VNull
  | Some (File content) =>
      fst (getNewestHistorySessionIdSince host previousId verbose w)
      = Ok (default VNull
              (firstNewHistoryIdSince host previousId (historyLines content)))
  | Some Directory =>
      fst (getNewestHistorySessionIdSince host previousId verbose w)
      = Thrown EISDIR
  end.
Proof.
  unfold getNewestHistorySessionIdSince, firstNewHistoryIdSince.
  destruct (history (fs w)) as [[content|]|] eqn:E; mrun; try done.
  rewrite <- scanHistory_find.
  destruct (scanHistory _ _ _); [done|]. by destruct verbose.
Qed.

(** The history scan shows in the trace: it starts by testing that the log
    exists. *)
Lemma getNewestHistorySessionIdSince_consults host previousId verbose w :
  In (EvExists History)
    (trace (snd (getNewestHistorySessionIdSince host previousId verbose w))).
Proof.
  unfold getNewestHistorySessionIdSince.
  destruct (history (fs w)) as [[content|]|] eqn:E; mrun.
  - destruct (scanHistory _ _ _); [|destruct verbose]; simpl;
      rewrite ?in_app_iff; simpl; tauto.
  - simpl. rewrite in_app_iff. simpl. tauto.
  - simpl. rewrite in_app_iff. simpl. tauto.
Qed.

Lemma Qgtb_true a b : Qgtb a b = true <-> (b < a)%Q.
Proof.
  unfold Qgtb. rewrite Qlt_alt. destruct (b ?= a)%Q; split; congruence.
Qed.

(** ** Reconciliation *)

(** C1. When the snapshot taken after the run exists and has a non-null id,
    and no snapshot was taken before, or its path differs from the one of the
    snapshot taken before, or its time is strictly greater, reconciliation
    returns the id of that snapshot; the world, with the trace of what the
    process did, is the same after as before, so the history log was not
    read (a history scan leaves its mark in the trace, see
    [getNewestHistorySessionIdSince_consults]). *)
Theorem reconcile_primary (host : Host) (verbose0 : bool) (w0 w1 : World)
    (after : Snapshot) (previousHistoryId : value)
    (previousSession : option Snapshot) (verbose : bool) (w : World) :
  getLatestSessionSnapshot host verbose0 w0 = (Ok (Some after), w1) ->
  primarySignal previousSession after ->
  reconcile host previousHistoryId previousSession (Some after) verbose w
  = (Ok (id after), w).
Proof.
  intros Hsnap [Hid Hnew]. unfold reconcile.
  assert (isNewSession after previousSession = true) as ->; [|done].
  unfold isNewSession. apply andb_true_intro. split.
  - destruct (getLatestSessionSnapshot_id _ _ _ _ _ Hsnap); done.
  - destruct previousSession as [previous|]; [|done].
    apply orb_true_intro. destruct Hnew as [Hpath|Htime].
    + left. by rewrite bool_decide_eq_false_2.
    + right. by apply Qgtb_true.
Qed.

(** C2. When the primary signal is inconclusive and the history identifier
    taken before the run is not null, reconciliation is the history scan: it
    returns what [getNewestHistorySessionIdSince] returns, which for a
    readable history log is the first session id, going from the last line
    backward, that differs from the identifier taken before (and [null] when
    there is none or when the log does not exist). *)
Theorem reconcile_fallback (host : Host) (verbose0 : bool) (w0 w1 : World)
    (previousHistoryId : value) (previousSession latestSession : option Snapshot)
    (verbose : bool) (w : World) :
  getLastHistorySessionId host verbose0 w0 = (Ok previousHistoryId, w1) ->
  previousHistoryId <> VNull ->
  inconclusive previousSession latestSession ->
  reconcile host previousHistoryId previousSession latestSession verbose w
  = getNewestHistorySessionIdSince host previousHistoryId verbose w
  /\ match history (fs w) with
     | None =>
         fst (reconcile host previousHistoryId previousSession latestSession
                verbose w) = Ok VNull
     | Some (File content) =>
         fst (reconcile host previousHistoryId previousSession latestSession
                verbose w)
         = Ok (default VNull
                 (firstNewHistoryIdSince host previousHistoryId
                    (historyLines content)))
     | Some Directory =>
         fst (reconcile host previousHistoryId previousSession latestSession
                verbose w) = Thrown EISDIR
     end.
Proof.
  intros Hhist Hnonnull Hinc.
  assert (Heq : reconcile host previousHistoryId previousSession latestSession
                  verbose w
                = getNewestHistorySessionIdSince host previousHistoryId verbose w).
  { unfold reconcile.
    destruct (getLastHistorySessionId_id _ _ _ _ _ Hhist) as [?|Htruthy]; [done|]. rewrite Htruthy.
    destruct latestSession as [after|]; [|done].
    assert (isNewSession after previousSession = false) as ->; [|done].
    unfold isNewSession. simpl in Hinc. destruct Hinc as [Hnull|Hsame]; [by rewrite Hnull|].
    destruct previousSession as [previous|]; [|done].
    destruct Hsame as [-> Htime]. rewrite bool_decide_eq_true_2 by done.
    simpl. apply andb_false_intro2.
    destruct (Qgtb (mtimeMs after) (mtimeMs previous)) eqn:E; [|done].
    by apply Qgtb_true in E. }
  split; [exact Heq|]. rewrite Heq.
  apply getNewestHistorySessionIdSince_run.
Qed.

(** ** The new-session flow *)

Lemma exitUnlessZero_failed status w :
  status <> Some 0%Z ->
  exitUnlessZero status w = (Exited (exitCode status), w)
  /\ exitCode status <> 0%Z.
Proof. destruct status as [[|p|p]|]; done. Qed.

Lemma exitUnlessZero_exit status w code w' :
  exitUnlessZero status w = (Exited code, w') -> code <> 0%Z.
Proof. destruct status as [[|p|p]|]; simpl; unfold ret, exit; by intros [= <- _]. Qed.

Lemma spawnSync_run host cmd args cwd w :
  existsb hasNul args = false ->
  spawnSync host cmd args cwd w
  = (Ok (fst (spawn host cmd args cwd (fs w))),
     mkWorld (snd (spawn host cmd args cwd (fs w)))
       (trace w ++ [EvSpawn cmd args cwd])).
Proof.
  intros Hnul. unfold spawnSync. rewrite Hnul.
  unfold bind, emit. cbn [fs trace].
  by destruct (spawn host cmd args cwd (fs w)).
Qed.

Lemma spawnSync_nul host cmd args cwd w :
  existsb hasNul args = true ->
  spawnSync host cmd args cwd w = (Thrown ERR_INVALID_ARG_VALUE, w).
Proof. intros Hnul. unfold spawnSync. by rewrite Hnul. Qed.

Lemma hasNul_app a b : hasNul (a ++ b) = hasNul a || hasNul b.
Proof. apply existsb_app. Qed.

Lemma hasNul_join sep l :
  hasNul sep = false -> hasNul (join sep l) = existsb hasNul l.
Proof.
  intros Hsep. induction l as [|x r IH]; [done|].
  destruct r as [|y r'].
  - simpl. by rewrite orb_false_r.
  - change (join sep (x :: y :: r')) with (x ++ sep ++ join sep (y :: r')).
    rewrite !hasNul_app, Hsep, IH. done.
Qed.

Lemma hasNul_escapePowerShellArg a :
  hasNul (escapePowerShellArg a) = hasNul a.
Proof.
  unfold escapePowerShellArg. destruct a as [|c r]; [done|].
  change (hasNul (39 :: ?x)) with (hasNul x).
  rewrite hasNul_app. change (hasNul [39]) with false. rewrite orb_false_r.
  generalize (c :: r). intros l. unfold hasNul.
  induction l as [|x l IH]; [done|].
  cbn [flat_map]. rewrite existsb_app, IH. cbn [existsb].
  destruct (N.eqb_spec x 39) as [->|Hne]; [done|].
  cbn [existsb]. by rewrite orb_false_r.
Qed.

(** The arguments of the PowerShell fallback hold U+0000 only if the
    arguments of the tool do. *)
Lemma nulFree_powerShellArgs args :
  existsb hasNul args = false -> existsb hasNul (powerShellArgs args) = false.
Proof.
  intros H. unfold powerShellArgs. cbn [existsb].
  rewrite hasNul_join by done. cbn [existsb].
  assert (existsb hasNul (List.map escapePowerShellArg args) = false) as ->.
  { induction args as [|a r IH]; [done|]. cbn [existsb List.map] in *.
    apply orb_false_iff in H as [Ha Hr].
    by rewrite hasNul_escapePowerShellArg, Ha, IH. }
  reflexivity.
Qed.

(** An argument that holds U+0000: nothing is started and the exception of
    [spawnSync] escapes. *)
Lemma runCodex_nul host args cwd verbose w :
  existsb hasNul args = true ->
  runCodex host args cwd verbose w
  = (Thrown ERR_INVALID_ARG_VALUE,
     mkWorld (fs w) (trace w ++ verboseLog (MsgRunning args) verbose)).
Proof.
  intros Hnul. unfold runCodex. unfold bind at 1. rewrite logVerbose_run.
  unfold bind at 1. by rewrite spawnSync_nul.
Qed.

(** The child exits with a status other than zero: the process exits with
    that status, or with 1 when the child was ended by a signal. *)
Lemma runCodex_child_failed host args cwd verbose w r f :
  existsb hasNul args = false ->
  spawn host Codex args cwd (fs w) = (r, f) ->
  error r = None ->
  status r <> Some 0%Z ->
  runCodex host args cwd verbose w
  = (Exited (exitCode (status r)),
     mkWorld f (trace w ++ verboseLog (MsgRunning args) verbose
                  ++ [EvSpawn Codex args cwd])).
Proof.
  intros Hnul Hspawn Herr Hstatus. unfold runCodex.
  unfold bind at 1. rewrite logVerbose_run.
  unfold bind at 1. rewrite spawnSync_run by done. cbn [fs trace].
  rewrite Hspawn. cbn [fst snd]. rewrite Herr.
  destruct (exitUnlessZero_failed (status r)
              (mkWorld f ((trace w ++ verboseLog (MsgRunning args) verbose)
                            ++ [EvSpawn Codex args cwd])) Hstatus) as [-> _].
  by rewrite <- app_assoc.
Qed.

(** However [runCodex] ends the process, the exit code is not zero. *)
Lemma runCodex_exit_nonzero host args cwd verbose w code w' :
  runCodex host args cwd verbose w = (Exited code, w') -> code <> 0%Z.
Proof.
  destruct (existsb hasNul args) eqn:Hnul; [by rewrite runCodex_nul|].
  unfold runCodex. unfold bind at 1. rewrite logVerbose_run.
  unfold bind at 1. rewrite spawnSync_run by done.
  destruct (error (fst (spawn host Codex args cwd _))) as [err|].
  - unfold bind at 1.
    destruct (isENOENT err && win32 host).
    + unfold bind at 1. rewrite logVerbose_run.
      unfold bind at 1.
      rewrite spawnSync_run by (by apply (nulFree_powerShellArgs args)).
      destruct (error (fst (spawn host PowerShell _ cwd _))).
      * unfold ret, bind, consoleError, emit, exit. by intros [= <- _].
      * unfold bind at 1.
        destruct (exitUnlessZero _ _) as [[[]|c|e] w1] eqn:E.
        -- unfold ret. done.
        -- intros [= <- _]. by eapply exitUnlessZero_exit.
        -- done.
    + unfold ret, bind, consoleError, emit, exit. by intros [= <- _].
  - apply exitUnlessZero_exit.
Qed.

(** C3. In every run of the new-session flow that got as far as starting the
    external tool: if the child exits with a status other than zero, or if
    running the tool ends the process in any other way, the flow ends the
    process with a non-zero exit code; if reconciliation yields no
    identifier, the flow prints its error message and returns.  In both
    cases the flow appends, writes and deletes nothing: the file system is
    the one the external tool left.  With no snapshot before, none after and
    no history identifier, reconciliation yields [null]. *)
Theorem new_session_failure_leaves_registry (host : Host) (ui : UI)
    (workDir cdxPath : Path) (verbose : bool) (w w1 w2 : World)
    (labelInput : jsstring) (previousHistoryId : value)
    (previousSession : option Snapshot) :
  promptLabel ui = Some labelInput ->
  nonEmpty labelInput = true ->
  getLastHistorySessionId host verbose w = (Ok previousHistoryId, w1) ->
  getLatestSessionSnapshot host verbose w1 = (Ok previousSession, w2) ->
  (forall r f,
     spawn host Codex [] workDir (fs w2) = (r, f) ->
     error r = None ->
     status r <> Some 0%Z ->
     exists w',
       newSession host ui workDir cdxPath verbose w
       = (Exited (exitCode (status r)), w') /\
       exitCode (status r) <> 0%Z /\
       fs w' = f /\
       mutations (trace w') = mutations (trace w))
  /\
  (forall code w3,
     runCodex host [] workDir verbose w2 = (Exited code, w3) ->
     newSession host ui workDir cdxPath verbose w = (Exited code, w3) /\
     code <> 0%Z /\
     mutations (trace w3) = mutations (trace w))
  /\
  (forall w3 latestSession w4 newId w5,
     runCodex host [] workDir verbose w2 = (Ok tt, w3) ->
     getLatestSessionSnapshot host verbose w3 = (Ok latestSession, w4) ->
     reconcile host previousHistoryId previousSession latestSession verbose w4
     = (Ok newId, w5) ->
     truthy newId = false ->
     newSession host ui workDir cdxPath verbose w
     = (Ok tt, mkWorld (fs w5) (trace w5 ++ [EvError MsgCouldNotDetermine])) /\
     fs w5 = fs w3 /\
     mutations (trace w5 ++ [EvError MsgCouldNotDetermine])
     = mutations (trace w))
  /\
  (previousHistoryId = VNull ->
   previousSession = None ->
   forall w4,
     reconcile host previousHistoryId previousSession None verbose w4
     = (Ok VNull, w4)).
Proof.
  intros Hlabel Hnonempty Hhist Hsnap.
  pose proof (preserves_run _ _ _ _ _
                (preserves_getLastHistorySessionId host verbose) Hhist) as Hq1.
  pose proof (preserves_run _ _ _ _ _
                (preserves_getLatestSessionSnapshot host verbose) Hsnap) as Hq2.
  pose proof (quiet_silent _ _ (quiet_trans _ _ _ Hq1 Hq2)) as Hs2.
  assert (Hflow : newSession host ui workDir cdxPath verbose w
            = bind (runCodex host [] workDir verbose)
                (fun _ =>
                   bind (getLatestSessionSnapshot host verbose)
                     (fun latestSession =>
                        bind (reconcile host previousHistoryId previousSession
                                latestSession verbose)
                          (fun newId =>
                             if negb (truthy newId)
                             then consoleError MsgCouldNotDetermine
                             else appendEntry host cdxPath newId
                                    (sanitizeLabel labelInput) verbose)))
                w2).
  { unfold newSession. rewrite Hlabel, Hnonempty. cbn [negb].
    unfold bind at 1. rewrite Hhist. unfold bind at 1. by rewrite Hsnap. }
  assert (Hexit : forall code w3,
            runCodex host [] workDir verbose w2 = (Exited code, w3) ->
            newSession host ui workDir cdxPath verbose w = (Exited code, w3) /\
            code <> 0%Z /\
            mutations (trace w3) = mutations (trace w)).
  { intros code w3 Hrun. split; [|split].
    - rewrite Hflow. unfold bind at 1. by rewrite Hrun.
    - by eapply runCodex_exit_nonzero.
    - pose proof (preserves_run _ _ _ _ _
                    (preserves_runCodex host [] workDir verbose) Hrun) as Hs3.
      exact (silent_trans _ _ _ Hs2 Hs3). }
  split; [|split; [exact Hexit|split]].
  - intros r f Hspawn Herr Hstatus.
    pose proof (runCodex_child_failed host [] workDir verbose w2 r f
                  eq_refl Hspawn Herr Hstatus) as Hrun.
    destruct (Hexit _ _ Hrun) as (Hnew & Hcode & Hmut).
    eexists. split; [exact Hnew|]. split; [exact Hcode|]. split; [done|].
    exact Hmut.
  - intros w3 latestSession w4 newId w5 Hrun Hlatest Hrec Hfalsy.
    pose proof (preserves_run _ _ _ _ _
                  (preserves_runCodex host [] workDir verbose) Hrun) as Hs3.
    pose proof (preserves_run _ _ _ _ _
                  (preserves_getLatestSessionSnapshot host verbose) Hlatest)
      as Hq4.
    pose proof (preserves_run _ _ _ _ _
                  (preserves_reconcile host previousHistoryId previousSession
                     latestSession verbose) Hrec) as Hq5.
    destruct (quiet_trans _ _ _ Hq4 Hq5) as [Hfs Hmut].
    split; [|split; [exact Hfs|]].
    + rewrite Hflow. unfold bind at 1. rewrite Hrun.
      unfold bind at 1. rewrite Hlatest. unfold bind at 1. rewrite Hrec.
      by rewrite Hfalsy.
    + unfold mutations in *. rewrite List.filter_app. simpl.
      rewrite app_nil_r. unfold silent, mutations in *. congruence.
  - by intros -> ->.
Qed.

(** With the local-only flag the resolution touches no file at all: the
    registry path is the one of the starting directory and no entry is
    loaded, whatever that directory holds. *)
Lemma resolveRegistry_here startDir options w :
  here options = true ->
  resolveRegistry startDir options w
  = (Ok (startDir, pathJoin startDir CDX_FILENAME, []), w).
Proof. intros H. unfold resolveRegistry. rewrite H. reflexivity. Qed.

(** C6. The code at a starting directory that holds a registry file with one
    entry: loading that file gives the entry, and the resolution without the
    flag finds it, but the resolution with the local-only flag reports no
    entry, and [runDefault] then goes to the new-session flow without showing
    the session menu. *)
Theorem here_mode_loads_no_entry :
  let C := [js "C"; js "B"; js "A"] in
  let cdx := pathJoin C CDX_FILENAME in
  let u1 := mkEntry (js "u1") (js "dev") in
  let w := mkWorld (mkFS {[ cdx := File (serialize [u1]) ]} None None) [] in
  let host :=
    mkHost (fun _ => None) (fun _ => []) false (js "/home/u/.codex/sessions")
      (fun _ _ _ f => (mkSpawnResult None (Some 0%Z), f)) in
  let ui := mkUI (fun entries => option_map SelResume (head entries)) None
              (fun _ => None) in
  fst (loadEntries (Some cdx) w) = Ok [u1] /\
  fst (resolveRegistry C (mkOptions false false false) w) = Ok (C, cdx, [u1]) /\
  resolveRegistry C (mkOptions true false false) w = (Ok (C, cdx, []), w) /\
  trace (snd (runDefault host ui C (mkOptions true false false) w))
  = [EvLog (MsgCdxPath cdx)] /\
  trace (snd (runDefault host ui C (mkOptions false false false) w))
  = [EvExists (Registry cdx); EvExists (Registry cdx); EvRead (Registry cdx);
     EvLog (MsgCdxPath cdx); EvLog MsgListNew; EvLog (MsgListEntry 1 u1);
     EvSpawn Codex [js "resume"; js "u1"] C].
Proof. vm_compute. repeat split; reflexivity. Qed.

(** The scenario of the specification: from [C], with a registry at [A]
    only, the local-only resolution finds nothing and consults nothing. *)
Example local_only_from_C :
  let A := [js "A"] in
  let C := [js "C"; js "B"; js "A"] in
  let w := mkWorld (mkFS {[ pathJoin A CDX_FILENAME := File [] ]} None None) [] in
  resolveRegistry C (mkOptions true false false) w
  = (Ok (C, pathJoin C CDX_FILENAME, []), w).
Proof. reflexivity. Qed.

Lemma preserves_findCdxFile startDir verbose :
  preserves quiet (findCdxFile startDir verbose).
Proof.
  induction startDir as [|x parent IH]; simpl;
    (apply preserves_quiet_bind; [apply preserves_existsSync|]);
    intros [|]; try exact IH; try apply preserves_ret;
    (apply preserves_quiet_bind;
     [apply preserves_logVerbose | intros _; apply preserves_ret]).
Qed.

Lemma findCdxFile_fs startDir v w r w' :
  findCdxFile startDir v w = (r, w') -> fs w' = fs w.
Proof.
  intros H. by destruct (preserves_run _ _ _ _ _ (preserves_findCdxFile startDir v) H).
Qed.

Lemma remainingAfter_filter selected entries :
  remainingAfter selected entries
  = List.filter (fun entry => negb (bool_decide (uuid entry = selected)))
      entries.
Proof.
  induction entries as [|x r IH]; simpl; [done|].
  destruct (decide (uuid x = selected)) as [Heq|Hne].
  - by rewrite (bool_decide_eq_true_2 _ Heq).
  - rewrite (bool_decide_eq_false_2 _ Hne). simpl. by rewrite IH.
Qed.

(** What [writeEntries] writes for one entry or more is one line per entry:
    id, tab, label, line feed. *)
Lemma serialize_registryText e entries :
  serialize (e :: entries) = registryText (e :: entries).
Proof.
  unfold serialize. revert e. induction entries as [|x r IH]; intros e.
  - simpl. unfold entryLine. by rewrite <- app_assoc.
  - change (join [LF] (List.map entryLine (e :: x :: r)))
      with (entryLine e ++ [LF] ++ join [LF] (List.map entryLine (x :: r))).
    rewrite <- !app_assoc, IH. unfold entryLine. simpl.
    by rewrite <- app_assoc.
Qed.

(** C8. When the user picks an identifier in a registry that has entries,
    [runRemove] deletes the registry file if no entry remains (no file, not
    an empty one, is left under its path); otherwise it replaces the whole
    content of the file by the lines of the remaining entries, each made of
    the id, a tab, the label and a line feed. *)
Theorem runRemove_deletes_or_rewrites (ui : UI) (startDir : Path)
    (verbose : bool) (w w1 : World) (found : Found) (content : jsstring)
    (e : Entry) (entries : list Entry) (selectedUuid : jsstring) :
  findCdxFile startDir verbose w = (Ok (Some found), w1) ->
  registry (fs w) !! filePath found = Some (File content) ->
  parseContent content = e :: entries ->
  chooseRemoval ui (e :: entries) = Some selectedUuid ->
  exists w',
    runRemove ui startDir verbose w = (Ok tt, w') /\
    match remainingAfter selectedUuid (e :: entries) with
    | [] =>
        registry (fs w') = delete (filePath found) (registry (fs w)) /\
        registry (fs w') !! filePath found = None
    | remaining =>
        registry (fs w')
        = <[filePath found := File (registryText remaining)]> (registry (fs w))
    end.
Proof.
  intros Hfind Hfile Hparse Hpick.
  pose proof (findCdxFile_fs _ _ _ _ _ Hfind) as Hfs.
  unfold runRemove. unfold bind at 1. rewrite Hfind.
  unfold bind at 1. rewrite (loadEntries_file _ content) by (by rewrite Hfs).
  rewrite Hparse. unfold bind at 1, consoleLog, emit.
  unfold bind at 1. rewrite logEntries_run. rewrite Hpick.
  cbn [fs trace]. rewrite remainingAfter_filter.
  destruct (List.filter _ (e :: entries)) as [|x r] eqn:E.
  - rewrite (writeEntries_empty_file _ content) by (by rewrite Hfs).
    eexists. split; [done|]. cbn [fs registry]. rewrite Hfs.
    split; [done | apply lookup_delete_eq].
  - rewrite writeEntries_nonempty by (cbn [fs]; rewrite Hfs, Hfile; done).
    eexists. split; [done|]. cbn [fs registry].
    by rewrite Hfs, serialize_registryText.
Qed.

(** The two scenarios of the specification.  The registry of [A] holds the
    one entry [u1]: removing [u1] leaves no registry file in [A].  The
    registry holds [u1], [u2] and [u3]: removing [u2] leaves the file with
    the two lines of [u1] and [u3]. *)
Lemma runRemove_deletes_or_rewrites_witness :
  let A := [js "A"] in
  let cdx := pathJoin A CDX_FILENAME in
  let ui := mkUI (fun _ => None) None (fun _ => Some (js "u1")) in
  let ui2 := mkUI (fun _ => None) None (fun _ => Some (js "u2")) in
  let one := js "u1" ++ TAB :: js "dev" ++ [LF] in
  let three :=
    js "u1" ++ TAB :: js "dev" ++ LF :: js "u2" ++ TAB :: js "fix" ++ LF
      :: js "u3" ++ TAB :: js "doc" ++ [LF] in
  let w := mkWorld (mkFS {[ cdx := File one ]} None None) [] in
  let w2 := mkWorld (mkFS {[ cdx := File three ]} None None) [] in
  (exists w',
     runRemove ui A false w = (Ok tt, w') /\
     registry (fs w') = delete cdx (registry (fs w)) /\
     registry (fs w') !! cdx = None)
  /\
  (exists w',
     runRemove ui2 A false w2 = (Ok tt, w') /\
     registry (fs w')
     = <[cdx := File (js "u1" ++ TAB :: js "dev" ++ LF
                        :: js "u3" ++ TAB :: js "doc" ++ [LF])]>
         (registry (fs w2))).
Proof.
  intros A cdx ui ui2 one three w w2. split.
  - exact (runRemove_deletes_or_rewrites ui A false w
             (snd (findCdxFile A false w)) (mkFound A cdx) one
             (mkEntry (js "u1") (js "dev")) [] (js "u1")
             eq_refl eq_refl eq_refl eq_refl).
  - exact (runRemove_deletes_or_rewrites ui2 A false w2
             (snd (findCdxFile A false w2)) (mkFound A cdx) three
             (mkEntry (js "u1") (js "dev"))
             [mkEntry (js "u2") (js "fix"); mkEntry (js "u3") (js "doc")]
             (js "u2") eq_refl eq_refl eq_refl eq_refl).
Defined.

(** ** The scenarios of the specification *)

(** Primary path: a snapshot before the run at one path, a snapshot after it
    at another path with the embedded id [abc-123]. *)
Lemma reconcile_primary_witness :
  let host := sampleHost (Some 0%Z) (fun f => f) in
  let w := mkWorld (mkFS ∅ (Some (File sampleHistoryAfter))
                      (Some sampleSessionsAfter)) [] in
  reconcile host (VStr (js "h1")) (Some sampleOldSnapshot)
    (Some sampleNewSnapshot) false w
  = (Ok (VStr (js "abc-123")), w).
Proof.
  intros host w.
  apply (reconcile_primary host false w
           (snd (getLatestSessionSnapshot host false w)) sampleNewSnapshot).
  - vm_compute. reflexivity.
  - split; [discriminate | left; discriminate].
Defined.

(** Fallback path: the snapshot after the run is the one taken before, the
    history identifier taken before is [h1] and the newest differing one in
    the log is [h2]. *)
Lemma reconcile_fallback_witness :
  let host := sampleHost (Some 0%Z) (fun f => f) in
  let w0 := mkWorld (mkFS ∅ (Some (File sampleHistoryBefore))
                       (Some sampleSessionsBefore)) [] in
  let w := mkWorld (mkFS ∅ (Some (File sampleHistoryAfter))
                      (Some sampleSessionsBefore)) [] in
  reconcile host (VStr (js "h1")) (Some sampleOldSnapshot)
    (Some sampleOldSnapshot) false w
  = getNewestHistorySessionIdSince host (VStr (js "h1")) false w
  /\ fst (reconcile host (VStr (js "h1")) (Some sampleOldSnapshot)
            (Some sampleOldSnapshot) false w)
     = Ok (VStr (js "h2")).
Proof.
  intros host w0 w.
  apply (reconcile_fallback host false w0
           (snd (getLastHistorySessionId host false w0)) (VStr (js "h1"))
           (Some sampleOldSnapshot) (Some sampleOldSnapshot) false w).
  - vm_compute. reflexivity.
  - discriminate.
  - right. split; [reflexivity | vm_compute; discriminate].
Defined.

(** The child exits with status 1: the flow exits with 1 and the file system
    is as the child left it. *)
Lemma new_session_failure_leaves_registry_witness :
  let host := sampleHost (Some 1%Z) (fun f => f) in
  let ui := mkUI (fun _ => None) (Some (js "my label")) (fun _ => None) in
  let A := [js "A"] in
  let cdx := pathJoin A CDX_FILENAME in
  let w := mkWorld (mkFS {[ cdx := File (js "u1" ++ TAB :: js "dev" ++ [LF]) ]}
                      (Some (File sampleHistoryBefore))
                      (Some sampleSessionsBefore)) [] in
  exists w',
    newSession host ui A cdx false w = (Exited 1%Z, w') /\
    1%Z <> 0%Z /\
    fs w' = fs w /\
    mutations (trace w') = mutations (trace w).
Proof.
  intros host ui A cdx w.
  destruct (new_session_failure_leaves_registry host ui A cdx false w
              (snd (getLastHistorySessionId host false w))
              (snd (getLatestSessionSnapshot host false
                      (snd (getLastHistorySessionId host false w))))
              (js "my label") (VStr (js "h1")) (Some sampleOldSnapshot)
              eq_refl eq_refl eq_refl eq_refl) as [Hchild _].
  exact (Hchild (mkSpawnResult None (Some 1%Z)) (fs w) eq_refl eq_refl
           ltac:(discriminate)).
Defined.

(** Reconciliation failure: no snapshot before, none after, no history
    identifier.  The flow prints its message and the registry keeps its one
    entry. *)
Example new_session_discovery_failure :
  let host := sampleHost (Some 0%Z) (fun f => f) in
  let ui := mkUI (fun _ => None) (Some (js "my label")) (fun _ => None) in
  let A := [js "A"] in
  let cdx := pathJoin A CDX_FILENAME in
  let w := mkWorld (mkFS {[ cdx := File (js "u1" ++ TAB :: js "dev" ++ [LF]) ]}
                      None None) [] in
  fst (newSession host ui A cdx false w) = Ok tt /\
  fs (snd (newSession host ui A cdx false w)) = fs w /\
  last (trace (snd (newSession host ui A cdx false w)))
  = Some (EvError MsgCouldNotDetermine).
Proof. vm_compute. repeat split; reflexivity. Qed.

(** A run that succeeds: the tool creates the new session file and the flow
    appends one line, the new id with the sanitized label. *)
Example new_session_success :
  let host :=
    sampleHost (Some 0%Z)
      (fun f => mkFS (registry f) (Some (File sampleHistoryAfter))
                  (Some sampleSessionsAfter)) in
  let ui := mkUI (fun _ => None) (Some (js " my" ++ TAB :: js "label "))
              (fun _ => None) in
  let A := [js "A"] in
  let cdx := pathJoin A CDX_FILENAME in
  let w := mkWorld (mkFS {[ cdx := File (js "u1" ++ TAB :: js "dev" ++ [LF]) ]}
                      (Some (File sampleHistoryBefore))
                      (Some sampleSessionsBefore)) [] in
  fst (newSession host ui A cdx false w) = Ok tt /\
  registry (fs (snd (newSession host ui A cdx false w))) !! cdx
  = Some (File (js "u1" ++ TAB :: js "dev" ++ [LF]
                ++ js "abc-123" ++ TAB :: js "my label" ++ [LF])).
Proof. vm_compute. split; reflexivity. Qed.

(** * Further properties *)

(** ** The codec, beyond the round trip *)

Lemma split_nonempty sep s : split sep s <> [].
Proof.
  destruct s as [|c r]; simpl; [done|].
  destruct (c =? sep); [done|]. by destruct (split sep r).
Qed.

Lemma split_pieces sep s piece : In piece (split sep s) -> ~ In sep piece.
Proof.
  revert piece. induction s as [|c r IH]; intros piece; simpl.
  - intros [<-|[]]. tauto.
  - destruct (N.eqb_spec c sep) as [->|Hne].
    + intros [<-|H]; [tauto | by apply IH].
    + pose proof (split_nonempty sep r) as Hne'.
      destruct (split sep r) as [|w ws]; [done|].
      intros [<-|H].
      * intros [?|?]; [done|]. apply (IH w); [by left | done].
      * apply IH. by right.
Qed.

(** Splitting distributes over a separator. *)
Lemma split_sep_app sep a b :
  split sep (a ++ sep :: b) = split sep a ++ split sep b.
Proof.
  induction a as [|c a IH]; simpl.
  - by rewrite N.eqb_refl.
  - destruct (c =? sep); [by rewrite IH|].
    rewrite IH. pose proof (split_nonempty sep a).
    by destruct (split sep a).
Qed.

Lemma filterBoolean_app {A} (l1 l2 : list (option A)) :
  filterBoolean (l1 ++ l2) = filterBoolean l1 ++ filterBoolean l2.
Proof.
  induction l1 as [|[a|] r IH]; simpl; [done | by rewrite IH | exact IH].
Qed.

(** What [parseContent] makes of a text is what it makes of its two parts,
    when the text is cut at a line feed. *)
Lemma parseContent_app a b :
  parseContent (a ++ LF :: b) = parseContent a ++ parseContent b.
Proof.
  unfold parseContent. rewrite !parse_lines, split_sep_app, map_app.
  apply filterBoolean_app.
Qed.

Lemma parseContent_nil : parseContent [] = [].
Proof. reflexivity. Qed.

Lemma parseLine_loadable line e :
  ~ In LF line -> parseLine (trim line) = Some e -> loadableEntry e.
Proof.
  intros Hlf H. apply parseLine_valid in H.
  destruct H as [before after Hline Hno Hb Ha ->].
  assert (Hsub : forall c, In c before \/ In c after -> In c line).
  { intros c Hc. apply trim_In. rewrite Hline. apply in_or_app.
    destruct Hc; [by left | right; by right]. }
  repeat split; simpl; try done; try apply trim_idempotent.
  - intros Hin. by apply Hno, trim_In.
  - intros Hin. apply Hlf, Hsub. left. by apply trim_In.
  - intros Hin. apply Hlf, Hsub. right. by apply trim_In.
Qed.

Lemma parseContent_loadable content : Forall loadableEntry (parseContent content).
Proof.
  unfold parseContent. rewrite parse_lines.
  assert (H : Forall (fun l => ~ In LF l) (split LF content)).
  { apply Forall_forall. intros l Hl. apply list_elem_of_In in Hl.
    by eapply split_pieces. }
  induction H as [|l r Hl Hr IH]; simpl; [constructor|].
  destruct (parseLine (trim l)) as [e|] eqn:E; [|exact IH].
  constructor; [by eapply parseLine_loadable | exact IH].
Qed.

Lemma parseLine_entryLine_loadable e :
  loadableEntry e -> parseLine (trim (entryLine e)) = Some e.
Proof.
  intros (Hut & _ & _ & [Hu Htu] & [Hl Htl]). destruct e as [u l]. simpl in *.
  destruct (trim_fixed_ends _ Htu) as [Hu1 Hu2].
  destruct (trim_fixed_ends _ Htl) as [Hl1 Hl2].
  unfold entryLine. simpl.
  rewrite (trim_fix (u ++ TAB :: l)).
  - rewrite parseLine_app by done. rewrite Htu, Htl.
    apply nonEmpty_true in Hu, Hl. by rewrite Hu, Hl.
  - by destruct u.
  - rewrite rev_app_distr. simpl. rewrite <- app_assoc.
    destruct (rev l) as [|c r] eqn:E; [|done].
    apply (f_equal (@rev N)) in E. rewrite rev_involutive in E. done.
Qed.

Lemma entryLine_loadable_no_LF e : loadableEntry e -> ~ In LF (entryLine e).
Proof.
  intros (_ & Hu & Hl & _) Hin. unfold entryLine in Hin.
  apply in_app_or in Hin as [?|[?|?]]; [done | discriminate | done].
Qed.

Lemma parse_entry_lines_loadable entries :
  Forall loadableEntry entries ->
  filterBoolean
    (List.map (fun l => parseLine (trim l)) (List.map entryLine entries))
  = entries.
Proof.
  induction 1 as [|x l Hx Hl IH]; simpl; [done|].
  rewrite parseLine_entryLine_loadable by done. by rewrite IH.
Qed.

Lemma parse_serialize_loadable entries :
  Forall loadableEntry entries -> parseContent (serialize entries) = entries.
Proof.
  intros H. unfold serialize. destruct entries as [|e r]; [done|].
  unfold parseContent. rewrite split_join_terminated.
  - rewrite parse_lines, map_app, filterBoolean_app.
    rewrite parse_entry_lines_loadable by done. apply app_nil_r.
  - apply Forall_forall. intros l Hl. apply list_elem_of_In, in_map_iff in Hl.
    destruct Hl as (x & <- & Hx). apply entryLine_loadable_no_LF.
    rewrite Forall_forall in H. apply list_elem_of_In in Hx. by apply H.
  - done.
Qed.

(** X1. The entries that survive serialization followed by parsing are
    exactly the loadable ones: id without tab, no line feed in either field,
    both fields non-empty and trimmed (a tab inside a label is kept).  What
    [parseContent] returns is always of that kind, so writing back what was
    loaded and loading again gives the same entries. *)
Theorem roundtrip_exactly_loadable :
  (forall entries,
     parseContent (serialize entries) = entries <-> Forall loadableEntry entries)
  /\
  (forall content,
     parseContent (serialize (parseContent content)) = parseContent content).
Proof.
  split.
  - intros entries. split.
    + intros <-. apply parseContent_loadable.
    + apply parse_serialize_loadable.
  - intros content. apply parse_serialize_loadable, parseContent_loadable.
Qed.

Example label_with_inner_tab_roundtrips :
  parseContent (serialize [mkEntry (js "u1") (js "a" ++ TAB :: js "b")])
  = [mkEntry (js "u1") (js "a" ++ TAB :: js "b")].
Proof. reflexivity. Qed.

(** X2. [sanitizeLabel] always returns a clean label (no tab, line feed or
    carriage return, no white space at either end), and the labels it leaves
    unchanged are exactly the clean ones. *)
Theorem sanitizeLabel_clean_fixpoints :
  (forall s, cleanLabel (sanitizeLabel s)) /\
  (forall s, sanitizeLabel s = s <-> cleanLabel s).
Proof.
  assert (Hclean : forall s, cleanLabel (sanitizeLabel s)).
  { intros s. split.
    - intros c Hc. apply trim_In in Hc. by eapply replaceRuns_clean.
    - apply trim_idempotent. }
  split; [exact Hclean|]. intros s. split.
  - intros <-. apply Hclean.
  - intros [Hc Ht]. unfold sanitizeLabel. by rewrite replaceRuns_id.
Qed.

(** ** Appending and removing, followed by loading *)

Lemma appendEntry_run host p u l verbose w :
  registry (fs w) !! p <> Some Directory ->
  appendEntry host p (VStr u) l verbose w
  = (Ok tt,
     mkWorld
       (mkFS (<[p := File (match registry (fs w) !! p with
                           | Some (File content) => content
                           | _ => []
                           end ++ u ++ TAB :: l ++ [LF])]> (registry (fs w)))
          (history (fs w)) (sessions (fs w)))
       (trace w ++ verboseLog (MsgAppending p) verbose
          ++ [EvAppend p (u ++ TAB :: l ++ [LF])])).
Proof.
  intros H. unfold appendEntry. cbn [convertible negb].
  unfold bind at 1. rewrite logVerbose_run.
  destruct (registry (fs w) !! p) as [[c|]|] eqn:E; try done; by mrun.
Qed.

Lemma parseContent_terminated content rest :
  endsWithNewline content ->
  parseContent (content ++ rest) = parseContent content ++ parseContent rest.
Proof.
  intros [->|[c ->]]; [done|].
  rewrite <- app_assoc. simpl.
  rewrite parseContent_app, (parseContent_app c []).
  by rewrite parseContent_nil, app_nil_r.
Qed.

(** The well-formed texts are the ones that a file gives back as they were
    written. *)
Lemma toWellFormed_fix s : wellFormed s <-> toWellFormed s = s.
Proof.
  unfold wellFormed.
  assert (H : forall n s, (length s <= n)%nat ->
            (isWellFormed s = true <-> toWellFormed s = s)).
  { clear s. induction n as [|n IH]; intros [|c r] Hlen; simpl in Hlen;
      try done; try lia.
    cbn [isWellFormed toWellFormed].
    destruct (isHighSurrogate c) eqn:Hh.
    - destruct r as [|d r'].
      + split; [done|]. intros [= <-]. by vm_compute in Hh.
      + destruct (isLowSurrogate d) eqn:Hl; cbn [andb].
        * rewrite (IH r') by (simpl in Hlen; lia).
          split; [by intros -> | by intros [= ->]].
        * split; [done|]. intros [= <- _]. by vm_compute in Hh.
    - destruct (isLowSurrogate c) eqn:Hl; cbn [negb andb].
      + split; [done|]. intros [= <- _]. by vm_compute in Hl.
      + rewrite (IH r) by lia. split; [by intros -> | by intros [= ->]]. }
  by apply (H (length s)).
Qed.

(** X3. Appending an entry and loading: when nothing is under the path, or a
    file that is empty or ends with a line feed, [appendEntry] with a
    loadable entry whose id and label are well-formed text (the text a file
    gives back as it was written) succeeds, the entries loaded afterwards
    are the entries of before followed by the new one, and no other path
    changes. *)
Theorem appendEntry_then_load (host : Host) (p : Path) (u l : jsstring)
    (verbose : bool) (w : World) :
  loadableEntry (mkEntry u l) ->
  wellFormed u -> wellFormed l ->
  appendable (fs w) p ->
  exists w1 w2,
    appendEntry host p (VStr u) l verbose w = (Ok tt, w1) /\
    loadEntries (Some p) w1
    = (Ok (entriesAt (fs w) p ++ [mkEntry u l]), w2) /\
    forall q, q <> p -> registry (fs w1) !! q = registry (fs w) !! q.
Proof.
  intros He _ _ Hp. unfold appendable, entriesAt in *.
  assert (Hline : parseContent (u ++ TAB :: l ++ [LF]) = [mkEntry u l]).
  { replace (u ++ TAB :: l ++ [LF]) with (serialize [mkEntry u l])
      by (unfold serialize, entryLine; simpl; by rewrite <- app_assoc).
    apply parse_serialize_loadable. by constructor. }
  assert (Hother : forall content q, q <> p ->
            <[p := File content]> (registry (fs w)) !! q = registry (fs w) !! q).
  { intros content q Hq. by rewrite lookup_insert_ne. }
  destruct (registry (fs w) !! p) as [[c|]|] eqn:E; [|done|].
  - rewrite appendEntry_run by (by rewrite E). rewrite E.
    eexists _, _. split; [done|]. split; [|apply Hother].
    erewrite loadEntries_file by (simpl; apply lookup_insert_eq).
    by rewrite (parseContent_terminated c _ Hp), Hline.
  - rewrite appendEntry_run by (by rewrite E). rewrite E.
    eexists _, _. split; [done|]. split; [|apply Hother].
    erewrite loadEntries_file by (simpl; apply lookup_insert_eq).
    simpl. by rewrite Hline.
Qed.

Lemma appendEntry_then_load_witness :
  let host := sampleHost (Some 0%Z) (fun f => f) in
  let cdx := pathJoin [js "A"] CDX_FILENAME in
  let w := mkWorld (mkFS {[ cdx := File (js "u1" ++ TAB :: js "dev" ++ [LF]) ]}
                      None None) [] in
  exists w1 w2,
    appendEntry host cdx (VStr (js "u2")) (js "review") false w = (Ok tt, w1) /\
    loadEntries (Some cdx) w1
    = (Ok ([mkEntry (js "u1") (js "dev")] ++ [mkEntry (js "u2") (js "review")]),
       w2) /\
    forall q, q <> cdx -> registry (fs w1) !! q = registry (fs w) !! q.
Proof.
  intros host cdx w.
  apply (appendEntry_then_load host cdx (js "u2") (js "review") false w).
  - repeat split; try notin; discriminate.
  - reflexivity.
  - reflexivity.
  - right. by exists (js "u1" ++ TAB :: js "dev").
Defined.

Lemma without_loadable sel entries :
  Forall loadableEntry entries -> Forall loadableEntry (without sel entries).
Proof.
  intros H. apply Forall_forall. intros e He.
  rewrite Forall_forall in H. apply H.
  apply list_elem_of_In in He. apply list_elem_of_In.
  unfold without in He. by apply filter_In in He as [? _].
Qed.

(** X4. Removing and loading: after [runRemove] the registry file holds
    exactly the entries of before whose id is not the chosen one, in their
    order (every entry with the chosen id goes, duplicates included; when
    none remains the file is gone and loads as no entry), and no other path
    changes. *)
Theorem runRemove_then_load (ui : UI) (startDir : Path) (verbose : bool)
    (w w1 : World) (found : Found) (content : jsstring) (e : Entry)
    (entries : list Entry) (selectedUuid : jsstring) :
  findCdxFile startDir verbose w = (Ok (Some found), w1) ->
  registry (fs w) !! filePath found = Some (File content) ->
  parseContent content = e :: entries ->
  chooseRemoval ui (e :: entries) = Some selectedUuid ->
  exists w' w'',
    runRemove ui startDir verbose w = (Ok tt, w') /\
    loadEntries (Some (filePath found)) w'
    = (Ok (without selectedUuid (e :: entries)), w'') /\
    forall q, q <> filePath found ->
      registry (fs w') !! q = registry (fs w) !! q.
Proof.
  intros Hfind Hfile Hparse Hpick.
  pose proof (findCdxFile_fs _ _ _ _ _ Hfind) as Hfs.
  assert (Hload : Forall loadableEntry (without selectedUuid (e :: entries))).
  { apply without_loadable. rewrite <- Hparse. apply parseContent_loadable. }
  unfold runRemove. unfold bind at 1. rewrite Hfind.
  unfold bind at 1. rewrite (loadEntries_file _ content) by (by rewrite Hfs).
  rewrite Hparse. unfold bind at 1, consoleLog, emit.
  unfold bind at 1. rewrite logEntries_run. rewrite Hpick.
  cbn [fs trace]. fold (without selectedUuid (e :: entries)).
  destruct (without selectedUuid (e :: entries)) as [|x r] eqn:E.
  - rewrite (writeEntries_empty_file _ content) by (by rewrite Hfs).
    eexists _, _. split; [done|]. split.
    + apply loadEntries_missing. simpl. apply lookup_delete_eq.
    + intros q Hq. simpl. rewrite Hfs. by rewrite lookup_delete_ne.
  - rewrite writeEntries_nonempty by (cbn [fs]; rewrite Hfs, Hfile; done).
    eexists _, _. split; [done|]. split.
    + erewrite loadEntries_file by (simpl; apply lookup_insert_eq).
      by rewrite parse_serialize_loadable.
    + intros q Hq. simpl. rewrite Hfs. by rewrite lookup_insert_ne.
Qed.

(** A registry with the id [u1] twice and [u2] once: removing [u1] leaves
    [u2] alone. *)
Lemma runRemove_then_load_witness :
  let A := [js "A"] in
  let cdx := pathJoin A CDX_FILENAME in
  let content :=
    serialize [mkEntry (js "u1") (js "dev"); mkEntry (js "u2") (js "review");
               mkEntry (js "u1") (js "again")] in
  let w := mkWorld (mkFS {[ cdx := File content ]} None None) [] in
  let ui := mkUI (fun _ => None) None (fun _ => Some (js "u1")) in
  exists w' w'',
    runRemove ui [js "B"; js "A"] false w = (Ok tt, w') /\
    loadEntries (Some cdx) w' = (Ok [mkEntry (js "u2") (js "review")], w'') /\
    forall q, q <> cdx -> registry (fs w') !! q = registry (fs w) !! q.
Proof.
  intros A cdx content w ui.
  exact (runRemove_then_load ui [js "B"; js "A"] false w
           (snd (findCdxFile [js "B"; js "A"] false w)) (mkFound A cdx) content
           (mkEntry (js "u1") (js "dev"))
           [mkEntry (js "u2") (js "review"); mkEntry (js "u1") (js "again")]
           (js "u1") eq_refl eq_refl eq_refl eq_refl).
Defined.

(** X5. When there is nothing to remove (no registry up to the root, a
    registry without any valid entry, or no pick by the user), [runRemove]
    returns and leaves the file system as it was: in particular a registry
    file that holds only malformed lines is neither deleted nor rewritten. *)
Theorem runRemove_nothing_to_remove (ui : UI) (startDir : Path)
    (verbose : bool) (w : World) :
  nothingToRemove ui startDir verbose w ->
  fst (runRemove ui startDir verbose w) = Ok tt /\
  fs (snd (runRemove ui startDir verbose w)) = fs w.
Proof.
  intros H. unfold nothingToRemove in H.
  assert (exists w', runRemove ui startDir verbose w = (Ok tt, w') /\
                     fs w' = fs w) as (w' & -> & Hw'); [|done].
  unfold runRemove. unfold bind at 1.
  destruct (findCdxFile startDir verbose w) as [r w1] eqn:Hfind.
  pose proof (findCdxFile_fs _ _ _ _ _ Hfind) as Hfs.
  simpl in H. destruct H as [->|(found & content & -> & Hfile & Hcase)].
  - eexists. split; [reflexivity|]. exact Hfs.
  - unfold bind at 1.
    rewrite (loadEntries_file _ content) by (by rewrite Hfs).
    destruct (parseContent content) as [|e entries] eqn:Hparse.
    + eexists. split; [reflexivity|]. exact Hfs.
    + destruct Hcase as [?|Hpick]; [done|].
      unfold bind at 1, consoleLog, emit.
      unfold bind at 1. rewrite logEntries_run. rewrite Hpick.
      eexists. split; [reflexivity|]. exact Hfs.
Qed.

Lemma runRemove_nothing_to_remove_witness :
  let cdx := pathJoin [js "A"] CDX_FILENAME in
  let w := mkWorld (mkFS {[ cdx := File (js "no tab in this line") ]}
                      None None) [] in
  let ui := mkUI (fun _ => None) None (fun _ => Some (js "u1")) in
  fst (runRemove ui [js "A"] false w) = Ok tt /\
  fs (snd (runRemove ui [js "A"] false w)) = fs w.
Proof.
  intros cdx w ui. apply (runRemove_nothing_to_remove ui [js "A"] false w).
  right. exists (mkFound [js "A"] cdx), (js "no tab in this line").
  split; [reflexivity|]. split; [reflexivity|]. left. reflexivity.
Defined.

(** ** The resolver once more *)

Lemma findCdxFile_result startDir verbose w :
  exists w',
    findCdxFile startDir verbose w = (Ok (nearestRegistry (fs w) startDir), w')
    /\ fs w' = fs w.
Proof.
  revert w. induction startDir as [|x parent IH]; intros w;
    cbn [nearestRegistry]; destruct (decide (hasRegistry (fs w) _)) as [H|H].
  - rewrite findCdxFile_here by done. by eexists.
  - rewrite findCdxFile_root by done. by eexists.
  - rewrite findCdxFile_here by done. by eexists.
  - rewrite findCdxFile_up by done.
    destruct (IH (mkWorld (fs w) (trace w ++ [checkOf (x :: parent) 0])))
      as (w' & Hrun & Hfs).
    exists w'. by split.
Qed.

Lemma nearestRegistry_dir f d found :
  nearestRegistry f d = Some found ->
  exists k, (k <= length d)%nat /\ dir found = ancestor k d /\
            filePath found = pathJoin (dir found) CDX_FILENAME /\
            hasRegistry f (dir found).
Proof.
  revert found. induction d as [|x parent IH]; intros found; simpl;
    destruct (decide (hasRegistry f _)) as [H|H]; try done.
  - intros [= <-]. exists O. by repeat split.
  - intros [= <-]. exists O. repeat split; try done. simpl. lia.
  - intros Hf. destruct (IH _ Hf) as (k & Hk & Hdir & Hrest).
    exists (S k). rewrite ancestor_cons. split; [simpl; lia | by split].
Qed.

Lemma ancestor_length k d : length (ancestor k d) = (length d - k)%nat.
Proof.
  revert d. induction k as [|k IH]; intros d; [simpl; lia|].
  destruct d as [|x parent]; [by rewrite ancestor_root|].
  rewrite ancestor_cons, IH. simpl. lia.
Qed.

Lemma nearestRegistry_between f d found k j :
  nearestRegistry f d = Some found ->
  dir found = ancestor k d -> (k <= length d)%nat -> (j <= k)%nat ->
  nearestRegistry f (ancestor j d) = Some found.
Proof.
  revert k j. induction d as [|x parent IH]; intros k j Hf Hdir Hk Hj.
  - by rewrite ancestor_root.
  - destruct j as [|j]; [exact Hf|]. destruct k as [|k]; [lia|].
    rewrite ancestor_cons in *. simpl in Hf, Hk.
    destruct (decide (hasRegistry f (x :: parent))) as [H|H].
    + injection Hf as <-. simpl in Hdir.
      apply (f_equal length) in Hdir. rewrite ancestor_length in Hdir.
      simpl in Hdir. lia.
    + apply (IH k j); [done | done | lia | lia].
Qed.

(** X6. A registry governs every directory between it and the place the
    search started from: when the search from [startDir] finds the registry
    of its [k]-th ancestor, the search from any ancestor of [startDir] up to
    that one finds the same registry. *)
Theorem findCdxFile_governs_between (startDir : Path) (verbose : bool)
    (w : World) (found : Found) (k j : nat) :
  fst (findCdxFile startDir verbose w) = Ok (Some found) ->
  dir found = ancestor k startDir ->
  (k <= length startDir)%nat ->
  (j <= k)%nat ->
  fst (findCdxFile (ancestor j startDir) verbose w) = Ok (Some found).
Proof.
  intros Hfind Hdir Hk Hj.
  destruct (findCdxFile_result startDir verbose w) as (w1 & E1 & _).
  destruct (findCdxFile_result (ancestor j startDir) verbose w) as (w2 & E2 & _).
  rewrite E1 in Hfind. rewrite E2. simpl in *. f_equal.
  injection Hfind as Hfind. by eapply nearestRegistry_between.
Qed.

Lemma findCdxFile_governs_between_witness :
  let A := [js "A"] in
  let C := [js "C"; js "B"; js "A"] in
  let w := mkWorld (mkFS {[ pathJoin A CDX_FILENAME := File [] ]} None None) [] in
  fst (findCdxFile (ancestor 1 C) false w)
  = Ok (Some (mkFound A (pathJoin A CDX_FILENAME))).
Proof.
  intros A C w.
  apply (findCdxFile_governs_between C false w
           (mkFound A (pathJoin A CDX_FILENAME)) 2 1);
    [reflexivity | reflexivity | simpl; lia | lia].
Defined.

(** ** [runInit] *)

Lemma runInit_exists startDir verbose w :
  is_Some (registry (fs w) !! pathJoin startDir CDX_FILENAME) ->
  runInit startDir verbose w
  = (Ok [NoteAlreadyExists],
     mkWorld (fs w)
       (trace w ++ [EvExists (Registry (pathJoin startDir CDX_FILENAME))])).
Proof. intros [n E]. unfold runInit. by mrun. Qed.

Lemma runInit_creates startDir verbose w :
  registry (fs w) !! pathJoin startDir CDX_FILENAME = None ->
  runInit startDir verbose w
  = (Ok (if verbose then [NoteCreated (pathJoin startDir CDX_FILENAME)] else []),
     mkWorld
       (mkFS (<[pathJoin startDir CDX_FILENAME := File []]> (registry (fs w)))
          (history (fs w)) (sessions (fs w)))
       (trace w ++ [EvExists (Registry (pathJoin startDir CDX_FILENAME));
                    EvWrite (pathJoin startDir CDX_FILENAME) []])).
Proof. intros E. unfold runInit. by mrun. Qed.

(** X7. [runInit] never changes what exists: when something is under
    [startDir/.cdx] the file system stays as it is; otherwise an empty
    registry file is created there and nothing else changes.  Either way,
    afterwards the search from [startDir] stops at [startDir] itself
    (whatever registries its ancestors hold), and a second [runInit] changes
    nothing. *)
Theorem runInit_creates_once (startDir : Path) (verbose : bool) (w : World) :
  exists notes w',
    runInit startDir verbose w = (Ok notes, w') /\
    match registry (fs w) !! pathJoin startDir CDX_FILENAME with
    | Some _ => fs w' = fs w
    | None =>
        fs w' = mkFS (<[pathJoin startDir CDX_FILENAME := File []]>
                        (registry (fs w)))
                  (history (fs w)) (sessions (fs w)) /\
        entriesAt (fs w') (pathJoin startDir CDX_FILENAME) = []
    end /\
    (forall q, q <> pathJoin startDir CDX_FILENAME ->
       registry (fs w') !! q = registry (fs w) !! q) /\
    fst (findCdxFile startDir verbose w')
    = Ok (Some (mkFound startDir (pathJoin startDir CDX_FILENAME))) /\
    fs (snd (runInit startDir verbose w')) = fs w'.
Proof.
  destruct (registry (fs w) !! pathJoin startDir CDX_FILENAME) as [n|] eqn:E.
  - rewrite runInit_exists by (by rewrite E). eexists _, _.
    split; [done|]. split; [done|]. split; [done|]. split.
    + rewrite findCdxFile_here; [done|]. unfold hasRegistry. simpl. by rewrite E.
    + rewrite runInit_exists; [done|]. simpl. by rewrite E.
  - rewrite runInit_creates by done. eexists _, _.
    split; [done|]. split; [|split; [|split]].
    + split; [done|]. unfold entriesAt. simpl. by rewrite lookup_insert_eq.
    + intros q Hq. simpl. by rewrite lookup_insert_ne.
    + rewrite findCdxFile_here; [done|]. unfold hasRegistry. simpl.
      by rewrite lookup_insert_eq.
    + rewrite runInit_exists; [done|]. simpl. by rewrite lookup_insert_eq.
Qed.

(** ** [runAdd] *)

Lemma addUsageError_test args :
  (3 <? length args)%nat
  || ((length args =? 2)%nat && bool_decide (args !! 1%nat = Some []))
  = bool_decide (addUsageError args).
Proof.
  unfold addUsageError. apply eq_sym.
  destruct (Nat.ltb_spec 3 (length args)) as [H|H]; simpl.
  - apply bool_decide_eq_true_2. by left.
  - destruct (Nat.eqb_spec (length args) 2) as [H2|H2]; simpl.
    + destruct (decide (args !! 1%nat = Some [])) as [E|E].
      * rewrite (bool_decide_eq_true_2 _ E).
        apply bool_decide_eq_true_2. by right.
      * rewrite (bool_decide_eq_false_2 _ E).
        apply bool_decide_eq_false_2. intros [?|[_ ?]]; [lia | done].
    + apply bool_decide_eq_false_2. intros [?|[? _]]; lia.
Qed.

Lemma given_Some text s : text = Some s -> s <> [] -> given text = true.
Proof. intros -> H. by destruct s. Qed.

Lemma registryPath_found f startDir :
  match nearestRegistry f startDir with
  | Some found => filePath found
  | None => pathJoin startDir CDX_FILENAME
  end = registryPath f startDir.
Proof. reflexivity. Qed.

(** What [runAdd] does once a uuid and a label are there. *)
Lemma runAdd_run host ui uuidInput startDir args verbose w uuid label :
  ~ addUsageError args ->
  addUuid uuidInput args = Some uuid -> uuid <> [] ->
  addLabel ui args = Some label -> label <> [] ->
  exists w1,
    fs w1 = fs w /\ silent w w1 /\
    runAdd host ui uuidInput startDir args verbose w
    = bind (appendEntry host (registryPath (fs w) startDir) (VStr (trim uuid))
              (sanitizeLabel label) verbose)
        (fun _ => ret []) w1.
Proof.
  intros Husage Hu Hune Hl Hlne. unfold runAdd.
  rewrite addUsageError_test, bool_decide_eq_false_2 by done.
  destruct (findCdxFile_result startDir verbose w) as (w1 & Hfind & Hfs).
  pose proof (preserves_run _ _ _ _ _ (preserves_findCdxFile startDir verbose)
                Hfind) as Hq.
  exists w1. split; [done|]. split; [by apply quiet_silent|].
  unfold bind at 1. rewrite Hfind. rewrite registryPath_found.
  fold (addUuid uuidInput args). fold (addLabel ui args).
  rewrite (given_Some _ _ Hu Hune), (given_Some _ _ Hl Hlne).
  by rewrite Hu, Hl.
Qed.

(** X8. With arguments that pass the usage test and a uuid and a label that
    are given (as argument or typed at the prompt), [runAdd] appends exactly
    one line to the nearest registry file, or to [startDir/.cdx] when there
    is none (the file is then created): the trimmed uuid, a tab, the
    sanitized label, a line feed.  Nothing else in the file system changes. *)
Theorem runAdd_appends_line (host : Host) (ui : UI)
    (uuidInput : option jsstring) (startDir : Path) (args : list jsstring)
    (verbose : bool) (w : World) (uuid label : jsstring) :
  ~ addUsageError args ->
  addUuid uuidInput args = Some uuid -> uuid <> [] ->
  addLabel ui args = Some label -> label <> [] ->
  registry (fs w) !! registryPath (fs w) startDir <> Some Directory ->
  exists w',
    runAdd host ui uuidInput startDir args verbose w = (Ok [], w') /\
    fs w'
    = mkFS (<[registryPath (fs w) startDir :=
                File (textAt (fs w) (registryPath (fs w) startDir)
                      ++ trim uuid ++ TAB :: sanitizeLabel label ++ [LF])]>
              (registry (fs w)))
        (history (fs w)) (sessions (fs w)) /\
    mutations (trace w')
    = mutations (trace w)
      ++ [EvAppend (registryPath (fs w) startDir)
            (trim uuid ++ TAB :: sanitizeLabel label ++ [LF])].
Proof.
  intros Husage Hu Hune Hl Hlne Hdir.
  destruct (runAdd_run host ui uuidInput startDir args verbose w uuid label
              Husage Hu Hune Hl Hlne) as (w1 & Hfs & Hsilent & ->).
  unfold bind. rewrite appendEntry_run by (by rewrite Hfs).
  eexists. split; [done|]. cbn [fs trace]. rewrite Hfs. split; [done|].
  unfold silent in Hsilent. unfold mutations in *.
  rewrite !List.filter_app, Hsilent. simpl.
  by destruct verbose.
Qed.

(** The end-to-end scenario of the specification: [add u2 review] where no
    registry exists creates one that holds exactly that line. *)
Lemma runAdd_appends_line_witness :
  let host := sampleHost (Some 0%Z) (fun f => f) in
  let ui := mkUI (fun _ => None) None (fun _ => None) in
  let A := [js "A"] in
  let w := mkWorld (mkFS ∅ None None) [] in
  exists w',
    runAdd host ui None A [js "add"; js "u2"; js "review"] false w = (Ok [], w') /\
    fs w'
    = mkFS (<[pathJoin A CDX_FILENAME :=
                File (js "u2" ++ TAB :: js "review" ++ [LF])]> ∅) None None /\
    mutations (trace w')
    = [EvAppend (pathJoin A CDX_FILENAME) (js "u2" ++ TAB :: js "review" ++ [LF])].
Proof.
  intros host ui A w.
  apply (runAdd_appends_line host ui None A [js "add"; js "u2"; js "review"]
           false w (js "u2") (js "review")).
  - intros [H|[H _]]; simpl in H; lia.
  - reflexivity.
  - discriminate.
  - reflexivity.
  - discriminate.
  - discriminate.
Defined.

Lemma appendEntry_load_aux host p u l verbose w :
  loadableEntry (mkEntry u l) ->
  appendable (fs w) p ->
  exists w1 w2,
    appendEntry host p (VStr u) l verbose w = (Ok tt, w1) /\
    loadEntries (Some p) w1
    = (Ok (entriesAt (fs w) p ++ [mkEntry u l]), w2).
Proof.
  intros He Hp. unfold appendable, entriesAt in *.
  assert (Hline : parseContent (u ++ TAB :: l ++ [LF]) = [mkEntry u l]).
  { replace (u ++ TAB :: l ++ [LF]) with (serialize [mkEntry u l])
      by (unfold serialize, entryLine; simpl; by rewrite <- app_assoc).
    apply parse_serialize_loadable. by constructor. }
  destruct (registry (fs w) !! p) as [[c|]|] eqn:E; [|done|].
  - rewrite appendEntry_run by (by rewrite E). rewrite E.
    eexists _, _. split; [done|].
    erewrite loadEntries_file by (simpl; apply lookup_insert_eq).
    by rewrite (parseContent_terminated c _ Hp), Hline.
  - rewrite appendEntry_run by (by rewrite E). rewrite E.
    eexists _, _. split; [done|].
    erewrite loadEntries_file by (simpl; apply lookup_insert_eq).
    simpl. by rewrite Hline.
Qed.

(** X9. Adding and loading: when the trimmed uuid is not empty and holds no
    tab or line feed, the sanitized label is not empty, and the registry
    file is missing, empty or ended by a line feed, the entries loaded after
    [runAdd] are the entries of before followed by the new one. *)
Theorem runAdd_then_load (host : Host) (ui : UI)
    (uuidInput : option jsstring) (startDir : Path) (args : list jsstring)
    (verbose : bool) (w : World) (uuid label : jsstring) :
  ~ addUsageError args ->
  addUuid uuidInput args = Some uuid ->
  addLabel ui args = Some label -> label <> [] ->
  trim uuid <> [] -> ~ In TAB (trim uuid) -> ~ In LF (trim uuid) ->
  sanitizeLabel label <> [] ->
  appendable (fs w) (registryPath (fs w) startDir) ->
  exists w' w'',
    runAdd host ui uuidInput startDir args verbose w = (Ok [], w') /\
    loadEntries (Some (registryPath (fs w) startDir)) w'
    = (Ok (entriesAt (fs w) (registryPath (fs w) startDir)
           ++ [mkEntry (trim uuid) (sanitizeLabel label)]), w'').
Proof.
  intros Husage Hu Hl Hlne Htrim Htab Hlf Hsan Happ.
  assert (Hune : uuid <> []) by (intros ->; done).
  destruct (runAdd_run host ui uuidInput startDir args verbose w uuid label
              Husage Hu Hune Hl Hlne) as (w1 & Hfs & _ & ->).
  assert (He : loadableEntry (mkEntry (trim uuid) (sanitizeLabel label))).
  { repeat split; simpl; try done; try apply trim_idempotent.
    intros Hin. unfold sanitizeLabel in Hin. apply trim_In in Hin.
    by apply replaceRuns_clean in Hin. }
  destruct (appendEntry_load_aux host (registryPath (fs w) startDir)
              (trim uuid) (sanitizeLabel label) verbose w1 He)
    as (w2 & w3 & Happend & Hload); [by rewrite Hfs|].
  exists w2, w3. unfold bind. rewrite Happend. split; [done|].
  by rewrite Hload, Hfs.
Qed.

Lemma runAdd_then_load_witness :
  let host := sampleHost (Some 0%Z) (fun f => f) in
  let ui := mkUI (fun _ => None) (Some (js " code" ++ TAB :: js "review "))
              (fun _ => None) in
  let A := [js "A"] in
  let cdx := pathJoin A CDX_FILENAME in
  let w := mkWorld (mkFS {[ cdx := File (js "u1" ++ TAB :: js "dev" ++ [LF]) ]}
                      None None) [] in
  exists w' w'',
    runAdd host ui None [js "B"; js "A"] [js "add"; js " u2 "] false w
    = (Ok [], w') /\
    loadEntries (Some cdx) w'
    = (Ok ([mkEntry (js "u1") (js "dev")]
           ++ [mkEntry (js "u2") (js "code review")]), w'').
Proof.
  intros host ui A cdx w.
  apply (runAdd_then_load host ui None [js "B"; js "A"] [js "add"; js " u2 "]
           false w (js " u2 ") (js " code" ++ TAB :: js "review "));
    try reflexivity; try discriminate; try notin.
  - intros [H|[_ H]]; [simpl in H; lia | discriminate].
  - right. by exists (js "u1" ++ TAB :: js "dev").
Defined.

(** ** What the commands never do *)

Lemma preserves_loadEntries filePath : preserves quiet (loadEntries filePath).
Proof. unfold loadEntries. quiet_steps. Qed.

Lemma preserves_logEntries index entries :
  preserves quiet (logEntries index entries).
Proof.
  revert index. induction entries as [|e r IH]; intros index; simpl.
  - apply preserves_ret.
  - apply preserves_quiet_bind; [apply preserves_consoleLog | intros _; apply IH].
Qed.

#[local] Hint Resolve preserves_loadEntries preserves_logEntries
  preserves_findCdxFile preserves_reconcile : quiet.

Lemma preserves_selectSession ui entries :
  preserves quiet (selectSession ui entries).
Proof. unfold selectSession, printSessionList. quiet_steps. Qed.

Lemma preserves_resolveRegistry startDir options :
  preserves quiet (resolveRegistry startDir options).
Proof. unfold resolveRegistry. quiet_steps. Qed.

#[local] Hint Resolve preserves_selectSession preserves_resolveRegistry : quiet.

Lemma growsW_refl w : growsW w w.
Proof. intros p c H. exists []. by rewrite app_nil_r. Qed.

Lemma growsW_trans w1 w2 w3 : growsW w1 w2 -> growsW w2 w3 -> growsW w1 w3.
Proof.
  intros H12 H23 p c H. destruct (H12 p c H) as [m1 H1].
  destruct (H23 p _ H1) as [m2 H2]. exists (m1 ++ m2). by rewrite app_assoc.
Qed.

Lemma quiet_growsW w w' : quiet w w' -> growsW w w'.
Proof. intros [Hfs _]. unfold growsW. rewrite Hfs. apply growsW_refl. Qed.

Lemma preserves_quiet_grows {A} (m : M A) :
  preserves quiet m -> preserves growsW m.
Proof. intros H w. apply quiet_growsW, H. Qed.

Lemma preserves_grows_bind {A B} (m : M A) (k : A -> M B) :
  preserves growsW m -> (forall a, preserves growsW (k a)) ->
  preserves growsW (bind m k).
Proof. apply preserves_bind, growsW_trans. Qed.

Lemma preserves_appendFileSync p data : preserves growsW (appendFileSync p data).
Proof.
  intros w. unfold appendFileSync, bind, emit, setRegistry. cbn [fs trace].
  destruct (registry (fs w) !! p) as [[c|]|] eqn:E; cbn [snd];
    intros q cq Hq; cbn [fs registry].
  - destruct (decide (p = q)) as [<-|Hne].
    + exists data. rewrite lookup_insert_eq. congruence.
    + exists []. rewrite lookup_insert_ne by done. by rewrite app_nil_r.
  - exists []. by rewrite app_nil_r.
  - destruct (decide (p = q)) as [<-|Hne]; [congruence|].
    exists []. rewrite lookup_insert_ne by done. by rewrite app_nil_r.
Qed.

Lemma preserves_appendEntry host p newId l verbose :
  preserves growsW (appendEntry host p newId l verbose).
Proof.
  unfold appendEntry. destruct (negb (convertible newId)).
  - apply preserves_quiet_grows, preserves_throw.
  - apply preserves_grows_bind.
    + apply preserves_quiet_grows, preserves_logVerbose.
    + intros _. apply preserves_appendFileSync.
Qed.

Lemma preserves_spawnSync_grows host cmd args cwd :
  toolKeepsRegistry host -> preserves growsW (spawnSync host cmd args cwd).
Proof.
  intros H w. destruct (existsb hasNul args) eqn:Hnul.
  - rewrite spawnSync_nul by done. apply growsW_refl.
  - rewrite spawnSync_run by done. unfold growsW. simpl. apply H.
Qed.

Ltac grows_steps :=
  repeat first
    [ apply preserves_appendEntry
    | apply preserves_spawnSync_grows; assumption
    | apply preserves_quiet_grows; progress eauto with quiet
    | apply preserves_grows_bind; [|intros ?]
    | match goal with
      | |- preserves _ (if ?b then _ else _) => destruct b
      | |- preserves _ (match ?x with _ => _ end) => destruct x
      end ].

Lemma preserves_runCodex_grows host args cwd verbose :
  toolKeepsRegistry host -> preserves growsW (runCodex host args cwd verbose).
Proof. intros H. unfold runCodex. grows_steps. Qed.

Lemma preserves_newSession_grows host ui workDir cdxPath verbose :
  toolKeepsRegistry host ->
  preserves growsW (newSession host ui workDir cdxPath verbose).
Proof.
  intros H. pose proof (preserves_runCodex_grows host [] workDir verbose H).
  unfold newSession.
  repeat first
    [ assumption
    | apply preserves_appendEntry
    | apply preserves_quiet_grows; progress eauto with quiet
    | apply preserves_grows_bind; [|intros ?]
    | match goal with
      | |- preserves _ (if ?b then _ else _) => destruct b
      | |- preserves _ (match ?x with _ => _ end) => destruct x
      end ].
Qed.

Lemma preserves_runDefault_grows host ui startDir options :
  toolKeepsRegistry host ->
  preserves growsW (runDefault host ui startDir options).
Proof.
  intros H. unfold runDefault.
  repeat first
    [ apply preserves_newSession_grows; assumption
    | apply preserves_runCodex_grows; assumption
    | apply preserves_quiet_grows; progress eauto with quiet
    | apply preserves_grows_bind; [|intros ?]
    | match goal with
      | |- preserves _ (if ?b then _ else _) => destruct b
      | |- preserves _ (match ?x with _ => _ end) => destruct x
      end ].
Qed.

Lemma preserves_runAdd_grows host ui uuidInput startDir args verbose :
  preserves growsW (runAdd host ui uuidInput startDir args verbose).
Proof. unfold runAdd. grows_steps. Qed.

Lemma preserves_runInit_grows startDir verbose :
  preserves growsW (runInit startDir verbose).
Proof.
  intros w.
  destruct (registry (fs w) !! pathJoin startDir CDX_FILENAME) as [n|] eqn:E.
  - rewrite runInit_exists by (by rewrite E). intros q c Hq. exists [].
    cbn [snd fs]. by rewrite app_nil_r.
  - rewrite runInit_creates by done. intros q c Hq. cbn [snd fs registry].
    destruct (decide (pathJoin startDir CDX_FILENAME = q)) as [<-|Hne];
      [congruence|].
    exists []. rewrite lookup_insert_ne by done. by rewrite app_nil_r.
Qed.

(** X10. Only [rm] can shorten or delete a registry file.  As long as the
    external tool leaves the registry files at least as they are, every run
    of [main] whose first argument is not [rm] leaves each registry file in
    place, with its former text as the beginning of its text. *)
Theorem main_only_rm_shrinks (host : Host) (ui : UI)
    (uuidInput : option jsstring) (startDir : Path) (args : list jsstring)
    (w : World) :
  toolKeepsRegistry host ->
  args !! 0%nat <> Some (js "rm") ->
  grows (fs w) (fs (snd (main host ui uuidInput startDir args w))).
Proof.
  intros Htool Hrm.
  assert (preserves growsW (main host ui uuidInput startDir args)) as H;
    [|apply H].
  unfold main, isWord. rewrite (bool_decide_eq_false_2 _ Hrm).
  repeat first
    [ apply preserves_runDefault_grows; assumption
    | apply preserves_runAdd_grows
    | apply preserves_runInit_grows
    | apply preserves_quiet_grows; progress eauto with quiet
    | apply preserves_grows_bind; [|intros ?]
    | match goal with
      | |- preserves _ (if ?b then _ else _) => destruct b
      end ].
Qed.

Lemma main_only_rm_shrinks_witness :
  let host :=
    sampleHost (Some 0%Z)
      (fun f => mkFS (registry f) (Some (File sampleHistoryAfter))
                  (Some sampleSessionsAfter)) in
  let ui := mkUI (fun _ => None) (Some (js "my label")) (fun _ => None) in
  let A := [js "A"] in
  let w := mkWorld (mkFS {[ pathJoin A CDX_FILENAME :=
                              File (js "u1" ++ TAB :: js "dev" ++ [LF]) ]}
                      (Some (File sampleHistoryBefore))
                      (Some sampleSessionsBefore)) [] in
  grows (fs w) (fs (snd (main host ui None A [js "new"] w))).
Proof.
  intros host ui A w.
  apply (main_only_rm_shrinks host ui None A [js "new"] w).
  - intros cmd args cwd f p c H. exists []. simpl. by rewrite app_nil_r.
  - discriminate.
Defined.

(** X11. [runAdd] appends nothing unless its arguments pass the usage test
    and both a uuid and a label are given: otherwise it returns and the file
    system and the list of registry changes are as before. *)
Theorem runAdd_without_effect (host : Host) (ui : UI)
    (uuidInput : option jsstring) (startDir : Path) (args : list jsstring)
    (verbose : bool) (w : World) :
  addUsageError args \/ given (addUuid uuidInput args) = false
  \/ given (addLabel ui args) = false ->
  quiet w (snd (runAdd host ui uuidInput startDir args verbose w)).
Proof.
  intros H.
  assert (preserves quiet (runAdd host ui uuidInput startDir args verbose)) as Hq;
    [|apply Hq].
  unfold runAdd. rewrite addUsageError_test.
  destruct (decide (addUsageError args)) as [Hu|Hu].
  - rewrite bool_decide_eq_true_2 by done. apply preserves_ret.
  - rewrite bool_decide_eq_false_2 by done.
    destruct H as [?|H]; [done|].
    apply preserves_quiet_bind; [apply preserves_findCdxFile|]. intros found.
    fold (addUuid uuidInput args). fold (addLabel ui args).
    destruct (given (addUuid uuidInput args)); simpl; [|apply preserves_ret].
    destruct H as [?|Hl]; [done|]. rewrite Hl. apply preserves_ret.
Qed.

Lemma runAdd_without_effect_witness :
  let host := sampleHost (Some 0%Z) (fun f => f) in
  let ui := mkUI (fun _ => None) None (fun _ => None) in
  let w := mkWorld (mkFS ∅ None None) [] in
  quiet w (snd (runAdd host ui None [js "A"]
                  [js "add"; js "u1"; js "a"; js "label"] false w)).
Proof.
  intros host ui w.
  apply (runAdd_without_effect host ui None [js "A"]
           [js "add"; js "u1"; js "a"; js "label"] false w).
  left. left. simpl. lia.
Defined.
(** ** Running the tool *)

Lemma exitUnlessZero_ok status w w' :
  exitUnlessZero status w = (Ok tt, w') -> status = Some 0%Z /\ w' = w.
Proof.
  destruct status as [[|p|p]|]; simpl; unfold ret, exit; try done.
  by intros [= <-].
Qed.

(** X12. [runCodex] returns only after a child has ended with status 0: the
    tool itself, or, on Windows and when the tool could not be found, the
    PowerShell that was started in its place; the file system is then the
    one that child left.  When it ends the process, the exit code is not
    zero.  An exception escapes exactly when one of the arguments holds the
    character U+0000: [spawnSync] then refuses the arguments and no child is
    started. *)
Theorem runCodex_returns_only_on_success (host : Host) (args : list jsstring)
    (cwd : Path) (verbose : bool) (w : World) :
  let first := spawn host Codex args cwd (fs w) in
  let second := spawn host PowerShell (powerShellArgs args) cwd (snd first) in
  match fst (runCodex host args cwd verbose w) with
  | Ok _ =>
      nulFree args /\
      ((error (fst first) = None /\ status (fst first) = Some 0%Z /\
        fs (snd (runCodex host args cwd verbose w)) = snd first)
       \/
       (win32 host = true /\ error (fst first) = Some ENOENT /\
        error (fst second) = None /\ status (fst second) = Some 0%Z /\
        fs (snd (runCodex host args cwd verbose w)) = snd second))
  | Exited code => nulFree args /\ code <> 0%Z
  | Thrown e =>
      e = ERR_INVALID_ARG_VALUE /\
      existsb hasNul args = true /\
      snd (runCodex host args cwd verbose w)
      = mkWorld (fs w) (trace w ++ verboseLog (MsgRunning args) verbose)
  end.
Proof.
  intros first second.
  destruct (existsb hasNul args) eqn:Hnul.
  { by rewrite runCodex_nul. }
  pose proof (nulFree_powerShellArgs args Hnul) as Hps.
  destruct (runCodex host args cwd verbose w) as [r w'] eqn:Hrun.
  destruct r as [[]|code|e]; cbn [fst snd].
  - split; [exact Hnul|].
    revert Hrun. unfold runCodex. unfold bind at 1. rewrite logVerbose_run.
    unfold bind at 1. rewrite spawnSync_run by done. cbn [fs trace].
    fold first. destruct (error (fst first)) as [err|] eqn:Herr.
    + unfold bind at 1.
      destruct (isENOENT err && win32 host) eqn:Hcond.
      * apply andb_prop in Hcond as [Hen Hwin].
        unfold bind at 1. rewrite logVerbose_run.
        unfold bind at 1. rewrite spawnSync_run by exact Hps. cbn [fs trace].
        change (spawn host PowerShell _ cwd (snd first)) with second.
        destruct (error (fst second)) as [err2|] eqn:Herr2.
        -- unfold ret, bind, consoleError, emit, exit. done.
        -- unfold bind at 1.
           destruct (exitUnlessZero _ _) as [[[]|c|e] w1] eqn:E; try done.
           apply exitUnlessZero_ok in E as [Hst ->].
           unfold ret. intros [= <-]. right.
           destruct err; try done.
      * unfold ret, bind, consoleError, emit, exit. done.
    + intros H. apply exitUnlessZero_ok in H as [Hst ->]. by left.
  - split; [exact Hnul | by eapply runCodex_exit_nonzero].
  - exfalso. revert Hrun. unfold runCodex. unfold bind at 1.
    rewrite logVerbose_run.
    unfold bind at 1. rewrite spawnSync_run by done. cbn [fs trace].
    destruct (error (fst (spawn host Codex args cwd (fs w)))) as [err|].
    + unfold bind at 1. destruct (isENOENT err && win32 host).
      * unfold bind at 1. rewrite logVerbose_run.
        unfold bind at 1. rewrite spawnSync_run by exact Hps.
        destruct (error (fst (spawn host PowerShell _ cwd _))).
        -- unfold ret, bind, consoleError, emit, exit. done.
        -- unfold bind at 1.
           destruct (status _) as [[|p|p]|]; simpl; unfold ret, exit; done.
      * unfold ret, bind, consoleError, emit, exit. done.
    + destruct (status _) as [[|p|p]|]; simpl; unfold ret, exit; done.
Qed.

(** An id with the character U+0000, as a registry line can hold one: the
    call throws before anything is started. *)
Example runCodex_resume_nul :
  let host := sampleHost (Some 0%Z) (fun f => f) in
  let w := mkWorld (mkFS ∅ None None) [] in
  runCodex host [js "resume"; js "u" ++ [0%N]] [js "A"] false w
  = (Thrown ERR_INVALID_ARG_VALUE, w).
Proof. reflexivity. Qed.

(** ** Quoting for PowerShell *)

Lemma isSingleQuote_apostrophe : isSingleQuote 39 = true.
Proof. reflexivity. Qed.

Lemma isSingleQuote_cases c :
  isSingleQuote c = (c =? 39) || isTypographicQuote c.
Proof. reflexivity. Qed.

Lemma unquoteBody_escaped value :
  existsb isTypographicQuote value = false ->
  unquoteBody (doubled value ++ [39]) = Some value.
Proof.
  induction value as [|c r IH]; [done|].
  cbn [existsb]. intros H. apply orb_false_iff in H as [Hc Hr].
  cbn [flat_map]. destruct (N.eqb_spec c 39) as [->|Hne].
  - cbn [app]. cbn [unquoteBody]. rewrite isSingleQuote_apostrophe.
    by rewrite IH.
  - cbn [app unquoteBody]. rewrite isSingleQuote_cases, Hc.
    destruct (N.eqb_spec c 39); [done|]. cbn [orb]. by rewrite IH.
Qed.

Lemma doubled_inj a b : doubled a = doubled b -> a = b.
Proof.
  revert b. induction a as [|x a IH]; intros [|y b]; cbn [flat_map].
  - done.
  - destruct (y =? 39); discriminate.
  - destruct (x =? 39); discriminate.
  - destruct (N.eqb_spec x 39) as [->|Hx], (N.eqb_spec y 39) as [->|Hy];
      cbn [app].
    + intros [= H]. f_equal. by apply IH.
    + intros [= H _]. by subst.
    + intros [= H _]. by subst.
    + intros [= -> H]. f_equal. by apply IH.
Qed.

(** What the reader makes of the quoted text is never longer than the
    argument, and shorter when the argument holds a typographic quote.  The
    second part is for the reader standing on the second apostrophe of a
    doubled one. *)
Lemma unquoteBody_length n :
  forall value,
    (length value <= n)%nat ->
    (forall r, unquoteBody (doubled value ++ [39]) = Some r ->
       (length r <= length value)%nat /\
       (existsb isTypographicQuote value = true ->
        (length r < length value)%nat)) /\
    (forall r, unquoteBody (39 :: doubled value ++ [39]) = Some r ->
       (length r <= length value)%nat).
Proof.
  induction n as [n IHn] using lt_wf_ind. intros value Hn.
  assert (IH : forall v, (length v < length value)%nat ->
            (forall r, unquoteBody (doubled v ++ [39]) = Some r ->
               (length r <= length v)%nat /\
               (existsb isTypographicQuote v = true ->
                (length r < length v)%nat)) /\
            (forall r, unquoteBody (39 :: doubled v ++ [39]) = Some r ->
               (length r <= length v)%nat)).
  { intros v Hv. apply (IHn (length v)); lia. }
  clear IHn Hn. split.
  - intros r. destruct value as [|x v]; [by intros [= <-]|].
    cbn [flat_map]. destruct (N.eqb_spec x 39) as [->|Hx].
    + cbn [app unquoteBody]. rewrite isSingleQuote_apostrophe.
      destruct (unquoteBody (doubled v ++ [39])) as [r'|] eqn:E; [|done].
      intros [= <-]. destruct (proj1 (IH v ltac:(simpl; lia)) r' E) as [H1 H2].
      cbn [existsb length]. change (isTypographicQuote 39) with false.
      split; [lia|]. intros H. apply H2 in H. lia.
    + cbn [app unquoteBody]. rewrite isSingleQuote_cases.
      destruct (N.eqb_spec x 39); [done|]. cbn [orb].
      destruct (isTypographicQuote x) eqn:Hq.
      * (* a typographic quote: the reader takes it for a quote *)
        destruct v as [|y v'].
        { cbn [flat_map app]. rewrite isSingleQuote_apostrophe. done. }
        cbn [flat_map]. destruct (N.eqb_spec y 39) as [->|Hy].
        -- cbn [app]. rewrite isSingleQuote_apostrophe.
           destruct (unquoteBody (39 :: doubled v' ++ [39])) as [r'|] eqn:E;
             [|done].
           intros [= <-].
           pose proof (proj2 (IH v' ltac:(simpl; lia)) r' E).
           cbn [length]. split; [lia | intros _; lia].
        -- cbn [app]. destruct (isSingleQuote y); [|done].
           destruct (unquoteBody (doubled v' ++ [39])) as [r'|] eqn:E; [|done].
           intros [= <-].
           destruct (proj1 (IH v' ltac:(simpl; lia)) r' E) as [H1 _].
           cbn [length]. split; [lia | intros _; lia].
      * destruct (unquoteBody (doubled v ++ [39])) as [r'|] eqn:E; [|done].
        intros [= <-].
        destruct (proj1 (IH v ltac:(simpl; lia)) r' E) as [H1 H2].
        cbn [existsb length]. rewrite Hq. cbn [orb].
        split; [lia|]. intros H. apply H2 in H. lia.
  - intros r. cbn [unquoteBody]. rewrite isSingleQuote_apostrophe.
    destruct value as [|x v].
    { cbn [flat_map app]. rewrite isSingleQuote_apostrophe. done. }
    cbn [flat_map]. destruct (N.eqb_spec x 39) as [->|Hx].
    + cbn [app]. rewrite isSingleQuote_apostrophe.
      destruct (unquoteBody (39 :: doubled v ++ [39])) as [r'|] eqn:E; [|done].
      intros [= <-].
      pose proof (proj2 (IH v ltac:(simpl; lia)) r' E). cbn [length]. lia.
    + cbn [app]. destruct (isSingleQuote x); [|done].
      destruct (unquoteBody (doubled v ++ [39])) as [r'|] eqn:E; [|done].
      intros [= <-].
      destruct (proj1 (IH v ltac:(simpl; lia)) r' E) as [H1 _].
      cbn [length]. lia.
Qed.

(** X13. [escapePowerShellArg] never quotes two different arguments to the
    same text, and the quoted text begins and ends with an apostrophe.
    PowerShell reads it back as the argument exactly when the argument holds
    none of the typographic single quotes U+2018, U+2019, U+201A and U+201B,
    which PowerShell takes for a quote and the function does not double. *)
Theorem escapePowerShellArg_reversible :
  (forall value,
     unquote (escapePowerShellArg value) = Some value <->
     existsb isTypographicQuote value = false) /\
  (forall a b, escapePowerShellArg a = escapePowerShellArg b -> a = b) /\
  (forall value,
     head (escapePowerShellArg value) = Some 39 /\
     last (escapePowerShellArg value) = Some 39).
Proof.
  split; [|split].
  - intros [|c r]; [done|].
    unfold escapePowerShellArg. cbn [unquote].
    rewrite isSingleQuote_apostrophe. split.
    + intros H.
      destruct (existsb isTypographicQuote (c :: r)) eqn:E; [|done].
      destruct (unquoteBody_length (length (c :: r)) (c :: r) (le_n _))
        as [Hlen _].
      destruct (Hlen _ H) as [_ Hlt]. specialize (Hlt E). lia.
    + apply unquoteBody_escaped.
  - intros [|x a] [|y b]; unfold escapePowerShellArg; [done| | |].
    + cbn [flat_map]. intros H. exfalso. revert H.
      destruct (y =? 39), (doubled b); discriminate.
    + cbn [flat_map]. intros H. exfalso. revert H.
      destruct (x =? 39), (doubled a); discriminate.
    + intros [= H]. apply app_inv_tail in H. by apply doubled_inj.
  - intros [|c r]; [done|]. split; [done|].
    unfold escapePowerShellArg. rewrite app_comm_cons. apply last_snoc.
Qed.

Example escapePowerShellArg_quote :
  escapePowerShellArg (js "it's") = js "'it''s'".
Proof. reflexivity. Qed.

(** With the typographic quote U+2019 the string ends in the middle of the
    quoted text: what follows is read as more of the command. *)
Example escapePowerShellArg_typographic :
  escapePowerShellArg (js "a" ++ 8217 :: js "; calc")
  = 39 :: js "a" ++ 8217 :: js "; calc'"
  /\ unquote (escapePowerShellArg (js "a" ++ 8217 :: js "; calc")) = None.
Proof. split; reflexivity. Qed.

(** ** [runDefault] as a whole *)

Lemma nearestRegistry_None f d :
  nearestRegistry f d = None -> registry f !! pathJoin d CDX_FILENAME = None.
Proof.
  destruct d as [|x parent]; simpl;
    destruct (decide (hasRegistry f _)) as [H|H]; try done;
    intros _; by apply eq_None_not_Some.
Qed.

(** What lines 255-258 compute when they do not fail. *)
Lemma resolveRegistry_ok startDir options w workDir cdxPath entries w1 :
  resolveRegistry startDir options w = (Ok (workDir, cdxPath, entries), w1) ->
  workDir = defaultWorkDir options (fs w) startDir /\
  cdxPath = defaultRegistryPath options (fs w) startDir /\
  entries = (if here options then [] else entriesAt (fs w) cdxPath) /\
  quiet w w1.
Proof.
  intros H.
  pose proof (preserves_run _ _ _ _ _
                (preserves_resolveRegistry startDir options) H) as Hq.
  revert H. unfold resolveRegistry, defaultWorkDir, defaultRegistryPath,
    registryPath.
  destruct (here options).
  - unfold bind, ret. simpl. by intros [= <- <- <- _].
  - unfold bind at 1.
    destruct (findCdxFile_result startDir (verbose options) w)
      as (w0 & -> & Hfs).
    destruct (nearestRegistry (fs w) startDir) as [found|] eqn:Hnear.
    + simpl option_map. unfold entriesAt. rewrite <- Hfs.
      destruct (registry (fs w0) !! filePath found) as [[c|]|] eqn:E.
      * unfold bind at 1. rewrite (loadEntries_file _ c) by done.
        unfold ret. intros [= <- <- <- _]. by rewrite E.
      * unfold bind at 1. by rewrite loadEntries_directory.
      * unfold bind at 1. rewrite loadEntries_missing by done.
        unfold ret. intros [= <- <- <- _]. by rewrite E.
    + simpl option_map. unfold bind, ret. simpl. intros [= <- <- <- _].
      unfold entriesAt. by rewrite (nearestRegistry_None _ _ Hnear).
Qed.

Lemma appendsAtMost_after_silent host p l w1 w2 w3 :
  silent w1 w2 -> appendsAtMost host p l w2 w3 -> appendsAtMost host p l w1 w3.
Proof.
  unfold appendsAtMost, silent. intros H12 [H|(newId & Ht & H)].
  - left. congruence.
  - right. exists newId. split; [done|]. congruence.
Qed.

Lemma preserves_appendsAtMost_bind {A B} host p l (m : M A) (k : A -> M B) :
  preserves silent m ->
  (forall a, preserves (appendsAtMost host p l) (k a)) ->
  preserves (appendsAtMost host p l) (bind m k).
Proof.
  intros Hm Hk w. unfold bind. specialize (Hm w).
  destruct (m w) as [[a|c|e] w1]; cbn [snd] in *; try by left.
  eapply appendsAtMost_after_silent; [exact Hm | apply Hk].
Qed.

Lemma preserves_silent_appendsAtMost {A} host p l (m : M A) :
  preserves silent m -> preserves (appendsAtMost host p l) m.
Proof. intros H w. left. apply H. Qed.

Lemma appendEntry_mutations host p newId l verbose w :
  convertible newId = true ->
  mutations (trace (snd (appendEntry host p newId l verbose w)))
  = mutations (trace w) ++ [EvAppend p (toStr host newId ++ TAB :: l ++ [LF])].
Proof.
  intros Hconv. unfold appendEntry. rewrite Hconv. cbn [negb].
  unfold bind at 1. rewrite logVerbose_run.
  unfold appendFileSync, bind, emit. cbn [fs trace].
  assert (forall t, mutations ((t ++ verboseLog (MsgAppending p) verbose)
                                 ++ [EvAppend p (toStr host newId ++ TAB :: l ++ [LF])])
                    = mutations t ++ [EvAppend p (toStr host newId ++ TAB :: l ++ [LF])])
    as Hm.
  { intros t. unfold mutations. rewrite !List.filter_app. simpl.
    destruct verbose; simpl; by rewrite ?app_nil_r. }
  destruct (registry (fs w) !! p) as [[c|]|]; cbn [snd trace setRegistry];
    apply Hm.
Qed.

Lemma preserves_appendEntry_once host p newId l verbose :
  truthy newId = true ->
  preserves (appendsAtMost host p l) (appendEntry host p newId l verbose).
Proof.
  intros Ht w. destruct (convertible newId) eqn:Hconv.
  - right. exists newId. split; [done|]. by apply appendEntry_mutations.
  - left. unfold appendEntry. rewrite Hconv. done.
Qed.

Lemma preserves_newSession_once host ui workDir cdxPath verbose :
  preserves
    (appendsAtMost host cdxPath (sanitizeLabel (default [] (promptLabel ui))))
    (newSession host ui workDir cdxPath verbose).
Proof.
  unfold newSession. destruct (promptLabel ui) as [labelInput|]; simpl;
    [|apply preserves_silent_appendsAtMost, preserves_quiet_silent,
        preserves_ret].
  destruct (nonEmpty labelInput); simpl;
    [|apply preserves_silent_appendsAtMost, preserves_quiet_silent,
        preserves_ret].
  apply preserves_appendsAtMost_bind;
    [apply preserves_quiet_silent, preserves_getLastHistorySessionId|].
  intros previousHistoryId.
  apply preserves_appendsAtMost_bind;
    [apply preserves_quiet_silent, preserves_getLatestSessionSnapshot|].
  intros previousSession.
  apply preserves_appendsAtMost_bind; [apply preserves_runCodex|]. intros _.
  apply preserves_appendsAtMost_bind;
    [apply preserves_quiet_silent, preserves_getLatestSessionSnapshot|].
  intros latestSession.
  apply preserves_appendsAtMost_bind;
    [apply preserves_quiet_silent, preserves_reconcile|].
  intros newId. destruct (truthy newId) eqn:Ht; simpl.
  - by apply preserves_appendEntry_once.
  - apply preserves_silent_appendsAtMost, preserves_quiet_silent,
      preserves_consoleError.
Qed.

(** X14. Whatever the user answers and however the tool ends, a run of
    [runDefault] changes the registry at most once, and then by appending
    one line to its registry path (the nearest registry file, or
    [startDir/.cdx] when there is none or when [here] is set): a truthy
    identifier, a tab, the sanitized label and a line feed.  It never
    rewrites or deletes a file. *)
Theorem runDefault_appends_at_most_once (host : Host) (ui : UI)
    (startDir : Path) (options : Options) (w : World) :
  appendsAtMost host (defaultRegistryPath options (fs w) startDir)
    (sanitizeLabel (default [] (promptLabel ui)))
    w (snd (runDefault host ui startDir options w)).
Proof.
  unfold runDefault. unfold bind at 1.
  destruct (resolveRegistry startDir options w) as [[[[workDir cdxPath] entries]|c|e] w1]
    eqn:Hres;
    try (left; apply quiet_silent;
         exact (preserves_run _ _ _ _ _
                  (preserves_resolveRegistry startDir options) Hres)).
  destruct (resolveRegistry_ok _ _ _ _ _ _ _ Hres) as (_ & <- & _ & Hq).
  apply appendsAtMost_after_silent with w1; [by apply quiet_silent|].
  assert (preserves (appendsAtMost host cdxPath
                       (sanitizeLabel (default [] (promptLabel ui))))
            (bind (consoleLog (MsgCdxPath cdxPath))
               (fun _ =>
                  bind (if forceNew options then ret (Some SelNew)
                        else selectSession ui entries)
                    (fun selection =>
                       match selection with
                       | None => ret tt
                       | Some SelNew =>
                           newSession host ui workDir cdxPath (verbose options)
                       | Some (SelResume entry) =>
                           runCodex host [js "resume"; uuid entry] workDir
                             (verbose options)
                       end)))) as H; [|apply H].
  apply preserves_appendsAtMost_bind;
    [apply preserves_quiet_silent, preserves_consoleLog|]. intros _.
  apply preserves_appendsAtMost_bind.
  - destruct (forceNew options); apply preserves_quiet_silent;
      [apply preserves_ret | apply preserves_selectSession].
  - intros [[|entry]|].
    + apply preserves_newSession_once.
    + apply preserves_silent_appendsAtMost, preserves_runCodex.
    + apply preserves_silent_appendsAtMost, preserves_quiet_silent,
        preserves_ret.
Qed.

Lemma printSessionList_run entries w :
  printSessionList entries w
  = (Ok tt,
     mkWorld (fs w) (trace w ++ EvLog MsgListNew :: entryListing 1 entries)).
Proof.
  unfold printSessionList, bind, consoleLog, emit. rewrite logEntries_run.
  cbn [fs trace]. by rewrite <- app_assoc.
Qed.

Lemma selectSession_nonempty ui e entries w :
  exists w',
    selectSession ui (e :: entries) w = (Ok (chooseSession ui (e :: entries)), w')
    /\ quiet w w'.
Proof.
  assert (exists w', selectSession ui (e :: entries) w
                     = (Ok (chooseSession ui (e :: entries)), w')) as [w' H].
  { unfold selectSession, bind. rewrite printSessionList_run. by eexists. }
  exists w'. split; [done|].
  exact (preserves_run _ _ _ _ _ (preserves_selectSession ui (e :: entries)) H).
Qed.

(** With arguments that hold no U+0000 the tool is started first, with the
    arguments and the directory given. *)
Lemma runCodex_spawns host args cwd verbose w :
  existsb hasNul args = false ->
  exists t,
    trace (snd (runCodex host args cwd verbose w))
    = trace w ++ verboseLog (MsgRunning args) verbose
        ++ EvSpawn Codex args cwd :: t.
Proof.
  intros Hnul. pose proof (nulFree_powerShellArgs args Hnul) as Hps.
  unfold runCodex. unfold bind at 1. rewrite logVerbose_run.
  unfold bind at 1. rewrite spawnSync_run by done. cbn [fs trace].
  destruct (error _) as [err|].
  - unfold bind at 1. destruct (isENOENT err && win32 host).
    + unfold bind at 1. rewrite logVerbose_run.
      unfold bind at 1. rewrite spawnSync_run by exact Hps. cbn [fs trace].
      destruct (error _).
      * unfold ret, bind, consoleError, emit, exit. cbn [snd trace].
        rewrite <- !app_assoc. cbn [app]. by eexists.
      * unfold bind at 1.
        destruct (status _) as [[|p|p]|]; simpl; unfold ret, exit;
          cbn [snd trace]; rewrite <- !app_assoc; cbn [app]; by eexists.
    + unfold ret, bind, consoleError, emit, exit. cbn [snd trace].
      rewrite <- !app_assoc. cbn [app]. by eexists.
  - destruct (status _) as [[|p|p]|]; simpl; unfold ret, exit;
      cbn [snd trace]; rewrite <- !app_assoc; cbn [app]; by eexists.
Qed.

(** X15. The resume flow: when the user picks an entry of the registry,
    [runDefault] goes on as [runCodex] with [resume] and the id of that
    entry, in the directory of the registry (not the starting directory),
    and, however that ends, the registry is not changed by the flow.  When
    the id holds no U+0000 the tool is started with these arguments; when it
    holds one, [spawnSync] refuses it: nothing is started and the exception
    escapes. *)
Theorem runDefault_resume (host : Host) (ui : UI) (startDir : Path)
    (options : Options) (w w1 : World) (workDir cdxPath : Path)
    (e : Entry) (entries : list Entry) (entry : Entry) :
  resolveRegistry startDir options w = (Ok (workDir, cdxPath, e :: entries), w1) ->
  forceNew options = false ->
  chooseSession ui (e :: entries) = Some (SelResume entry) ->
  exists w2,
    quiet w w2 /\
    runDefault host ui startDir options w
    = runCodex host [js "resume"; uuid entry]
        (defaultWorkDir options (fs w) startDir) (verbose options) w2 /\
    silent w (snd (runDefault host ui startDir options w)) /\
    if hasNul (uuid entry)
    then
      runDefault host ui startDir options w
      = (Thrown ERR_INVALID_ARG_VALUE,
         mkWorld (fs w)
           (trace w2
              ++ verboseLog (MsgRunning [js "resume"; uuid entry])
                   (verbose options)))
    else
      In (EvSpawn Codex [js "resume"; uuid entry]
            (defaultWorkDir options (fs w) startDir))
        (trace (snd (runDefault host ui startDir options w))).
Proof.
  intros Hres Hforce Hpick.
  destruct (resolveRegistry_ok _ _ _ _ _ _ _ Hres) as (<- & _ & _ & Hq).
  destruct (consoleLog (MsgCdxPath cdxPath) w1) as [r2 w2] eqn:E2.
  pose proof (preserves_run _ _ _ _ _ (preserves_consoleLog _) E2) as Hq2.
  assert (r2 = Ok tt) as -> by (by injection E2).
  destruct (selectSession_nonempty ui e entries w2) as (w3 & E3 & Hq3).
  exists w3.
  assert (Hq03 : quiet w w3) by eauto using quiet_trans.
  assert (Hrun : runDefault host ui startDir options w
                 = runCodex host [js "resume"; uuid entry] workDir
                     (verbose options) w3).
  { unfold runDefault. unfold bind at 1. rewrite Hres.
    unfold bind at 1. rewrite E2. rewrite Hforce.
    unfold bind at 1. rewrite E3, Hpick. done. }
  split; [done|]. split; [done|]. rewrite Hrun. split.
  - eapply silent_trans; [by apply quiet_silent|]. apply preserves_runCodex.
  - assert (Hargs : existsb hasNul [js "resume"; uuid entry]
                    = hasNul (uuid entry))
      by (cbn [existsb]; by rewrite orb_false_r).
    destruct (hasNul (uuid entry)) eqn:Hnul.
    + rewrite runCodex_nul by done. f_equal. f_equal. apply Hq03.
    + destruct (runCodex_spawns host [js "resume"; uuid entry] workDir
                  (verbose options) w3 Hargs) as [t ->].
      apply in_or_app. right. apply in_or_app. right. by left.
Qed.

(** ** Session discovery, further *)

Lemma matches_length pattern s :
  matches pattern s = true -> length s = length pattern.
Proof.
  revert s. induction pattern as [|p ps IH]; intros [|c cs]; simpl; try done.
  intros H. apply andb_prop in H as [_ H]. f_equal. by apply IH.
Qed.

Lemma matches_app p1 p2 s1 s2 :
  length s1 = length p1 ->
  matches (p1 ++ p2) (s1 ++ s2) = matches p1 s1 && matches p2 s2.
Proof.
  revert s1. induction p1 as [|p ps IH]; intros [|c cs]; simpl; try done.
  intros [= H]. rewrite IH by done. by rewrite andb_assoc.
Qed.

Lemma drop_app_exact {A} (u l : list A) : drop (length u) (u ++ l) = l.
Proof. induction u as [|x u IH]; simpl; [done | exact IH]. Qed.

(** X16. [extractIdFromFilename] returns an identifier exactly when the path
    ends with a UUID-shaped token (8-4-4-4-12 hexadecimal digits, either
    case) followed by [.jsonl] in any letter case, and the identifier is
    that token, whatever comes before it in the path. *)
Theorem extractIdFromFilename_spec (filePath id : jsstring) :
  extractIdFromFilename filePath = Some id <->
  exists pre ext,
    filePath = pre ++ id ++ ext /\
    matches uuidPattern id = true /\ matches extPattern ext = true.
Proof.
  unfold extractIdFromFilename. split.
  - destruct (Nat.ltb_spec (length filePath) 42) as [Hlt|Hge]; [done|].
    destruct (matches _ _) eqn:Hm; [|done]. intros [= <-].
    pose proof (matches_length _ _ Hm) as Hlen.
    set (tail := drop (length filePath - 42) filePath) in *.
    assert (Htail : tail = take 36 tail ++ drop 36 tail)
      by (by rewrite take_drop).
    rewrite Htail in Hm. rewrite matches_app in Hm.
    + apply andb_prop in Hm as [Hid Hext].
      exists (take (length filePath - 42) filePath), (drop 36 tail).
      split; [|by split].
      rewrite <- Htail. unfold tail. by rewrite take_drop.
    + rewrite length_take, Hlen. reflexivity.
  - intros (pre & ext & -> & Hid & Hext).
    pose proof (matches_length _ _ Hid) as Hlid.
    pose proof (matches_length _ _ Hext) as Hlext.
    change (length uuidPattern) with 36%nat in Hlid.
    change (length extPattern) with 6%nat in Hlext.
    rewrite !length_app, Hlid, Hlext.
    destruct (Nat.ltb_spec (length pre + (36 + 6)) 42) as [Hlt|Hge]; [lia|].
    replace (length pre + (36 + 6) - 42)%nat with (length pre) by lia.
    rewrite drop_app_exact.
    rewrite matches_app by done. rewrite Hid, Hext. simpl. f_equal.
    rewrite <- Hlid. apply take_app_exact.
Qed.

Example extractIdFromFilename_rollout :
  extractIdFromFilename
    (js "/home/u/.codex/sessions/2025/rollout-2025-01-02T03-04-05-0199AbCd-0123-4567-89ab-cdef01234567.JSONL")
  = Some (js "0199AbCd-0123-4567-89ab-cdef01234567").
Proof. reflexivity. Qed.

Example extractIdFromFilename_short_name :
  extractIdFromFilename (js "sessions/abc.jsonl") = None.
Proof. reflexivity. Qed.

(** *** The latest session file *)

Lemma insertByMtime_all_le x l :
  (forall y, In y l -> (sfMtimeMs y <= sfMtimeMs x)%Q) ->
  insertByMtime x l = l ++ [x].
Proof.
  induction l as [|y r IH]; intros H; simpl; [done|].
  assert (Qle_bool (sfMtimeMs y) (sfMtimeMs x) = true) as ->
    by (apply Qle_bool_iff, H; by left).
  rewrite IH; [done|]. intros z Hz. apply H. by right.
Qed.

Lemma insertByMtime_nonempty x l : insertByMtime x l <> [].
Proof. destruct l as [|y r]; simpl; [done|]. by destruct (Qle_bool _ _). Qed.

Lemma last_cons_nonempty {A} (y : A) l : l <> [] -> last (y :: l) = last l.
Proof. by destruct l. Qed.

Lemma insertByMtime_last_gt x l z :
  last l = Some z ->
  ~ (sfMtimeMs z <= sfMtimeMs x)%Q ->
  last (insertByMtime x l) = Some z.
Proof.
  induction l as [|y r IH]; intros Hlast Hgt; [done|]. simpl.
  destruct r as [|y' r'].
  - simpl in Hlast. injection Hlast as ->.
    assert (Qle_bool (sfMtimeMs z) (sfMtimeMs x) = false) as ->; [|done].
    destruct (Qle_bool _ _) eqn:E; [|done]. by apply Qle_bool_iff in E.
  - destruct (Qle_bool (sfMtimeMs y) (sfMtimeMs x)).
    + rewrite last_cons_nonempty by apply insertByMtime_nonempty.
      apply IH; done.
    + exact Hlast.
Qed.

Lemma In_insertByMtime x l y : In y (insertByMtime x l) <-> x = y \/ In y l.
Proof.
  induction l as [|a r IH]; simpl; [tauto|].
  destruct (Qle_bool _ _); simpl; [rewrite IH|]; tauto.
Qed.

Lemma insertByMtime_step x l :
  dominated l ->
  last (insertByMtime x l) = pickLater (last l) x /\
  dominated (insertByMtime x l).
Proof.
  intros Hdom. destruct (last l) as [z|] eqn:Hlast.
  - simpl. destruct (Qle_bool (sfMtimeMs z) (sfMtimeMs x)) eqn:E.
    + apply Qle_bool_iff in E.
      assert (Hall : forall y, In y l -> (sfMtimeMs y <= sfMtimeMs x)%Q).
      { intros y Hy. eapply Qle_trans; [by apply (Hdom z) | done]. }
      rewrite insertByMtime_all_le by done. rewrite last_snoc. split; [done|].
      intros z' Hz' y Hy. rewrite last_snoc in Hz'. injection Hz' as <-.
      apply in_app_or in Hy as [Hy|[<-|[]]]; [by apply Hall | apply Qle_refl].
    + assert (Hgt : ~ (sfMtimeMs z <= sfMtimeMs x)%Q).
      { intros H. apply Qle_bool_iff in H. congruence. }
      rewrite (insertByMtime_last_gt x l z) by done. split; [done|].
      intros z' Hz' y Hy.
      rewrite (insertByMtime_last_gt x l z) in Hz' by done.
      injection Hz' as <-. apply In_insertByMtime in Hy as [<-|Hy].
      * apply Qlt_le_weak. by apply Qnot_le_lt.
      * by apply (Hdom z).
  - apply last_None in Hlast as ->.
    simpl. split; [done|]. intros z [= <-] y [<-|[]]. apply Qle_refl.
Qed.

Lemma sort_last_fold files acc :
  dominated acc ->
  last (fold_left (fun sorted x => insertByMtime x sorted) files acc)
  = fold_left pickLater files (last acc).
Proof.
  revert acc. induction files as [|x r IH]; intros acc Hdom; simpl; [done|].
  destruct (insertByMtime_step x acc Hdom) as [Hlast Hdom'].
  rewrite IH by done. by rewrite Hlast.
Qed.

(** The last element of the sorted array is found by one pass that keeps the
    later file, the newcomer on equal times. *)
Lemma sortByMtime_last files :
  last (sortByMtime files) = fold_left pickLater files None.
Proof. unfold sortByMtime. by rewrite sort_last_fold. Qed.

Lemma fold_pickLater_snoc files x best :
  fold_left pickLater (files ++ [x]) best
  = pickLater (fold_left pickLater files best) x.
Proof. by rewrite fold_left_app. Qed.

Lemma pickLater_spec files :
  match fold_left pickLater files None with
  | None => files = []
  | Some f =>
      exists pre post,
        files = pre ++ f :: post /\
        (forall g, In g pre -> (sfMtimeMs g <= sfMtimeMs f)%Q) /\
        (forall g, In g post -> (sfMtimeMs g < sfMtimeMs f)%Q)
  end.
Proof.
  induction files as [|x r IH] using rev_ind; [done|].
  rewrite fold_pickLater_snoc.
  destruct (fold_left pickLater r None) as [b|].
  - destruct IH as (pre & post & -> & Hpre & Hpost). simpl.
    destruct (Qle_bool (sfMtimeMs b) (sfMtimeMs x)) eqn:E.
    + apply Qle_bool_iff in E. exists (pre ++ b :: post), [].
      split; [done|]. split; [|by intros g []].
      intros g Hg. apply in_app_or in Hg as [Hg|[<-|Hg]].
      * eapply Qle_trans; [by apply Hpre | done].
      * done.
      * eapply Qle_trans; [apply Qlt_le_weak; by apply Hpost | done].
    + exists pre, (post ++ [x]). split; [by rewrite <- app_assoc|].
      split; [done|]. intros g Hg. apply in_app_or in Hg as [Hg|[<-|[]]].
      * by apply Hpost.
      * apply Qnot_le_lt. intros H. apply Qle_bool_iff in H. congruence.
  - subst r. simpl. exists [], []. by repeat split.
Qed.

(** *** What the traversal gathers *)

(** The loop over the entries of a directory gives the session files under
    the entries, after the ones it was given, when the traversal throws at
    none of them, and fails otherwise. *)
Lemma collect_children host dir children acc
    (IH : Forall
            (fun child =>
               forall dir' acc',
                 match collectSessionFile host dir' child acc' with
                 | inr r =>
                     walkableEntry child = true /\
                     r = acc' ++ filesUnder host dir' child
                 | inl _ => walkableEntry child = false
                 end) children) :
  match
    (fix each (entries : list dirent) (results : list SessionFile) :=
       match entries with
       | [] => inr results
       | e :: rest =>
           match collectSessionFile host dir e results with
           | inr results' => each rest results'
           | inl err => inl err
           end
       end) children acc
  with
  | inr r =>
      forallb walkableEntry children = true /\
      r = acc ++ flat_map (filesUnder host dir) children
  | inl _ => forallb walkableEntry children = false
  end.
Proof.
  revert acc. induction children as [|e rest IHc]; intros acc.
  - by rewrite app_nil_r.
  - inversion IH as [|? ? He Hrest]; subst. specialize (IHc Hrest).
    specialize (He dir acc). cbn [forallb flat_map].
    destruct (collectSessionFile host dir e acc) as [err|r].
    + by rewrite He.
    + destruct He as [-> ->]. specialize (IHc (acc ++ filesUnder host dir e)).
      cbn [andb].
      destruct ((fix each (entries : list dirent) (results : list SessionFile) :=
                   match entries with
                   | [] => inr results
                   | e0 :: rest0 =>
                       match collectSessionFile host dir e0 results with
                       | inr results' => each rest0 results'
                       | inl err => inl err
                       end
                   end) rest (acc ++ filesUnder host dir e)) as [err|r'].
      * done.
      * destruct IHc as [-> ->]. by rewrite <- app_assoc.
Qed.

Lemma collectSessionFile_result host :
  forall entry dir acc,
    match collectSessionFile host dir entry acc with
    | inr r =>
        walkableEntry entry = true /\ r = acc ++ filesUnder host dir entry
    | inl _ => walkableEntry entry = false
    end.
Proof.
  induction entry as [name content mtime|name children IH|name|name e]
    using dirent_nested_ind; intros dir acc.
  - simpl. destruct (endsWith name (js ".jsonl")); [done|].
    by rewrite app_nil_r.
  - apply (collect_children host (joinStr host dir name) children acc IH).
  - simpl. by rewrite app_nil_r.
  - done.
Qed.

Lemma collectEntries_result host dir entries acc :
  match collectEntries host dir entries acc with
  | inr r =>
      forallb walkableEntry entries = true /\
      r = acc ++ flat_map (filesUnder host dir) entries
  | inl _ => forallb walkableEntry entries = false
  end.
Proof.
  revert acc. induction entries as [|e rest IH]; intros acc.
  - simpl. by rewrite app_nil_r.
  - cbn [collectEntries forallb flat_map].
    pose proof (collectSessionFile_result host e dir acc) as He.
    destruct (collectSessionFile host dir e acc) as [err|r].
    + by rewrite He.
    + destruct He as [-> ->]. cbn [andb].
      specialize (IH (acc ++ filesUnder host dir e)).
      destruct (collectEntries host dir rest _) as [err|r']; [done|].
      destruct IH as [-> ->]. by rewrite <- app_assoc.
Qed.

(** When [collectSessionFiles] returns, it returns the session files of the
    tree, and the file system is as before. *)
Lemma collectSessionFiles_ok host w files w' :
  collectSessionFiles host [] w = (Ok files, w') ->
  files = sessionFiles host (fs w) /\ fs w' = fs w /\ walkable (fs w).
Proof.
  unfold collectSessionFiles, sessionFiles, walkable.
  destruct (sessions (fs w)) as [[entries|err]|] eqn:E; mrun.
  - pose proof (collectEntries_result host (SESSIONS_DIR host) entries [])
      as H.
    destruct (collectEntries _ _ entries []) as [err|r]; [done|].
    destruct H as [Hl ->]. unfold ret. by intros [= <- <-].
  - done.
  - unfold ret. by intros [= <- <-].
Qed.

(** When the sessions path cannot be listed, or the traversal throws at an
    entry below it, the exception escapes. *)
Lemma collectSessionFiles_unwalkable host w :
  ~ walkable (fs w) ->
  exists e, fst (collectSessionFiles host [] w) = Thrown e.
Proof.
  unfold collectSessionFiles, walkable.
  destruct (sessions (fs w)) as [[entries|err]|] eqn:E; mrun.
  - pose proof (collectEntries_result host (SESSIONS_DIR host) entries [])
      as H.
    destruct (collectEntries _ _ entries []) as [err|r].
    + intros _. by exists err.
    + destruct H as [Hl _]. done.
  - intros _. by exists err.
  - done.
Qed.

Lemma readSessionIdFromFile_ok host file w :
  exists v w', readSessionIdFromFile host file w = (Ok v, w') /\ fs w' = fs w.
Proof.
  unfold readSessionIdFromFile, bind, emit, ret. cbn [fs trace].
  destruct (JSON_parse host _) as [record|]; [|by eexists _, _].
  destruct (_ && _ && _); by eexists _, _.
Qed.

(** X17. When [getLatestSessionSnapshot] returns, it returns nothing exactly
    when the sessions tree holds no session file, and otherwise the path and
    the time of the most recently modified session file; of several files
    with that time, the one met last in the traversal. *)
Theorem getLatestSessionSnapshot_latest (host : Host) (verbose : bool)
    (w w' : World) (result : option Snapshot) :
  getLatestSessionSnapshot host verbose w = (Ok result, w') ->
  match result with
  | None => sessionFiles host (fs w) = []
  | Some s => latestAmong (sessionFiles host (fs w)) s
  end.
Proof.
  unfold getLatestSessionSnapshot. unfold bind at 1.
  destruct (collectSessionFiles host [] w) as [[files|code|err] w1] eqn:Hc;
    [|done|done].
  destruct (collectSessionFiles_ok host w files w1 Hc) as (-> & _ & _).
  rewrite sortByMtime_last.
  pose proof (pickLater_spec (sessionFiles host (fs w))) as Hspec.
  destruct (fold_left pickLater _ None) as [f|].
  - unfold bind at 1.
    destruct (readSessionIdFromFile_ok host f w1) as (v & w2 & -> & _).
    unfold bind. rewrite logVerbose_run. unfold ret. intros [= <- _].
    destruct Hspec as (pre & post & Hsplit & Hpre & Hpost).
    exists pre, f, post. by repeat split.
  - unfold ret. by intros [= <- _].
Qed.

(** A tree with two session files of the latest time, [b.jsonl] in a
    directory and [c.jsonl] after it: the snapshot is the one of
    [c.jsonl]. *)
Lemma getLatestSessionSnapshot_latest_witness :
  let host := sampleHost (Some 0%Z) (fun f => f) in
  let tree :=
    Listed
      [DFile (js "a.jsonl") [] 5%Q;
       DDir (js "d") [DFile (js "b.jsonl") [] 7%Q; DFile (js "notes.txt") [] 9%Q];
       DFile (js "c.jsonl") [] 7%Q;
       DFile (js "old.JSONL") [] 8%Q] in
  let w := mkWorld (mkFS ∅ None (Some tree)) [] in
  latestAmong (sessionFiles host (fs w))
    (mkSnapshot VNull 7%Q (js "/home/u/.codex/sessions/c.jsonl")).
Proof.
  intros host tree w.
  exact (getLatestSessionSnapshot_latest host false w
           (snd (getLatestSessionSnapshot host false w))
           (Some (mkSnapshot VNull 7%Q (js "/home/u/.codex/sessions/c.jsonl")))
           eq_refl).
Defined.

(** The sessions path is a regular file, or a directory of the tree cannot
    be read: the snapshot is not taken, the exception escapes. *)
Example getLatestSessionSnapshot_not_a_directory :
  let host := sampleHost (Some 0%Z) (fun f => f) in
  fst (getLatestSessionSnapshot host false
         (mkWorld (mkFS ∅ None (Some (Unlisted ENOTDIR))) []))
  = Thrown ENOTDIR
  /\ fst (getLatestSessionSnapshot host false
            (mkWorld
               (mkFS ∅ None
                  (Some (Listed [DFile (js "a.jsonl") [] 5%Q;
                                 DDenied (js "private") EACCES]))) []))
     = Thrown EACCES.
Proof. split; reflexivity. Qed.

Lemma filesUnder_Holds host sf :
  forall entry dir, In sf (filesUnder host dir entry) <-> Holds host dir entry sf.
Proof.
  induction entry as [name content mtime|name children IH|name|name e]
    using dirent_nested_ind; intros dir.
  - simpl. destruct (endsWith name (js ".jsonl")) eqn:E.
    + split.
      * intros [<-|[]]. by constructor.
      * intros H. inversion H; subst. by left.
    + split; [done|]. intros H. inversion H; subst. congruence.
  - cbn [filesUnder]. rewrite in_flat_map. split.
    + intros (child & Hc & Hin). apply Holds_dir with child; [done|].
      rewrite Forall_forall in IH. apply IH; [by apply list_elem_of_In|done].
    + intros H. inversion H; subst. exists child. split; [done|].
      rewrite Forall_forall in IH. apply IH; [by apply list_elem_of_In|done].
  - split; [done|]. intros H. inversion H.
  - split; [done|]. intros H. inversion H.
Qed.

(** X18. When the traversal returns, it has gathered exactly the regular
    files whose name ends with [.jsonl] (in lower case), at any depth of the
    sessions tree, in the order of the tree, each with its full path and its
    time: no other kind of entry, no file with another ending, and nothing
    when the sessions directory is missing. *)
Theorem sessionFiles_exactly (host : Host) (w w' : World)
    (files : list SessionFile) (sf : SessionFile) :
  collectSessionFiles host [] w = (Ok files, w') ->
  files = sessionFiles host (fs w) /\
  (In sf files <->
   exists entries entry,
     sessions (fs w) = Some (Listed entries) /\ In entry entries /\
     Holds host (SESSIONS_DIR host) entry sf).
Proof.
  intros Hc. destruct (collectSessionFiles_ok host w files w' Hc) as (-> & _ & _).
  split; [done|]. unfold sessionFiles.
  destruct (sessions (fs w)) as [[entries|err]|].
  - rewrite in_flat_map. split.
    + intros (entry & He & Hin). exists entries, entry.
      split; [done|]. split; [done|]. by apply filesUnder_Holds.
    + intros (entries' & entry & [= <-] & He & Hh). exists entry.
      split; [done|]. by apply filesUnder_Holds.
  - split; [done|]. by intros (entries & entry & ? & _).
  - split; [done|]. by intros (entries & entry & ? & _).
Qed.

(** The tree of the examples after the run: the two session files, the new
    one among them. *)
Lemma sessionFiles_exactly_witness :
  let host := sampleHost (Some 0%Z) (fun f => f) in
  let w := mkWorld (mkFS ∅ None (Some sampleSessionsAfter)) [] in
  let old :=
    mkSessionFile (js "/home/u/.codex/sessions/2025/rollout-old.jsonl") 10%Q
      (js "Mold-1") in
  let new :=
    mkSessionFile (js "/home/u/.codex/sessions/2025/rollout-new.jsonl") 20%Q
      (js "Mabc-123" ++ LF :: js "more") in
  [old; new] = sessionFiles host (fs w) /\
  (In new [old; new] <->
   exists entries entry,
     sessions (fs w) = Some (Listed entries) /\ In entry entries /\
     Holds host (SESSIONS_DIR host) entry new).
Proof.
  intros host w old new.
  exact (sessionFiles_exactly host w (snd (collectSessionFiles host [] w))
           [old; new] new eq_refl).
Defined.

(** *** The history log *)

Lemma getLastHistorySessionId_run host verbose w :
  match history (fs w) with
  | None => fst (getLastHistorySessionId host verbose w) = Ok VNull
  | Some (File content) =>
      fst (getLastHistorySessionId host verbose w)
      = Ok (default VNull (head (idsFromEnd host content)))
  | Some Directory =>
      fst (getLastHistorySessionId host verbose w) = Thrown EISDIR
  end.
Proof.
  unfold getLastHistorySessionId, idsFromEnd.
  destruct (history (fs w)) as [[content|]|] eqn:E; mrun; try done.
  rewrite scanHistory_find.
  destruct (filterBoolean _) as [|a r]; simpl; [by destruct verbose | done].
Qed.

(** X19. The history scan of the fallback never gives back the identifier it
    was told to skip: it returns [null], or a truthy session id met in the
    log that is not strictly equal to [previousId].  It fails only when the
    log cannot be read. *)
Theorem getNewestHistorySessionIdSince_differs (host : Host)
    (previousId : value) (verbose : bool) (w : World) :
  match fst (getNewestHistorySessionIdSince host previousId verbose w) with
  | Ok r =>
      r = VNull \/
      (truthy r = true /\ strictEq r previousId = false /\
       exists content,
         history (fs w) = Some (File content) /\ In r (idsFromEnd host content))
  | Exited _ => False
  | Thrown _ => history (fs w) = Some Directory
  end.
Proof.
  pose proof (getNewestHistorySessionIdSince_run host previousId verbose w) as H.
  destruct (history (fs w)) as [[content|]|] eqn:E; rewrite H; try done;
    [|by left].
  unfold firstNewHistoryIdSince.
  destruct (List.find _ _) as [sid|] eqn:Hfind; simpl; [|by left].
  right. apply find_some in Hfind as [Hin Hneq].
  assert (Htruthy : truthy sid = true).
  { clear Hneq H. revert Hin. generalize (rev (historyLines content)).
    induction l as [|line r IH]; simpl; [done|].
    unfold carriedSessionId at 1.
    destruct (JSON_parse host line) as [record|]; [|exact IH].
    destruct (truthy record && truthy _) eqn:Ht; [|exact IH].
    intros [<-|Hin]; [|by apply IH]. by apply andb_prop in Ht as [_ Ht]. }
  split; [done|]. split; [by apply negb_true_iff|]. by exists content.
Qed.

(** X20. The fallback does not tell the records written by the run from the
    older ones.  On one and the same log whose most recent session id is
    [a], [getLastHistorySessionId] returns [a] and
    [getNewestHistorySessionIdSince a] returns the most recent id, among the
    older ones, that differs from [a]: an identifier that was already in the
    log. *)
Theorem fallback_on_unchanged_log (host : Host) (verbose : bool) (w : World)
    (content : jsstring) (a : value) (older : list value) :
  history (fs w) = Some (File content) ->
  idsFromEnd host content = a :: older ->
  strictEq a a = true ->
  fst (getLastHistorySessionId host verbose w) = Ok a /\
  fst (getNewestHistorySessionIdSince host a verbose w)
  = Ok (default VNull (List.find (fun sid => negb (strictEq sid a)) older)).
Proof.
  intros Hhist Hids Hrefl. split.
  - pose proof (getLastHistorySessionId_run host verbose w) as H.
    rewrite Hhist in H. by rewrite H, Hids.
  - pose proof (getNewestHistorySessionIdSince_run host a verbose w) as H.
    rewrite Hhist in H. rewrite H. unfold firstNewHistoryIdSince.
    fold (idsFromEnd host content). rewrite Hids. simpl. by rewrite Hrefl.
Qed.

Lemma fallback_on_unchanged_log_witness :
  let host := sampleHost (Some 0%Z) (fun f => f) in
  let w := mkWorld (mkFS ∅ (Some (File sampleHistoryBefore)) None) [] in
  fst (getLastHistorySessionId host false w) = Ok (VStr (js "h1")) /\
  fst (getNewestHistorySessionIdSince host (VStr (js "h1")) false w)
  = Ok (VStr (js "h0")).
Proof.
  intros host w.
  exact (fallback_on_unchanged_log host false w sampleHistoryBefore
           (VStr (js "h1")) [VStr (js "h0")] eq_refl eq_refl eq_refl).
Defined.

(** ** Arguments that [runAdd] takes and [loadEntries] drops *)

Lemma app_cons_last {A} (x : A) l1 l2 u :
  l1 ++ x :: l2 = u ++ [x] -> ~ In x u -> l2 = [].
Proof.
  revert u. induction l1 as [|b l1 IH]; intros [|a u] H Hu; simpl in H.
  - by injection H.
  - injection H as -> _. exfalso. apply Hu. by left.
  - injection H as _ H. by destruct l1.
  - injection H as _ H. apply (IH u); [done|]. intros Hin. apply Hu. by right.
Qed.

Lemma parseLine_ends_with_tab u : ~ In TAB u -> parseLine (trim (u ++ [TAB])) = None.
Proof.
  intros Hu. destruct (parseLine (trim (u ++ [TAB]))) as [e|] eqn:E; [|done].
  exfalso. apply parseLine_valid in E.
  destruct E as [before after Hline _ _ Hafter _].
  destruct (trim_decomp (u ++ [TAB])) as (p & q & Hsplit).
  rewrite Hline in Hsplit. rewrite <- !app_assoc in Hsplit. simpl in Hsplit.
  rewrite app_assoc in Hsplit. symmetry in Hsplit.
  apply app_cons_last in Hsplit; [|done].
  apply app_eq_nil in Hsplit as [-> _]. done.
Qed.

Lemma parseLine_no_tab l : ~ In TAB l -> parseLine l = None.
Proof.
  intros Hl. unfold parseLine.
  destruct (indexOf TAB l) as [i|] eqn:E; [|done].
  apply indexOf_Some in E as [E _]. exfalso. apply Hl. rewrite E.
  apply in_or_app. right. by left.
Qed.

Lemma parseContent_blank_field u l :
  ~ In TAB u -> ~ In LF u -> cleanLabel l ->
  u = [] \/ l = [] ->
  parseContent (u ++ TAB :: l ++ [LF]) = [].
Proof.
  intros Hut Hul [Hclean Htrim] Hblank.
  assert (Hlf : ~ In LF (u ++ TAB :: l)).
  { intros Hin. apply in_app_or in Hin as [?|[?|Hin]]; [done | done|].
    apply Hclean in Hin. done. }
  replace (u ++ TAB :: l ++ [LF]) with ((u ++ TAB :: l) ++ LF :: [])
    by (by rewrite <- app_assoc).
  rewrite parseContent_app, parseContent_nil, app_nil_r.
  unfold parseContent. rewrite parse_lines, split_no_sep by done. simpl.
  destruct Hblank as [->| ->].
  - simpl. assert (trim (TAB :: l) = l) as ->.
    { unfold trim. simpl. exact Htrim. }
    rewrite parseLine_no_tab; [done|]. intros Hin. by apply Hclean in Hin.
  - by rewrite parseLine_ends_with_tab.
Qed.

(** X21. [runAdd] tests the uuid and the label as they were given, before it
    trims and sanitizes them.  Let the arguments pass the usage test, the
    registry file be missing, empty or ended by a line feed, and the trimmed
    uuid hold no tab and no line feed.  When the trimmed uuid or the
    sanitized label is empty (a uuid or a label made of white space only),
    the line is appended all the same, and the entries loaded afterwards are
    the ones of before: the session that was added is never listed. *)
Theorem runAdd_blank_field_is_lost (host : Host) (ui : UI)
    (uuidInput : option jsstring) (startDir : Path) (args : list jsstring)
    (verbose : bool) (w : World) (uuid label : jsstring) :
  ~ addUsageError args ->
  addUuid uuidInput args = Some uuid -> uuid <> [] ->
  addLabel ui args = Some label -> label <> [] ->
  trim uuid = [] \/ sanitizeLabel label = [] ->
  ~ In TAB (trim uuid) -> ~ In LF (trim uuid) ->
  appendable (fs w) (registryPath (fs w) startDir) ->
  exists w' w'',
    runAdd host ui uuidInput startDir args verbose w = (Ok [], w') /\
    textAt (fs w') (registryPath (fs w) startDir)
    = textAt (fs w) (registryPath (fs w) startDir)
      ++ trim uuid ++ TAB :: sanitizeLabel label ++ [LF] /\
    loadEntries (Some (registryPath (fs w) startDir)) w'
    = (Ok (entriesAt (fs w) (registryPath (fs w) startDir)), w'').
Proof.
  intros Husage Hu Hune Hl Hlne Hblank Htab Hlf Happ.
  destruct (runAdd_run host ui uuidInput startDir args verbose w uuid label
              Husage Hu Hune Hl Hlne) as (w1 & Hfs & _ & ->).
  assert (Hline : parseContent
                    (trim uuid ++ TAB :: sanitizeLabel label ++ [LF]) = []).
  { apply parseContent_blank_field; try done.
    split.
    - intros c Hc. unfold sanitizeLabel in Hc. apply trim_In in Hc.
      by eapply replaceRuns_clean.
    - apply trim_idempotent. }
  unfold appendable, entriesAt, textAt in *. rewrite <- Hfs in *.
  set (p := registryPath (fs w1) startDir) in *.
  destruct (registry (fs w1) !! p) as [[c|]|] eqn:E; [|done|].
  - unfold bind. rewrite appendEntry_run by (by rewrite E). rewrite E.
    eexists _, _. split; [done|]. cbn [fs registry].
    rewrite lookup_insert_eq. split; [done|].
    erewrite loadEntries_file by (simpl; apply lookup_insert_eq).
    by rewrite (parseContent_terminated c _ Happ), Hline, app_nil_r.
  - unfold bind. rewrite appendEntry_run by (by rewrite E). rewrite E.
    eexists _, _. split; [done|]. cbn [fs registry].
    rewrite lookup_insert_eq. split; [done|].
    erewrite loadEntries_file by (simpl; apply lookup_insert_eq).
    simpl. by rewrite Hline.
Qed.

Lemma runAdd_blank_field_is_lost_witness :
  let host := sampleHost (Some 0%Z) (fun f => f) in
  let ui := mkUI (fun _ => None) None (fun _ => None) in
  let A := [js "A"] in
  let cdx := pathJoin A CDX_FILENAME in
  let w := mkWorld (mkFS {[ cdx := File (js "u1" ++ TAB :: js "dev" ++ [LF]) ]}
                      None None) [] in
  exists w' w'',
    runAdd host ui None A [js "add"; js "u2"; js " "] false w = (Ok [], w') /\
    textAt (fs w') cdx
    = (js "u1" ++ TAB :: js "dev" ++ [LF]) ++ js "u2" ++ TAB :: [] ++ [LF] /\
    loadEntries (Some cdx) w' = (Ok [mkEntry (js "u1") (js "dev")], w'').
Proof.
  intros host ui A cdx w.
  apply (runAdd_blank_field_is_lost host ui None A [js "add"; js "u2"; js " "]
           false w (js "u2") (js " "));
    try reflexivity; try discriminate; try notin.
  - intros [H|[H _]]; simpl in H; lia.
  - right. reflexivity.
  - right. by exists (js "u1" ++ TAB :: js "dev").
Defined.

(** ** A witness for the resume flow *)

Lemma runDefault_resume_witness :
  let host := sampleHost (Some 3%Z) (fun f => f) in
  let ui := mkUI (fun entries => option_map SelResume (head entries)) None
              (fun _ => None) in
  let A := [js "A"] in
  let C := [js "C"; js "B"; js "A"] in
  let cdx := pathJoin A CDX_FILENAME in
  let options := mkOptions false false false in
  let w := mkWorld (mkFS {[ cdx := File (js "u1" ++ TAB :: js "dev" ++ [LF]) ]}
                      None None) [] in
  exists w2,
    quiet w w2 /\
    runDefault host ui C options w
    = runCodex host [js "resume"; js "u1"] A false w2 /\
    silent w (snd (runDefault host ui C options w)) /\
    In (EvSpawn Codex [js "resume"; js "u1"] A)
      (trace (snd (runDefault host ui C options w))).
Proof.
  intros host ui A C cdx options w.
  exact (runDefault_resume host ui C options w
           (snd (resolveRegistry C options w)) A cdx
           (mkEntry (js "u1") (js "dev")) [] (mkEntry (js "u1") (js "dev"))
           eq_refl eq_refl eq_refl).
Defined.

(** ** The prompts: what validation guarantees *)

Lemma trimStart_blank s : trimStart s = [] <-> blank s.
Proof.
  unfold blank. induction s as [|c r IH]; simpl; [done|].
  destruct (isWhiteSpace c); simpl; [exact IH|]. split; discriminate.
Qed.

Lemma blank_rev s : blank (rev s) <-> blank s.
Proof.
  unfold blank. rewrite !forallb_forall.
  split; intros H c Hc; apply H; by apply in_rev in Hc || apply in_rev.
Qed.

Lemma trim_blank s : trim s = [] <-> blank s.
Proof.
  split.
  - intros H. apply trimStart_blank.
    unfold trim, trimEnd in H.
    assert (Hrev : trimStart (rev (trimStart s)) = []).
    { apply (f_equal (@rev N)) in H. by rewrite rev_involutive in H. }
    apply trimStart_blank in Hrev. apply (proj1 (blank_rev _)) in Hrev.
    pose proof (trimStart_headOk s) as Hhead.
    destruct (trimStart s) as [|c r]; [done|].
    unfold blank in Hrev. simpl in Hrev. unfold headOk in Hhead.
    apply andb_true_iff in Hrev as [Hc _].
    simpl in Hhead. congruence.
  - intros H. apply trimStart_blank in H. unfold trim. by rewrite H.
Qed.

Lemma isTabNlCr_white c : isTabNlCr c = true -> isWhiteSpace c = true.
Proof.
  unfold isTabNlCr, TAB, LF, CR. intros H.
  apply orb_true_iff in H as [H|H]; [apply orb_true_iff in H as [H|H]|];
    apply N.eqb_eq in H; by subst.
Qed.

Lemma replaceRuns_blank b s : blank (replaceRuns b s) <-> blank s.
Proof.
  unfold blank. revert b. induction s as [|c r IH]; intros b; simpl; [done|].
  destruct (isTabNlCr c) eqn:E.
  - rewrite (isTabNlCr_white c E). destruct b; simpl; apply IH.
  - simpl. destruct (isWhiteSpace c); simpl; [apply IH | done].
Qed.

Lemma sanitizeLabel_nil_iff s : sanitizeLabel s = [] <-> trim s = [].
Proof. unfold sanitizeLabel. by rewrite !trim_blank, replaceRuns_blank. Qed.

Lemma validateLabel_accepted s :
  validateLabel s = Accepted <-> trim s <> [].
Proof.
  unfold validateLabel. destruct s as [|c r]; [by split|].
  destruct (trim (c :: r)); simpl; by split.
Qed.

(** X22. The label prompt and [sanitizeLabel] agree on what an empty label
    is: the validation of [promptLabel] accepts a text exactly when
    [sanitizeLabel] makes a non-empty label of it.  So a label typed at the
    prompt never gives a line with an empty label field. *)
Theorem validateLabel_iff_sanitized (value : jsstring) :
  validateLabel value = Accepted <-> sanitizeLabel value <> [].
Proof. by rewrite validateLabel_accepted, sanitizeLabel_nil_iff. Qed.

Lemma isDigit_cases c :
  isDigit c = true ->
  In c [48; 49; 50; 51; 52; 53; 54; 55; 56; 57]%N.
Proof.
  unfold isDigit, inRange. intros H.
  apply andb_true_iff in H as [H1 H2].
  apply N.leb_le in H1, H2. simpl.
  assert (c = 48 \/ c = 49 \/ c = 50 \/ c = 51 \/ c = 52 \/ c = 53 \/ c = 54
          \/ c = 55 \/ c = 56 \/ c = 57)%N by lia.
  intuition.
Qed.

Lemma takeDigits_all s : forallb isDigit s = true -> takeDigits s = s.
Proof.
  induction s as [|c r IH]; simpl; [done|].
  intros H. apply andb_true_iff in H as [-> H]. by rewrite IH.
Qed.

Lemma digitsValue_nonneg s : (0 <= digitsValue s)%Z.
Proof.
  unfold digitsValue.
  assert (G : forall n, (0 <= n)%Z ->
            (0 <= fold_left (fun n c => 10 * n + Z.of_N (c - 48)) s n)%Z).
  { induction s as [|c r IH]; simpl; intros n Hn; [done|]. apply IH. lia. }
  apply G. lia.
Qed.

(** On a text of digits [parseInt] reads the whole text. *)
Lemma parseInt_number s :
  isNumber s = true -> parseInt s = Some (digitsValue s).
Proof.
  unfold isNumber. destruct s as [|c r]; [done|]. simpl. intros H.
  pose proof (takeDigits_all (c :: r) H) as Htake.
  apply andb_true_iff in H as [Hc _].
  pose proof (isDigit_cases c Hc) as Hin. simpl in Hin.
  unfold parseInt.
  destruct Hin as [<-|[<-|[<-|[<-|[<-|[<-|[<-|[<-|[<-|[<-|[]]]]]]]]]]];
    cbn [trimStart];
    change (isWhiteSpace _) with false; cbv iota beta;
    rewrite Htake; cbn [nonEmpty]; f_equal; lia.
Qed.

Lemma at_index_pred {A} (l : list A) (index : Z) :
  (1 <= index <= Z.of_nat (length l))%Z ->
  exists k x, index = Z.of_nat (S k) /\ l !! k = Some x
              /\ at_index l (index - 1) = Some x.
Proof.
  intros H. exists (Z.to_nat (index - 1)).
  destruct (lookup_lt_is_Some_2 l (Z.to_nat (index - 1))) as [x Hx]; [lia|].
  exists x. split; [lia|]. split; [done|].
  unfold at_index. destruct (index - 1 <? 0)%Z eqn:E; [lia | done].
Qed.

(** What a text that one of the number prompts can accept is: blank, or a
    number in the range from [lowest] to the number of entries. *)
Lemma validated_number (lowest : Z) (count : nat) (value : jsstring) :
  (if negb (nonEmpty value) || negb (nonEmpty (trim value)) then Accepted
   else if negb (isNumber (trim value)) then EnterANumber
   else
     match parseInt (trim value) with
     | Some index =>
         if (index <? lowest)%Z || (Z.of_nat count <? index)%Z
         then OutOfRange else Accepted
     | None => Accepted
     end) = Accepted ->
  (0 <= lowest)%Z ->
  trim value = []
  \/ exists index, value <> [] /\ parseInt (trim value) = Some index
                   /\ (lowest <= index <= Z.of_nat count)%Z.
Proof.
  intros H Hlow.
  destruct value as [|c r]; [by left|].
  destruct (trim (c :: r)) as [|d t] eqn:Et; [by left|].
  right. cbn [nonEmpty negb orb] in H.
  destruct (isNumber (d :: t)) eqn:En; [|done].
  cbn [negb] in H. rewrite (parseInt_number _ En) in H.
  exists (digitsValue (d :: t)). split; [done|].
  split; [by apply parseInt_number|].
  destruct (digitsValue (d :: t) <? lowest)%Z eqn:E1; [done|].
  destruct (Z.of_nat count <? digitsValue (d :: t))%Z eqn:E2; [done|].
  lia.
Qed.

(** X23. The number prompt of [selectSession]: an answer that the validation
    accepts is blank and leads to the list prompt, or is the number 0 and
    selects a new session, or is a number k between 1 and the number of
    entries and selects the k-th entry of the list.  The entry of the
    selection is never undefined. *)
Theorem selectByNumber_validated (entries : list Entry) (value : jsstring) :
  validateSelection entries value = Accepted ->
  (blank value /\ selectByNumber entries (Some value) = ListSelection)
  \/ (parseInt (trim value) = Some 0%Z
      /\ selectByNumber entries (Some value) = PickNew)
  \/ (exists k entry,
        parseInt (trim value) = Some (Z.of_nat (S k))
        /\ entries !! k = Some entry
        /\ selectByNumber entries (Some value) = PickResume (Some entry)).
Proof.
  intros H.
  destruct (validated_number 0 (length entries) value H) as
    [Hblank|(index & Hne & Hparse & Hrange)]; [lia| |].
  - left. split; [by apply trim_blank|].
    unfold selectByNumber. destruct value; [done|]. by rewrite Hblank.
  - right. unfold selectByNumber. destruct value as [|c r]; [done|].
    rewrite Hparse.
    destruct (index =? 0)%Z eqn:E0.
    + left. apply Z.eqb_eq in E0. by subst.
    + right. apply Z.eqb_neq in E0.
      destruct (at_index_pred entries index) as (k & x & -> & Hk & Hat);
        [lia|].
      exists k, x. by rewrite Hat.
Qed.

Lemma selectByNumber_validated_witness :
  let entries := [mkEntry (js "u1") (js "dev"); mkEntry (js "u2") (js "fix")] in
  let value := js " 2 " in
  (blank value /\ selectByNumber entries (Some value) = ListSelection)
  \/ (parseInt (trim value) = Some 0%Z
      /\ selectByNumber entries (Some value) = PickNew)
  \/ (exists k entry,
        parseInt (trim value) = Some (Z.of_nat (S k))
        /\ entries !! k = Some entry
        /\ selectByNumber entries (Some value) = PickResume (Some entry)).
Proof.
  intros entries value.
  apply (selectByNumber_validated entries value). reflexivity.
Defined.

(** The answers of the examples: [" 2 "] picks the second entry, ["0"] a new
    session, ["3"] and ["+1"] are refused. *)
Example selectSession_numbers :
  let entries := [mkEntry (js "u1") (js "dev"); mkEntry (js "u2") (js "fix")] in
  selectByNumber entries (Some (js " 2 "))
  = PickResume (Some (mkEntry (js "u2") (js "fix")))
  /\ selectByNumber entries (Some (js "0")) = PickNew
  /\ validateSelection entries (js "3") = OutOfRange
  /\ validateSelection entries (js "+1") = EnterANumber.
Proof. vm_compute. repeat split; reflexivity. Qed.

(** X24. The number prompt of [runRemove]: an answer that the validation
    accepts is blank and leaves the choice to the list prompt, or is a
    number k between 1 and the number of entries and picks the id of the
    k-th entry.  Reading the id never fails on an undefined entry. *)
Theorem removeByNumber_validated (entries : list Entry) (value : jsstring) :
  validateRemoval entries value = Accepted ->
  (blank value /\ removeByNumber entries (Some value) = Some None)
  \/ (exists k entry,
        parseInt (trim value) = Some (Z.of_nat (S k))
        /\ entries !! k = Some entry
        /\ removeByNumber entries (Some value) = Some (Some (uuid entry))).
Proof.
  intros H.
  destruct (validated_number 1 (length entries) value H) as
    [Hblank|(index & Hne & Hparse & Hrange)]; [lia| |].
  - left. split; [by apply trim_blank|].
    unfold removeByNumber. destruct value; [done|]. by rewrite Hblank.
  - right. unfold removeByNumber. destruct value as [|c r]; [done|].
    rewrite Hparse.
    destruct (at_index_pred entries index) as (k & x & -> & Hk & Hat);
      [lia|].
    exists k, x. by rewrite Hat.
Qed.

Lemma removeByNumber_validated_witness :
  let entries := [mkEntry (js "u1") (js "dev"); mkEntry (js "u2") (js "fix")] in
  let value := js "1" in
  (blank value /\ removeByNumber entries (Some value) = Some None)
  \/ (exists k entry,
        parseInt (trim value) = Some (Z.of_nat (S k))
        /\ entries !! k = Some entry
        /\ removeByNumber entries (Some value) = Some (Some (uuid entry))).
Proof.
  intros entries value.
  apply (removeByNumber_validated entries value). reflexivity.
Defined.

(** Without the validation the number 0 would make [runRemove] read the id
    of an undefined entry; the validation refuses it. *)
Example runRemove_number_zero :
  let entries := [mkEntry (js "u1") (js "dev")] in
  removeByNumber entries (Some (js "0")) = None
  /\ validateRemoval entries (js "0") = OutOfRange.
Proof. vm_compute. split; reflexivity. Qed.

(** ** The new-session flow, when an id is found *)

Lemma appendEntry_run_value host p newId l verbose w :
  convertible newId = true ->
  registry (fs w) !! p <> Some Directory ->
  appendEntry host p newId l verbose w
  = (Ok tt,
     mkWorld
       (mkFS (<[p := File (textAt (fs w) p
                           ++ toStr host newId ++ TAB :: l ++ [LF])]>
                (registry (fs w)))
          (history (fs w)) (sessions (fs w)))
       (trace w ++ verboseLog (MsgAppending p) verbose
          ++ [EvAppend p (toStr host newId ++ TAB :: l ++ [LF])])).
Proof.
  intros Hconv H. unfold appendEntry, textAt. rewrite Hconv. cbn [negb].
  unfold bind at 1. rewrite logVerbose_run.
  destruct (registry (fs w) !! p) as [[c|]|] eqn:E; try done; by mrun.
Qed.

Lemma appendEntry_unconvertible host p newId l verbose w :
  convertible newId = false ->
  appendEntry host p newId l verbose w = (Thrown TypeError, w).
Proof. intros Hconv. unfold appendEntry. by rewrite Hconv. Qed.

Lemma sanitizeLabel_loadable s :
  trim s <> [] ->
  ~ In LF (sanitizeLabel s) /\ trimmedNonEmpty (sanitizeLabel s).
Proof.
  intros H. split; [|split].
  - intros Hin. unfold sanitizeLabel in Hin. apply trim_In in Hin.
    by apply replaceRuns_clean in Hin.
  - by rewrite sanitizeLabel_nil_iff.
  - unfold sanitizeLabel. apply trim_idempotent.
Qed.

(** X25. A new session that is found: the label is one the prompt accepts,
    the external tool ends with status 0 and reconciliation gives a truthy
    id.  When the id cannot be made a string (an object with a key
    [toString] of its own, or an array that holds one), the [TypeError] of
    line 60 escapes and nothing is appended.  Otherwise, when the id and the
    label are well-formed text and the registry path is not a directory, the
    flow appends one line to the registry, the id, a tab, the sanitized
    label and a line feed, and nothing else changes in what the tool left;
    when moreover the registry text was empty or ended with a line feed and
    the id is one that is read back unchanged, the entries of the registry
    are then those of before followed by the new one. *)
Theorem newSession_registers (host : Host) (ui : UI) (workDir cdxPath : Path)
    (verbose : bool) (w w1 w2 w3 w4 w5 : World) (labelInput : jsstring)
    (previousHistoryId : value) (previousSession latestSession : option Snapshot)
    (newId : value) :
  promptLabel ui = Some labelInput ->
  validateLabel labelInput = Accepted ->
  getLastHistorySessionId host verbose w = (Ok previousHistoryId, w1) ->
  getLatestSessionSnapshot host verbose w1 = (Ok previousSession, w2) ->
  runCodex host [] workDir verbose w2 = (Ok tt, w3) ->
  getLatestSessionSnapshot host verbose w3 = (Ok latestSession, w4) ->
  reconcile host previousHistoryId previousSession latestSession verbose w4
  = (Ok newId, w5) ->
  truthy newId = true ->
  let line := toStr host newId ++ TAB :: sanitizeLabel labelInput ++ [LF] in
  if convertible newId then
    wellFormed (toStr host newId) ->
    wellFormed labelInput ->
    registry (fs w3) !! cdxPath <> Some Directory ->
    exists w',
      newSession host ui workDir cdxPath verbose w = (Ok tt, w') /\
      fs w' = mkFS (<[cdxPath := File (textAt (fs w3) cdxPath ++ line)]>
                      (registry (fs w3)))
                (history (fs w3)) (sessions (fs w3)) /\
      mutations (trace w') = mutations (trace w) ++ [EvAppend cdxPath line] /\
      (appendable (fs w3) cdxPath ->
       loadableId (toStr host newId) ->
       entriesAt (fs w') cdxPath
       = entriesAt (fs w3) cdxPath
         ++ [mkEntry (toStr host newId) (sanitizeLabel labelInput)])
  else
    newSession host ui workDir cdxPath verbose w = (Thrown TypeError, w5) /\
    fs w5 = fs w3 /\
    mutations (trace w5) = mutations (trace w).
Proof.
  intros Hlabel Hvalid Hhist Hsnap Hrun Hlatest Hrec Htruthy line.
  apply validateLabel_accepted in Hvalid.
  assert (Hnonempty : nonEmpty labelInput = true).
  { destruct labelInput; [done|done]. }
  pose proof (preserves_run _ _ _ _ _
                (preserves_getLastHistorySessionId host verbose) Hhist) as Hq1.
  pose proof (preserves_run _ _ _ _ _
                (preserves_getLatestSessionSnapshot host verbose) Hsnap) as Hq2.
  pose proof (preserves_run _ _ _ _ _
                (preserves_runCodex host [] workDir verbose) Hrun) as Hs3.
  pose proof (preserves_run _ _ _ _ _
                (preserves_getLatestSessionSnapshot host verbose) Hlatest)
    as Hq4.
  pose proof (preserves_run _ _ _ _ _
                (preserves_reconcile host previousHistoryId previousSession
                   latestSession verbose) Hrec) as Hq5.
  destruct (quiet_trans _ _ _ Hq4 Hq5) as [Hfs Hmut].
  pose proof (silent_trans _ _ _
                (quiet_silent _ _ (quiet_trans _ _ _ Hq1 Hq2)) Hs3) as Hs.
  assert (Hflow : newSession host ui workDir cdxPath verbose w
                  = appendEntry host cdxPath newId (sanitizeLabel labelInput)
                      verbose w5).
  { unfold newSession. rewrite Hlabel, Hnonempty. cbn [negb].
    unfold bind at 1. rewrite Hhist. unfold bind at 1. rewrite Hsnap.
    unfold bind at 1. rewrite Hrun. unfold bind at 1. rewrite Hlatest.
    unfold bind at 1. rewrite Hrec. by rewrite Htruthy. }
  destruct (convertible newId) eqn:Hconv.
  - intros _ _ Hnotdir.
    assert (Hdir : registry (fs w5) !! cdxPath <> Some Directory)
      by (by rewrite Hfs).
    eexists. split; [|split; [|split]].
    + rewrite Hflow. by apply appendEntry_run_value.
    + cbn [fs]. by rewrite Hfs.
    + cbn [trace]. unfold silent, mutations in *.
      rewrite !List.filter_app. cbn [List.filter isMutation].
      assert (List.filter isMutation (verboseLog (MsgAppending cdxPath) verbose)
              = []) as -> by (by destruct verbose).
      rewrite app_nil_l. f_equal. congruence.
    + intros Happ (Htab & Hlf & Hid).
      destruct (sanitizeLabel_loadable labelInput Hvalid) as [Hllf Hl].
      subst line.
      assert (Hline : parseContent (toStr host newId ++ TAB
                                      :: sanitizeLabel labelInput ++ [LF])
                      = [mkEntry (toStr host newId) (sanitizeLabel labelInput)]).
      { replace (toStr host newId ++ TAB :: sanitizeLabel labelInput ++ [LF])
          with (serialize [mkEntry (toStr host newId)
                             (sanitizeLabel labelInput)])
          by (unfold serialize, entryLine; simpl; by rewrite <- app_assoc).
        apply parse_serialize_loadable. by constructor. }
      unfold entriesAt, textAt, appendable in *. cbn [fs registry].
      rewrite Hfs, lookup_insert_eq.
      destruct (registry (fs w3) !! cdxPath) as [[c|]|]; [|done|].
      * by rewrite (parseContent_terminated c _ Happ), Hline.
      * simpl. by rewrite Hline.
  - rewrite Hflow, appendEntry_unconvertible by done.
    split; [done|]. split; [done|].
    unfold silent in *. congruence.
Qed.

Lemma newSession_registers_witness :
  let host :=
    sampleHost (Some 0%Z)
      (fun f => mkFS (registry f) (Some (File sampleHistoryAfter))
                  (Some sampleSessionsAfter)) in
  let ui := mkUI (fun _ => None) (Some (js " my" ++ TAB :: js "label "))
              (fun _ => None) in
  let A := [js "A"] in
  let cdx := pathJoin A CDX_FILENAME in
  let w := mkWorld (mkFS {[ cdx := File (js "u1" ++ TAB :: js "dev" ++ [LF]) ]}
                      (Some (File sampleHistoryBefore))
                      (Some sampleSessionsBefore)) [] in
  let line := js "abc-123" ++ TAB :: js "my label" ++ [LF] in
  exists w',
    newSession host ui A cdx false w = (Ok tt, w') /\
    fs w' = mkFS (<[cdx := File ((js "u1" ++ TAB :: js "dev" ++ [LF]) ++ line)]>
                    {[ cdx := File (js "u1" ++ TAB :: js "dev" ++ [LF]) ]})
              (Some (File sampleHistoryAfter)) (Some sampleSessionsAfter) /\
    mutations (trace w') = [EvAppend cdx line] /\
    entriesAt (fs w') cdx
    = [mkEntry (js "u1") (js "dev"); mkEntry (js "abc-123") (js "my label")].
Proof.
  intros host ui A cdx w line.
  pose (w1 := snd (getLastHistorySessionId host false w)).
  pose (w2 := snd (getLatestSessionSnapshot host false w1)).
  pose (w3 := snd (runCodex host [] A false w2)).
  pose (w4 := snd (getLatestSessionSnapshot host false w3)).
  pose (w5 := snd (reconcile host (VStr (js "h1")) (Some sampleOldSnapshot)
                     (Some sampleNewSnapshot) false w4)).
  destruct (newSession_registers host ui A cdx false w w1 w2 w3 w4 w5
              (js " my" ++ TAB :: js "label ") (VStr (js "h1"))
              (Some sampleOldSnapshot) (Some sampleNewSnapshot)
              (VStr (js "abc-123"))
              eq_refl eq_refl eq_refl eq_refl eq_refl eq_refl eq_refl eq_refl
              eq_refl eq_refl ltac:(discriminate))
    as (w' & Hnew & Hfs & Hmut & Hload).
  exists w'. split; [exact Hnew|]. split; [exact Hfs|]. split; [exact Hmut|].
  apply Hload.
  - right. by exists (js "u1" ++ TAB :: js "dev").
  - repeat split; try notin; discriminate.
Defined.

(** An id that is an object with a key [toString] of its own: the flow ends
    with the [TypeError], and the registry is as it was. *)
Example newSession_unconvertible_id :
  let host := sampleHost (Some 0%Z) (fun f => f) in
  let cdx := pathJoin [js "A"] CDX_FILENAME in
  let w := mkWorld (mkFS {[ cdx := File (js "u1" ++ TAB :: js "dev" ++ [LF]) ]}
                      None None) [] in
  appendEntry host cdx (VObj [(js "toString", VNum 1)]) (js "label") false w
  = (Thrown TypeError, w).
Proof. reflexivity. Qed.
